(** * Edmonds-Karp maximum flow: the solver of code.py, codeNew.py and
      codeFinal.py, embedded over a small Python object store.

    Layout of the development:
    - outcomes of a Python computation (value, exception, fuel exhausted),
      Python lists with negative indexing, the object store with row and
      table objects;
    - the three source files, one module each, written over an interface
      for the reads and writes of the cells of [residual], with its
      instance on the store and its instance on the content of a table;
    - the notions the properties are stated with: nodes, square tables,
      paths along [parent], the net flow of a history of augmentations,
      the states of the main loop;
    - lemmas: fuel, simulation between the two instances, the search,
      the two walks, the main loop, the derivation of the edge flows;
    - the properties of the specification, C1 to C10. *)

From stdpp Require Import base tactics option list list_numbers.
From Stdlib Require Import ZArith Lia.

Local Open Scope Z_scope.

(** ** Outcomes *)

(** The exceptions the solver can raise. *)
Inductive exn := IndexError | TypeError.

(** A computation that only reads: a value, an exception, or a loop that
    was cut by the fuel of the model. *)
Inductive outcome (A : Type) :=
  | Ok (a : A)
  | Raise (e : exn)
  | OutOfFuel.
Arguments Ok {A} a.
Arguments Raise {A} e.
Arguments OutOfFuel {A}.

#[global] Instance outcome_ret : MRet outcome := λ A a, Ok a.
#[global] Instance outcome_bind : MBind outcome := λ A B f o,
  match o with
  | Ok a => f a
  | Raise e => Raise e
  | OutOfFuel => OutOfFuel
  end.

(** A computation that mutates a store of type [S]: an exception leaves
    the store as it was when it was raised. *)
Inductive run (St A : Type) :=
  | Done (s : St) (a : A)
  | Abort (s : St) (e : exn)
  | NoFuel.
Arguments Done {St A} s a.
Arguments Abort {St A} s e.
Arguments NoFuel {St A}.

(** A step that can raise but leaves the store [s] alone when it does:
    [x ←[s] o; k] continues with the value of [o], or aborts in [s]. *)
Definition in_store {St A B : Type} (s : St) (o : outcome A)
    (k : A → run St B) : run St B :=
  match o with
  | Ok a => k a
  | Raise e => Abort s e
  | OutOfFuel => NoFuel
  end.

Notation "x ←[ s ] o ; k" := (in_store s o (λ x, k))
  (at level 20, o at level 100, k at level 200, right associativity,
   format "x  ←[ s ]  o ;  '/' k").

(** ** Python numbers: integers and [float('inf')] *)

Inductive num := Int (z : Z) | Inf.

(** [min(path_flow, x)] for an integer [x]. *)
Definition num_min (a : num) (x : Z) : num :=
  match a with
  | Inf => Int x
  | Int z => Int (if x <? z then x else z)
  end.

(** [a + b] *)
Definition num_add (a b : num) : num :=
  match a, b with
  | Int x, Int y => Int (x + y)
  | _, _ => Inf
  end.

(** ** Python lists *)

(** The position an index denotes in a list of length [len]:
    [0 <= i < len] is itself, [-len <= i < 0] counts from the end,
    everything else is out of range. *)
Definition py_index (len : nat) (i : Z) : option nat :=
  if (0 <=? i) && (i <? Z.of_nat len) then Some (Z.to_nat i)
  else if (- Z.of_nat len <=? i) && (i <? 0) then Some (Z.to_nat (i + Z.of_nat len))
  else None.

(** [l[i]] *)
Definition py_get {A : Type} (l : list A) (i : Z) : outcome A :=
  match py_index (length l) i with
  | Some k =>
      match l !! k with
      | Some x => Ok x
      | None => Raise IndexError
      end
  | None => Raise IndexError
  end.

(** [l[i] = x] *)
Definition py_set {A : Type} (l : list A) (i : Z) (x : A) : outcome (list A) :=
  match py_index (length l) i with
  | Some k => Ok (<[k := x]> l)
  | None => Raise IndexError
  end.

(** [range(n)] *)
Definition range (n : nat) : list Z := seqZ 0 (Z.of_nat n).

(** ** The object store *)

Abbreviation loc := nat.

(** A list object holds integers (a row) or references to other list
    objects (a table); the empty table stands for the empty list. *)
Inductive obj :=
  | Row (cells : list Z)
  | Table (rows : list loc).

(** The store is a list of objects, a reference is a position in it and
    allocation appends. *)
Abbreviation heap := (list obj).

Definition alloc (h : heap) (o : obj) : heap * loc := (h ++ [o], length h).

(** ** Cell access on [residual] *)

(** [rd s u v] is the value of the expression [residual[u][v]] in store
    [s]; [wr s u v x] is the store after [residual[u][v] = x]. *)
Class Residual (St : Type) := {
  rd : St → Z → Z → outcome Z;
  wr : St → Z → Z → Z → outcome St
}.

(** The object a reference points to.  Python has no dangling
    references; a position outside the store is reported as a type
    error. *)
Definition deref (h : heap) (l : loc) : outcome obj :=
  match h !! l with
  | Some o => Ok o
  | None => Raise TypeError
  end.

(** [residual[u][v]] where [residual] is the list object at [t]: the item
    [u] of the table, then the item [v] of that row.  An item that is
    not an integer fails in the comparison or the arithmetic it is used
    in. *)
Definition heap_rd (t : loc) (h : heap) (u v : Z) : outcome Z :=
  o ← deref h t;
  match o with
  | Table rows =>
      r ← py_get rows u;
      o' ← deref h r;
      match o' with
      | Row cells => py_get cells v
      | Table rows' => _ ← py_get rows' v; Raise TypeError
      end
  | Row cells => _ ← py_get cells u; Raise TypeError
  end.

(** [residual[u][v] = x]: the row object is updated in place. *)
Definition heap_wr (t : loc) (h : heap) (u v x : Z) : outcome heap :=
  o ← deref h t;
  match o with
  | Table rows =>
      r ← py_get rows u;
      o' ← deref h r;
      match o' with
      | Row cells => cells' ← py_set cells v x; Ok (<[r := Row cells']> h)
      | Table _ => Raise TypeError
      end
  | Row _ => Raise TypeError
  end.

Definition heap_residual (t : loc) : Residual heap :=
  {| rd := heap_rd t; wr := heap_wr t |}.

(** The items of the list object [capacity] that [for row in capacity]
    iterates over.  The empty list has no items, whichever way it is
    represented; the items of a non-empty row are integers, on which
    [row[:]] fails. *)
Definition list_rows (o : obj) : outcome (list loc) :=
  match o with
  | Table rows => Ok rows
  | Row [] => Ok []
  | Row (_ :: _) => Raise TypeError
  end.

(** [[row[:] for row in capacity]]: every [row[:]] is a new list object
    with the items of [row]. *)
Fixpoint copy_rows (h : heap) (rows : list loc) : run heap (list loc) :=
  match rows with
  | [] => Done h []
  | row :: rows' =>
      o ←[h] deref h row;
      let (h1, l) := alloc h o in
      match copy_rows h1 rows' with
      | Done h2 ls => Done h2 (l :: ls)
      | r => r
      end
  end.

(** ** Tables as values *)

(** The content of a table whose rows are integer lists. *)
Abbreviation matrix := (list (list Z)).

(** [t[u][v]] *)
Definition mat_rd (m : matrix) (u v : Z) : outcome Z :=
  row ← py_get m u; py_get row v.

(** [t[u][v] = x] *)
Definition mat_wr (m : matrix) (u v x : Z) : outcome matrix :=
  row ← py_get m u; row' ← py_set row v x; py_set m u row'.

#[global] Instance matrix_residual : Residual matrix :=
  {| rd := mat_rd; wr := mat_wr |}.

(** The content of the table object at [t], when it is a table of rows. *)
Definition row_at (h : heap) (r : loc) : option (list Z) :=
  match h !! r with
  | Some (Row cells) => Some cells
  | _ => None
  end.

Definition table_at (h : heap) (t : loc) : option matrix :=
  match h !! t with
  | Some (Table rows) => mapM (row_at h) rows
  | _ => None
  end.

(** Result of the [for v in range(n)] loop of [bfs]: it returned [True]
    from inside the loop, or it ran to its end. *)
Inductive scan :=
  | Found (parent : list Z)
  | Next (parent queue : list Z).

(** ** code.py *)

Module Code.
Section Solver.
Context {St : Type} `{!Residual St}.
Variables (n : nat) (source sink : Z).

(** [for i in range(n): parent[i] = -1] *)
Fixpoint bfs_reset (idx : list Z) (parent : list Z) : outcome (list Z) :=
  match idx with
  | [] => Ok parent
  | i :: idx' => parent' ← py_set parent i (-1); bfs_reset idx' parent'
  end.

(** The body of [while queue], for the node [u] taken from the queue:
    [for v in range(n)] with the test
    [parent[v] == -1 and residual[u][v] > 0]. *)
Fixpoint bfs_for (residual : St) (u : Z) (vs : list Z)
    (parent queue : list Z) : outcome scan :=
  match vs with
  | [] => Ok (Next parent queue)
  | v :: vs' =>
      pv ← py_get parent v;
      if pv =? -1 then
        ruv ← rd residual u v;
        if 0 <? ruv then
          parent' ← py_set parent v u;
          let queue' := queue ++ [v] in
          if v =? sink then Ok (Found parent')
          else bfs_for residual u vs' parent' queue'
        else bfs_for residual u vs' parent queue
      else bfs_for residual u vs' parent queue
  end.

(** [while queue: u = queue.popleft(); ...] *)
Fixpoint bfs_while (fuel : nat) (residual : St)
    (parent queue : list Z) : outcome (bool * list Z) :=
  match fuel with
  | O => OutOfFuel
  | S fuel' =>
      match queue with
      | [] => Ok (false, parent)
      | u :: queue' =>
          r ← bfs_for residual u (range n) parent queue';
          match r with
          | Found parent' => Ok (true, parent')
          | Next parent' queue'' => bfs_while fuel' residual parent' queue''
          end
      end
  end.

(** [bfs()]: the closure reads [residual] and updates [parent]; its
    result is the returned boolean and the new [parent]. *)
Definition bfs (fuel : nat) (residual : St) (parent : list Z)
    : outcome (bool * list Z) :=
  parent0 ← bfs_reset (range n) parent;
  let queue := [source] in
  parent1 ← py_set parent0 source source;
  bfs_while fuel residual parent1 queue.

(** The first [while v != source] loop: the bottleneck of the path. *)
Fixpoint bottleneck (fuel : nat) (residual : St) (parent : list Z)
    (v : Z) (path_flow : num) : outcome num :=
  match fuel with
  | O => OutOfFuel
  | S fuel' =>
      if v =? source then Ok path_flow
      else
        u ← py_get parent v;
        ruv ← rd residual u v;
        bottleneck fuel' residual parent u (num_min path_flow ruv)
  end.

(** [residual[u][v] -= path_flow; residual[v][u] += path_flow] *)
Definition push (residual : St) (u v path_flow : Z) : run St unit :=
  x ←[residual] rd residual u v;
  residual1 ←[residual] wr residual u v (x - path_flow);
  y ←[residual1] rd residual1 v u;
  residual2 ←[residual1] wr residual1 v u (y + path_flow);
  Done residual2 tt.

(** The second [while v != source] loop: the residual update. *)
Fixpoint augment (fuel : nat) (residual : St) (parent : list Z)
    (v : Z) (path_flow : Z) : run St unit :=
  match fuel with
  | O => NoFuel
  | S fuel' =>
      if v =? source then Done residual tt
      else
        u ←[residual] py_get parent v;
        match push residual u v path_flow with
        | Done residual' _ => augment fuel' residual' parent u path_flow
        | r => r
        end
  end.

(** One evaluation of [while bfs(): ...]: [None] when [bfs()] is false,
    otherwise the body is run and gives the new [parent] and
    [max_flow].  A [path_flow] that is still [float('inf')] after the
    first walk means that walk made no step ([sink == source]); the
    second walk tests the same condition and makes no step either. *)
Definition ek_body (fuel : nat) (residual : St) (parent : list Z)
    (max_flow : num) : run St (option (list Z * num)) :=
  r ←[residual] bfs fuel residual parent;
  match r with
  | (false, _) => Done residual None
  | (true, parent') =>
      path_flow ←[residual] bottleneck fuel residual parent' sink Inf;
      match path_flow with
      | Int pf =>
          match augment fuel residual parent' sink pf with
          | Done residual' _ =>
              Done residual' (Some (parent', num_add max_flow path_flow))
          | Abort s e => Abort s e
          | NoFuel => NoFuel
          end
      | Inf => Done residual (Some (parent', num_add max_flow path_flow))
      end
  end.

(** [while bfs(): ...], at most [k] evaluations of the condition. *)
Fixpoint ek_while (fuel k : nat) (residual : St) (parent : list Z)
    (max_flow : num) : run St num :=
  match k with
  | O => NoFuel
  | S k' =>
      match ek_body fuel residual parent max_flow with
      | Done residual' None => Done residual' max_flow
      | Done residual' (Some (parent', max_flow')) =>
          ek_while fuel k' residual' parent' max_flow'
      | Abort s e => Abort s e
      | NoFuel => NoFuel
      end
  end.
End Solver.

(** The first three statements of [edmonds_karp]: [n], the new list
    object [residual] and [parent = [-1] * n]. *)
Definition ek_init (h : heap) (capacity : loc)
    : run heap (nat * loc * list Z) :=
  o ←[h] deref h capacity;
  rows ←[h] list_rows o;
  let n := length rows in
  match copy_rows h rows with
  | Done h1 rows' =>
      let (h2, residual) := alloc h1 (Table rows') in
      let parent := replicate n (-1) in
      Done h2 (n, residual, parent)
  | Abort h1 e => Abort h1 e
  | NoFuel => NoFuel
  end.

(** [edmonds_karp(capacity, source, sink)] run in store [h] with the
    table object at [capacity]: the final store, the reference to the
    returned [residual] and [max_flow]. *)
Definition edmonds_karp (fuel : nat) (h : heap) (capacity : loc)
    (source sink : Z) : run heap (loc * num) :=
  match ek_init h capacity with
  | Done h2 (n, residual, parent) =>
      let max_flow := Int 0 in
      match ek_while (Residual0 := heap_residual residual)
              n source sink fuel fuel h2 parent max_flow with
      | Done h3 max_flow' => Done h3 (residual, max_flow')
      | Abort h3 e => Abort h3 e
      | NoFuel => NoFuel
      end
  | Abort h1 e => Abort h1 e
  | NoFuel => NoFuel
  end.
End Code.


(** ** codeNew.py *)

Module CodeNew.
Section Solver.
Context {St : Type} `{!Residual St}.
Variables (n : nat) (source sink : Z).

(** [for i in range(n): parent[i] = -1] *)
Fixpoint bfs_reset (idx : list Z) (parent : list Z) : outcome (list Z) :=
  match idx with
  | [] => Ok parent
  | i :: idx' => parent' ← py_set parent i (-1); bfs_reset idx' parent'
  end.

(** The body of [while queue], for the node [u] taken from the queue:
    [for v in range(n)] with the test
    [parent[v] == -1 and residual[u][v] > 0]. *)
Fixpoint bfs_for (residual : St) (u : Z) (vs : list Z)
    (parent queue : list Z) : outcome scan :=
  match vs with
  | [] => Ok (Next parent queue)
  | v :: vs' =>
      pv ← py_get parent v;
      if pv =? -1 then
        ruv ← rd residual u v;
        if 0 <? ruv then
          parent' ← py_set parent v u;
          let queue' := queue ++ [v] in
          if v =? sink then Ok (Found parent')
          else bfs_for residual u vs' parent' queue'
        else bfs_for residual u vs' parent queue
      else bfs_for residual u vs' parent queue
  end.

(** [while queue: u = queue.popleft(); ...] *)
Fixpoint bfs_while (fuel : nat) (residual : St)
    (parent queue : list Z) : outcome (bool * list Z) :=
  match fuel with
  | O => OutOfFuel
  | S fuel' =>
      match queue with
      | [] => Ok (false, parent)
      | u :: queue' =>
          r ← bfs_for residual u (range n) parent queue';
          match r with
          | Found parent' => Ok (true, parent')
          | Next parent' queue'' => bfs_while fuel' residual parent' queue''
          end
      end
  end.

(** [bfs()]: the closure reads [residual] and updates [parent]; its
    result is the returned boolean and the new [parent]. *)
Definition bfs (fuel : nat) (residual : St) (parent : list Z)
    : outcome (bool * list Z) :=
  parent0 ← bfs_reset (range n) parent;
  let queue := [source] in
  parent1 ← py_set parent0 source source;
  bfs_while fuel residual parent1 queue.

(** The first [while v != source] loop: the bottleneck of the path. *)
Fixpoint bottleneck (fuel : nat) (residual : St) (parent : list Z)
    (v : Z) (path_flow : num) : outcome num :=
  match fuel with
  | O => OutOfFuel
  | S fuel' =>
      if v =? source then Ok path_flow
      else
        u ← py_get parent v;
        ruv ← rd residual u v;
        bottleneck fuel' residual parent u (num_min path_flow ruv)
  end.

(** [residual[u][v] -= path_flow; residual[v][u] += path_flow] *)
Definition push (residual : St) (u v path_flow : Z) : run St unit :=
  x ←[residual] rd residual u v;
  residual1 ←[residual] wr residual u v (x - path_flow);
  y ←[residual1] rd residual1 v u;
  residual2 ←[residual1] wr residual1 v u (y + path_flow);
  Done residual2 tt.

(** The second [while v != source] loop: the residual update. *)
Fixpoint augment (fuel : nat) (residual : St) (parent : list Z)
    (v : Z) (path_flow : Z) : run St unit :=
  match fuel with
  | O => NoFuel
  | S fuel' =>
      if v =? source then Done residual tt
      else
        u ←[residual] py_get parent v;
        match push residual u v path_flow with
        | Done residual' _ => augment fuel' residual' parent u path_flow
        | r => r
        end
  end.

(** One evaluation of [while bfs(): ...]: [None] when [bfs()] is false,
    otherwise the body is run and gives the new [parent] and
    [max_flow].  A [path_flow] that is still [float('inf')] after the
    first walk means that walk made no step ([sink == source]); the
    second walk tests the same condition and makes no step either. *)
Definition ek_body (fuel : nat) (residual : St) (parent : list Z)
    (max_flow : num) : run St (option (list Z * num)) :=
  r ←[residual] bfs fuel residual parent;
  match r with
  | (false, _) => Done residual None
  | (true, parent') =>
      path_flow ←[residual] bottleneck fuel residual parent' sink Inf;
      match path_flow with
      | Int pf =>
          match augment fuel residual parent' sink pf with
          | Done residual' _ =>
              Done residual' (Some (parent', num_add max_flow path_flow))
          | Abort s e => Abort s e
          | NoFuel => NoFuel
          end
      | Inf => Done residual (Some (parent', num_add max_flow path_flow))
      end
  end.

(** [while bfs(): ...], at most [k] evaluations of the condition. *)
Fixpoint ek_while (fuel k : nat) (residual : St) (parent : list Z)
    (max_flow : num) : run St num :=
  match k with
  | O => NoFuel
  | S k' =>
      match ek_body fuel residual parent max_flow with
      | Done residual' None => Done residual' max_flow
      | Done residual' (Some (parent', max_flow')) =>
          ek_while fuel k' residual' parent' max_flow'
      | Abort s e => Abort s e
      | NoFuel => NoFuel
      end
  end.
End Solver.

(** The first three statements of [edmonds_karp]: [n], the new list
    object [residual] and [parent = [-1] * n]. *)
Definition ek_init (h : heap) (capacity : loc)
    : run heap (nat * loc * list Z) :=
  o ←[h] deref h capacity;
  rows ←[h] list_rows o;
  let n := length rows in
  match copy_rows h rows with
  | Done h1 rows' =>
      let (h2, residual) := alloc h1 (Table rows') in
      let parent := replicate n (-1) in
      Done h2 (n, residual, parent)
  | Abort h1 e => Abort h1 e
  | NoFuel => NoFuel
  end.

(** [edmonds_karp(capacity, source, sink)] run in store [h] with the
    table object at [capacity]: the final store, the reference to the
    returned [residual] and [max_flow]. *)
Definition edmonds_karp (fuel : nat) (h : heap) (capacity : loc)
    (source sink : Z) : run heap (loc * num) :=
  match ek_init h capacity with
  | Done h2 (n, residual, parent) =>
      let max_flow := Int 0 in
      match ek_while (Residual0 := heap_residual residual)
              n source sink fuel fuel h2 parent max_flow with
      | Done h3 max_flow' => Done h3 (residual, max_flow')
      | Abort h3 e => Abort h3 e
      | NoFuel => NoFuel
      end
  | Abort h1 e => Abort h1 e
  | NoFuel => NoFuel
  end.

(** [compute_forward_flow(capacity, residual)], on the contents of the
    two tables; the result is the content of the new table
    [forward_flow]. *)
Section Flow.
Variables (capacity residual : matrix).

(** [for v in range(n)] *)
Fixpoint flow_for_v (u : Z) (vs : list Z) (forward_flow : matrix)
    : outcome matrix :=
  match vs with
  | [] => Ok forward_flow
  | v :: vs' =>
      c ← mat_rd capacity u v;
      if 0 <? c then
        r ← mat_rd residual u v;
        forward_flow' ← mat_wr forward_flow u v (Z.max 0 (c - r));
        flow_for_v u vs' forward_flow'
      else flow_for_v u vs' forward_flow
  end.

(** [for u in range(n)] *)
Fixpoint flow_for_u (n : nat) (us : list Z) (forward_flow : matrix)
    : outcome matrix :=
  match us with
  | [] => Ok forward_flow
  | u :: us' =>
      forward_flow' ← flow_for_v u (range n) forward_flow;
      flow_for_u n us' forward_flow'
  end.

Definition compute_forward_flow : outcome matrix :=
  let n := length capacity in
  let forward_flow := replicate n (replicate n 0) in
  flow_for_u n (range n) forward_flow.
End Flow.
End CodeNew.


(** ** codeFinal.py *)

Module CodeFinal.
Section Solver.
Context {St : Type} `{!Residual St}.
Variables (n : nat) (source sink : Z).

(** [for i in range(n): parent[i] = -1] *)
Fixpoint bfs_reset (idx : list Z) (parent : list Z) : outcome (list Z) :=
  match idx with
  | [] => Ok parent
  | i :: idx' => parent' ← py_set parent i (-1); bfs_reset idx' parent'
  end.

(** The body of [while queue], for the node [u] taken from the queue:
    [for v in range(n)] with the test
    [parent[v] == -1 and residual[u][v] > 0]. *)
Fixpoint bfs_for (residual : St) (u : Z) (vs : list Z)
    (parent queue : list Z) : outcome scan :=
  match vs with
  | [] => Ok (Next parent queue)
  | v :: vs' =>
      pv ← py_get parent v;
      if pv =? -1 then
        ruv ← rd residual u v;
        if 0 <? ruv then
          parent' ← py_set parent v u;
          let queue' := queue ++ [v] in
          if v =? sink then Ok (Found parent')
          else bfs_for residual u vs' parent' queue'
        else bfs_for residual u vs' parent queue
      else bfs_for residual u vs' parent queue
  end.

(** [while queue: u = queue.popleft(); ...] *)
Fixpoint bfs_while (fuel : nat) (residual : St)
    (parent queue : list Z) : outcome (bool * list Z) :=
  match fuel with
  | O => OutOfFuel
  | S fuel' =>
      match queue with
      | [] => Ok (false, parent)
      | u :: queue' =>
          r ← bfs_for residual u (range n) parent queue';
          match r with
          | Found parent' => Ok (true, parent')
          | Next parent' queue'' => bfs_while fuel' residual parent' queue''
          end
      end
  end.

(** [bfs()]: the closure reads [residual] and updates [parent]; its
    result is the returned boolean and the new [parent]. *)
Definition bfs (fuel : nat) (residual : St) (parent : list Z)
    : outcome (bool * list Z) :=
  parent0 ← bfs_reset (range n) parent;
  let queue := [source] in
  parent1 ← py_set parent0 source source;
  bfs_while fuel residual parent1 queue.

(** The first [while v != source] loop: the bottleneck of the path. *)
Fixpoint bottleneck (fuel : nat) (residual : St) (parent : list Z)
    (v : Z) (path_flow : num) : outcome num :=
  match fuel with
  | O => OutOfFuel
  | S fuel' =>
      if v =? source then Ok path_flow
      else
        u ← py_get parent v;
        ruv ← rd residual u v;
        bottleneck fuel' residual parent u (num_min path_flow ruv)
  end.

(** [residual[u][v] -= path_flow; residual[v][u] += path_flow] *)
Definition push (residual : St) (u v path_flow : Z) : run St unit :=
  x ←[residual] rd residual u v;
  residual1 ←[residual] wr residual u v (x - path_flow);
  y ←[residual1] rd residual1 v u;
  residual2 ←[residual1] wr residual1 v u (y + path_flow);
  Done residual2 tt.

(** The second [while v != source] loop: the residual update. *)
Fixpoint augment (fuel : nat) (residual : St) (parent : list Z)
    (v : Z) (path_flow : Z) : run St unit :=
  match fuel with
  | O => NoFuel
  | S fuel' =>
      if v =? source then Done residual tt
      else
        u ←[residual] py_get parent v;
        match push residual u v path_flow with
        | Done residual' _ => augment fuel' residual' parent u path_flow
        | r => r
        end
  end.

(** One evaluation of [while bfs(): ...]: [None] when [bfs()] is false,
    otherwise the body is run and gives the new [parent] and
    [max_flow].  A [path_flow] that is still [float('inf')] after the
    first walk means that walk made no step ([sink == source]); the
    second walk tests the same condition and makes no step either. *)
Definition ek_body (fuel : nat) (residual : St) (parent : list Z)
    (max_flow : num) : run St (option (list Z * num)) :=
  r ←[residual] bfs fuel residual parent;
  match r with
  | (false, _) => Done residual None
  | (true, parent') =>
      path_flow ←[residual] bottleneck fuel residual parent' sink Inf;
      match path_flow with
      | Int pf =>
          match augment fuel residual parent' sink pf with
          | Done residual' _ =>
              Done residual' (Some (parent', num_add max_flow path_flow))
          | Abort s e => Abort s e
          | NoFuel => NoFuel
          end
      | Inf => Done residual (Some (parent', num_add max_flow path_flow))
      end
  end.

(** [while bfs(): ...], at most [k] evaluations of the condition. *)
Fixpoint ek_while (fuel k : nat) (residual : St) (parent : list Z)
    (max_flow : num) : run St num :=
  match k with
  | O => NoFuel
  | S k' =>
      match ek_body fuel residual parent max_flow with
      | Done residual' None => Done residual' max_flow
      | Done residual' (Some (parent', max_flow')) =>
          ek_while fuel k' residual' parent' max_flow'
      | Abort s e => Abort s e
      | NoFuel => NoFuel
      end
  end.
End Solver.

(** The first three statements of [edmonds_karp]: [n], the new list
    object [residual] and [parent = [-1] * n]. *)
Definition ek_init (h : heap) (capacity : loc)
    : run heap (nat * loc * list Z) :=
  o ←[h] deref h capacity;
  rows ←[h] list_rows o;
  let n := length rows in
  match copy_rows h rows with
  | Done h1 rows' =>
      let (h2, residual) := alloc h1 (Table rows') in
      let parent := replicate n (-1) in
      Done h2 (n, residual, parent)
  | Abort h1 e => Abort h1 e
  | NoFuel => NoFuel
  end.

(** [edmonds_karp(capacity, source, sink)] run in store [h] with the
    table object at [capacity]: the final store, the reference to the
    returned [residual] and [max_flow]. *)
Definition edmonds_karp (fuel : nat) (h : heap) (capacity : loc)
    (source sink : Z) : run heap (loc * num) :=
  match ek_init h capacity with
  | Done h2 (n, residual, parent) =>
      let max_flow := Int 0 in
      match ek_while (Residual0 := heap_residual residual)
              n source sink fuel fuel h2 parent max_flow with
      | Done h3 max_flow' => Done h3 (residual, max_flow')
      | Abort h3 e => Abort h3 e
      | NoFuel => NoFuel
      end
  | Abort h1 e => Abort h1 e
  | NoFuel => NoFuel
  end.

(** [compute_forward_flow(capacity, residual)], on the contents of the
    two tables; the result is the content of the new table [flow]. *)
Section Flow.
Variables (capacity residual : matrix).

(** [for v in range(n)] *)
Fixpoint flow_for_v (u : Z) (vs : list Z) (flow : matrix)
    : outcome matrix :=
  match vs with
  | [] => Ok flow
  | v :: vs' =>
      c ← mat_rd capacity u v;
      if 0 <? c then
        r ← mat_rd residual u v;
        flow' ← mat_wr flow u v (c - r);
        flow_for_v u vs' flow'
      else flow_for_v u vs' flow
  end.

(** [for u in range(n)] *)
Fixpoint flow_for_u (n : nat) (us : list Z) (flow : matrix)
    : outcome matrix :=
  match us with
  | [] => Ok flow
  | u :: us' =>
      flow' ← flow_for_v u (range n) flow;
      flow_for_u n us' flow'
  end.

Definition compute_forward_flow : outcome matrix :=
  let n := length capacity in
  let flow := replicate n (replicate n 0) in
  flow_for_u n (range n) flow.
End Flow.
End CodeFinal.


(** * Specification-level notions *)

(** A node of a network with [n] nodes. *)
Definition node (n : nat) (v : Z) : Prop := 0 ≤ v < Z.of_nat n.

(** An [n] by [n] table. *)
Definition square (n : nat) (m : matrix) : Prop :=
  length m = n ∧ Forall (λ row, length row = n) m.

(** The entry [m[u][v]] of a table, for nodes [u] and [v]. *)
Definition cell (m : matrix) (u v : Z) : Z :=
  (m !!! Z.to_nat u) !!! Z.to_nat v.

(** The table [m] with entry [(u, v)] replaced by [x]. *)
Definition upd (m : matrix) (u v x : Z) : matrix :=
  <[Z.to_nat u := <[Z.to_nat v := x]> (m !!! Z.to_nat u)]> m.

(** Sum of [f] over a list of nodes. *)
Definition sum_over (l : list Z) (f : Z → Z) : Z :=
  foldr (λ v acc, f v + acc) 0 l.

(** Sum of [f] over [range(n)]. *)
Definition sum_nodes (n : nat) (f : Z → Z) : Z := sum_over (range n) f.

(** Related outcomes of two computations. *)
Definition outcome_rel {A B : Type} (R : A → B → Prop)
    (o1 : outcome A) (o2 : outcome B) : Prop :=
  match o1, o2 with
  | Ok a, Ok b => R a b
  | Raise e1, Raise e2 => e1 = e2
  | OutOfFuel, OutOfFuel => True
  | _, _ => False
  end.

Definition run_rel {St1 St2 A : Type} (R : St1 → St2 → Prop)
    (r1 : run St1 A) (r2 : run St2 A) : Prop :=
  match r1, r2 with
  | Done s1 a1, Done s2 a2 => R s1 s2 ∧ a1 = a2
  | Abort s1 e1, Abort s2 e2 => R s1 s2 ∧ e1 = e2
  | NoFuel, NoFuel => True
  | _, _ => False
  end.

(** The table object at [t] has pairwise distinct rows with content [m]. *)
Definition models (t : loc) (h : heap) (m : matrix) : Prop :=
  ∃ rows, h !! t = Some (Table rows) ∧ NoDup rows ∧
          Forall2 (λ r cells, h !! r = Some (Row cells)) rows m.

(** Every object of [h0] is unchanged in [h], and the table at [t] and
    its rows are objects that [h0] does not have. *)
Definition extends (h0 : heap) (t : loc) (h : heap) : Prop :=
  (∀ l o, h0 !! l = Some o → h !! l = Some o) ∧
  ∃ rows, h !! t = Some (Table rows) ∧ (length h0 ≤ t)%nat ∧
          NoDup rows ∧ Forall (λ r, (length h0 ≤ r)%nat) rows.

(** The solver on the content of the tables. *)
Definition solve (fuel : nat) (m : matrix) (source sink : Z)
    : run matrix num :=
  Code.ek_while (length m) source sink fuel fuel m
    (replicate (length m) (-1)) (Int 0).

(** ** Paths and augmentations *)

(** The nodes visited by the two [while v != source] loops, which start
    at [v] and follow [parent]: [v], [parent[v]], ... up to [source]. *)
Inductive parent_path (source : Z) (parent : list Z) : Z → list Z → Prop :=
  | path_source : parent_path source parent source [source]
  | path_step v u p :
      v ≠ source → py_get parent v = Ok u →
      parent_path source parent u p →
      parent_path source parent v (v :: p).

(** The edges [(u, v)] with [u = parent[v]] along such a list of nodes. *)
Fixpoint edges (p : list Z) : list (Z * Z) :=
  match p with
  | v :: (u :: _) as p' => (u, v) :: edges p'
  | _ => []
  end.

(** 1 when the proposition holds, 0 otherwise. *)
Definition ind (P : Prop) `{!Decision P} : Z := if decide P then 1 else 0.

(** How often the edges [es] carry flow from [a] to [b], counted with
    sign: an edge [(a, b)] counts 1 and an edge [(b, a)] counts -1. *)
Fixpoint net (es : list (Z * Z)) (a b : Z) : Z :=
  match es with
  | [] => 0
  | (u, v) :: es' => ind ((a, b) = (u, v)) - ind ((a, b) = (v, u)) + net es' a b
  end.

(** The net flow committed to the edge from [u] to [v] by a history of
    augmentations, each one a path with the amount pushed along it. *)
Fixpoint flow_pushed (hist : list (list Z * Z)) (u v : Z) : Z :=
  match hist with
  | [] => 0
  | (p, path_flow) :: hist' =>
      path_flow * net (edges p) u v + flow_pushed hist' u v
  end.

(** The states of the loop [while bfs(): ...] of a run that starts in the
    store [residual0], each with the augmentations made so far. *)
Inductive solving {St : Type} `{!Residual St} (n : nat) (source sink : Z)
    (fuel : nat) (residual0 : St) (parent0 : list Z)
    : list (list Z * Z) → St → list Z → num → Prop :=
  | solving_start :
      solving n source sink fuel residual0 parent0 [] residual0 parent0 (Int 0)
  | solving_step hist residual parent max_flow residual' parent' max_flow'
        p path_flow :
      solving n source sink fuel residual0 parent0
        hist residual parent max_flow →
      Code.ek_body n source sink fuel residual parent max_flow
        = Done residual' (Some (parent', max_flow')) →
      parent_path source parent' sink p →
      Code.bottleneck source fuel residual parent' sink Inf
        = Ok (Int path_flow) →
      solving n source sink fuel residual0 parent0
        ((p, path_flow) :: hist) residual' parent' max_flow'.

(** A path of the search in the table [r]: it follows [parent] from a
    node to [source] through nodes that are pairwise distinct, along
    edges with positive entry in [r]. *)
Inductive chain (n : nat) (r : matrix) (source : Z) (parent : list Z)
    : Z → list Z → Prop :=
  | chain_source : chain n r source parent source [source]
  | chain_step v u p :
      node n v → v ≠ source → parent !! Z.to_nat v = Some u →
      0 < cell r u v → v ∉ p →
      chain n r source parent u p →
      chain n r source parent v (v :: p).

(** A node that the search has reached. *)
Definition discovered (parent : list Z) (v : Z) : Prop :=
  ∃ x, parent !! Z.to_nat v = Some x ∧ x ≠ -1.

(** The number of nodes the search has not reached. *)
Definition undiscovered (parent : list Z) : nat :=
  length (filter (λ x, x = -1) parent).

(** What the search maintains on [parent]: the source is its own
    parent, and every node reached has a path back to the source. *)
Record parent_inv (n : nat) (r : matrix) (source : Z) (parent : list Z)
    : Prop := {
  pi_length : length parent = n;
  pi_source : parent !! Z.to_nat source = Some source;
  pi_chain : ∀ v, node n v → discovered parent v →
             ∃ p, chain n r source parent v p
}.

(** The queue holds nodes that have been reached. *)
Definition queue_ok (n : nat) (parent queue : list Z) : Prop :=
  Forall (λ u, node n u ∧ discovered parent u) queue.

(** The bottleneck of a list of edges in [r], starting from [acc]. *)
Definition path_min (r : matrix) (es : list (Z * Z)) (acc : num) : num :=
  foldl (λ a e, num_min a (cell r e.1 e.2)) acc es.

(** [residual[u][v] -= path_flow; residual[v][u] += path_flow] on the
    content of the table. *)
Definition push_cell (pf : Z) (m : matrix) (e : Z * Z) : matrix :=
  let m1 := upd m e.1 e.2 (cell m e.1 e.2 - pf) in
  upd m1 e.2 e.1 (cell m1 e.2 e.1 + pf).

(** The content of the table after the update along the edges [es]. *)
Definition path_apply (pf : Z) (m : matrix) (es : list (Z * Z)) : matrix :=
  foldl (push_cell pf) m es.

(** What the main loop maintains, for the capacities [cap], the
    augmentations [hist] made so far, the table [r] and [max_flow]. *)
Record ek_inv (n : nat) (source sink : Z) (cap : matrix)
    (hist : list (list Z * Z)) (r : matrix) (max_flow : num) : Prop := {
  inv_square : square n r;
  inv_cell : ∀ a b, node n a → node n b →
    cell r a b = cell cap a b - flow_pushed hist a b;
  inv_low : ∀ a b, node n a → node n b →
    Z.min 0 (cell cap a b) ≤ cell r a b;
  inv_flow : ∃ z, max_flow = Int z ∧ Z.of_nat (length hist) ≤ z ∧
    ∀ a, node n a →
      sum_nodes n (flow_pushed hist a) = z * (ind (a = source) - ind (a = sink))
}.

(** Every entry of the table is non-negative. *)
Definition nonneg (m : matrix) : Prop := Forall (Forall (λ c, 0 ≤ c)) m.

(** A store that holds the table [m]: its rows, then the table object,
    which is at position [length m]. *)
Definition store_of (m : matrix) : heap :=
  (Row <$> m) ++ [Table (seq 0 (length m))].

(** A valid network: a square table of non-negative capacities with
    distinct nodes [source] and [sink]. *)
Definition valid_network (m : matrix) (source sink : Z) : Prop :=
  square (length m) m ∧ nonneg m ∧
  node (length m) source ∧ node (length m) sink ∧ source ≠ sink.

(** The iterations of the main loop and the steps of the inner loops
    that a run on the table [m] from [source] can need. *)
Definition fuel_bound (m : matrix) (source : Z) : nat :=
  (length m + 1 +
   Z.to_nat (sum_nodes (length m) (λ v, Z.max 0 (cell m source v))))%nat.

(** [v] can be reached from [u] in the table [r]: along edges between
    nodes whose entry in [r] is positive. *)
Inductive reach (n : nat) (r : matrix) (u : Z) : Z → Prop :=
  | reach_here : node n u → reach n r u u
  | reach_edge v w :
      reach n r u v → node n w → 0 < cell r v w → reach n r u w.

(** The search is done with [u]: every edge of [r] that leaves [u] ends
    in a node that has been reached. *)
Definition closed (n : nat) (r : matrix) (parent : list Z) (u : Z) : Prop :=
  ∀ v, node n v → 0 < cell r u v → discovered parent v.

(** The capacity of the cut given by the set [S] of nodes: the sum of
    [m[a][b]] over the nodes [a] in [S] and [b] outside it. *)
Definition cut_capacity (n : nat) (m : matrix) (S : Z → bool) : Z :=
  sum_nodes n (λ a,
    sum_nodes n (λ b, if S a && negb (S b) then cell m a b else 0)).

(** A flow in the network [m]: on every pair of nodes between 0 and the
    capacity, and conserved at every node but the source and the sink. *)
Record feasible_flow (n : nat) (m : matrix) (source sink : Z)
    (g : Z → Z → Z) : Prop := {
  flow_capacity : ∀ a b, node n a → node n b → 0 ≤ g a b ≤ cell m a b;
  flow_conserved : ∀ a, node n a → a ≠ source → a ≠ sink →
    sum_nodes n (λ b, g b a) = sum_nodes n (g a)
}.

(** The value of a flow: what leaves the source minus what enters it. *)
Definition flow_value (n : nat) (source : Z) (g : Z → Z → Z) : Z :=
  sum_nodes n (g source) - sum_nodes n (λ b, g b source).

(** The nodes that the last search of a run has reached. *)
Definition reached (parent : list Z) (a : Z) : bool :=
  negb (parent !!! Z.to_nat a =? -1).

(** A table with every negative entry replaced by 0. *)
Definition clamp_table (m : matrix) : matrix :=
  (λ row : list Z, Z.max 0 <$> row) <$> (m : list (list Z)).

(** The table [m] has an entry [m[u][v]]. *)
Definition has_cell (m : matrix) (u v : Z) : Prop :=
  ∃ row x, m !! Z.to_nat u = Some row ∧ row !! Z.to_nat v = Some x.

(** The entries that [compute_forward_flow] reads at [(u, v)] exist:
    [capacity[u][v]], and [residual[u][v]] when the capacity is
    positive. *)
Definition flow_reads (capacity residual : matrix) (u v : Z) : Prop :=
  has_cell capacity u v ∧ (0 < cell capacity u v → has_cell residual u v).

(** The path that [parent] holds from the source to [v] has [d]
    edges. *)
Definition level (n : nat) (r : matrix) (source : Z) (parent : list Z)
    (v : Z) (d : nat) : Prop :=
  ∃ p, chain n r source parent v p ∧ length p = S d.

(** A walk of [k] edges from [u], between nodes and along edges with a
    positive entry in [r]. *)
Inductive walk (n : nat) (r : matrix) (u : Z) : Z → nat → Prop :=
  | walk_here : node n u → walk n r u u 0
  | walk_edge v w k :
      walk n r u v k → node n w → 0 < cell r v w → walk n r u w (S k).

(** The queue of the search holds nodes of one level, then nodes of the
    next one, and no node has been reached at a level beyond these. *)
Definition layered (n : nat) (r : matrix) (source : Z)
    (parent queue : list Z) : Prop :=
  ∃ d l1 l2, queue = l1 ++ l2 ∧
    Forall (λ a, level n r source parent a d) l1 ∧
    Forall (λ a, level n r source parent a (S d)) l2 ∧
    (∀ w dw, level n r source parent w dw → (dw ≤ S d)%nat) ∧
    (l1 = [] → l2 = []).

(** What the loop [while queue] maintains. *)
Record bfs_inv (n : nat) (r : matrix) (source : Z)
    (parent queue : list Z) : Prop := {
  bi_parent : parent_inv n r source parent;
  bi_queue : queue_ok n parent queue;
  bi_closed : ∀ a, node n a → discovered parent a →
    a ∈ queue ∨
    ∀ b, node n b → 0 < cell r a b →
      ∃ da db, level n r source parent a da ∧
               level n r source parent b db ∧ (db ≤ S da)%nat;
  bi_layered : layered n r source parent queue
}.

(** ** Networks of the examples *)

(** The network with the single edge from node 0 to node 1, of
    capacity 2. *)
Definition tiny : matrix := [[0; 2]; [0; 0]].

(** Scenario 1 of the specification: nodes [s, v1, v2, v3, t] with the
    capacities [s→v1=16, s→v2=13, v1→v2=10, v1→v3=12, v2→v1=4,
    v2→t=14, v3→v2=9, v3→t=20]. *)
Definition scenario1 : matrix :=
  [ [0; 16; 13; 0; 0];
    [0; 0; 10; 12; 0];
    [0; 4; 0; 0; 14];
    [0; 0; 9; 0; 20];
    [0; 0; 0; 0; 0] ].

(** A network with a pair of opposite edges: [0→2=5], [2→1=5],
    [1→3=5] and [1→2=3]. *)
Definition opposite_edges : matrix :=
  [ [0; 0; 5; 0];
    [0; 0; 3; 5];
    [0; 5; 0; 0];
    [0; 0; 0; 0] ].

(** * Python lists *)

Section PyLists.
Context {A : Type}.
Implicit Types (l : list A) (i : Z).

Lemma py_index_nonneg len i :
  0 ≤ i < Z.of_nat len → py_index len i = Some (Z.to_nat i).
Proof.
  intros Hi. unfold py_index.
  destruct (Z.leb_spec 0 i); [|lia].
  destruct (Z.ltb_spec i (Z.of_nat len)); [done|lia].
Qed.

Lemma py_index_lt len i k : py_index len i = Some k → (k < len)%nat.
Proof.
  unfold py_index.
  destruct (Z.leb_spec 0 i), (Z.ltb_spec i (Z.of_nat len)),
    (Z.leb_spec (- Z.of_nat len) i), (Z.ltb_spec i 0);
    simpl; intros [= <-]; lia.
Qed.

Lemma py_index_out len i :
  i < - Z.of_nat len ∨ Z.of_nat len ≤ i → py_index len i = None.
Proof.
  intros Hi. unfold py_index.
  destruct (Z.leb_spec 0 i), (Z.ltb_spec i (Z.of_nat len)),
    (Z.leb_spec (- Z.of_nat len) i), (Z.ltb_spec i 0); simpl; (done || lia).
Qed.

Lemma py_get_node l i :
  0 ≤ i < Z.of_nat (length l) →
  ∃ x, l !! Z.to_nat i = Some x ∧ py_get l i = Ok x.
Proof.
  intros Hi. unfold py_get. rewrite py_index_nonneg by done.
  destruct (lookup_lt_is_Some_2 l (Z.to_nat i)) as [x Hx]; [lia|].
  exists x. by rewrite Hx.
Qed.

Lemma py_get_lookup l i x :
  0 ≤ i → l !! Z.to_nat i = Some x → py_get l i = Ok x.
Proof.
  intros Hi Hx. pose proof (lookup_lt_Some _ _ _ Hx).
  destruct (py_get_node l i) as (y & Hy & ->); [lia|]. congruence.
Qed.

Lemma py_get_out l i e :
  i < - Z.of_nat (length l) ∨ Z.of_nat (length l) ≤ i →
  py_get l i = Raise e → e = IndexError.
Proof. intros Hi. unfold py_get. rewrite py_index_out by done. congruence. Qed.

Lemma py_set_node l i x :
  0 ≤ i < Z.of_nat (length l) → py_set l i x = Ok (<[Z.to_nat i := x]> l).
Proof. intros Hi. unfold py_set. by rewrite py_index_nonneg. Qed.

Lemma py_set_out l i x :
  i < - Z.of_nat (length l) ∨ Z.of_nat (length l) ≤ i →
  py_set l i x = Raise IndexError.
Proof. intros Hi. unfold py_set. by rewrite py_index_out. Qed.

Lemma py_set_length l i x l' : py_set l i x = Ok l' → length l' = length l.
Proof.
  unfold py_set. destruct (py_index _ _); intros [= <-].
  apply length_insert.
Qed.
End PyLists.

Lemma elem_of_range n v : v ∈ range n ↔ node n v.
Proof. unfold range, node. rewrite elem_of_seqZ. lia. Qed.

Lemma range_S n : range (S n) = range n ++ [Z.of_nat n].
Proof.
  unfold range. by rewrite seqZ_S.
Qed.

Lemma Forall_node_range n : Forall (node n) (range n).
Proof. apply Forall_forall. intros v. by rewrite elem_of_range. Qed.

(** * Tables as values: reads and writes at nodes *)

Section Matrix.
Variable n : nat.
Implicit Types (m : matrix) (u v a b x : Z).

Lemma square_row m u :
  square n m → node n u → length (m !!! Z.to_nat u) = n.
Proof.
  intros [Hlen Hrows] Hu.
  destruct (lookup_lt_is_Some_2 m (Z.to_nat u)) as [row Hrow];
    [unfold node in Hu; lia|].
  rewrite (list_lookup_total_correct _ _ _ Hrow).
  by eapply Forall_lookup_1 in Hrows.
Qed.

Lemma square_lookup m u :
  square n m → node n u → m !! Z.to_nat u = Some (m !!! Z.to_nat u).
Proof.
  intros [Hlen _] Hu. apply list_lookup_lookup_total_lt.
  unfold node in Hu. lia.
Qed.

Lemma mat_rd_cell m u v :
  square n m → node n u → node n v → mat_rd m u v = Ok (cell m u v).
Proof.
  intros Hsq Hu Hv. unfold mat_rd, cell.
  rewrite (py_get_lookup m u (m !!! Z.to_nat u));
    [|apply Hu|by apply square_lookup].
  simpl. apply py_get_lookup; [apply Hv|].
  apply list_lookup_lookup_total_lt.
  rewrite square_row by done. unfold node in Hv. lia.
Qed.

Lemma mat_wr_upd m u v x :
  square n m → node n u → node n v → mat_wr m u v x = Ok (upd m u v x).
Proof.
  intros Hsq Hu Hv. unfold mat_wr, upd.
  rewrite (py_get_lookup m u (m !!! Z.to_nat u));
    [|apply Hu|by apply square_lookup].
  simpl. rewrite py_set_node by (rewrite square_row; done).
  simpl. apply py_set_node. destruct Hsq as [-> _]. apply Hu.
Qed.

Lemma square_upd m u v x : square n m → node n u → square n (upd m u v x).
Proof.
  intros Hsq Hu. pose proof (square_row m u Hsq Hu) as Hrow.
  destruct Hsq as [Hlen Hrows]. split.
  - unfold upd. by rewrite length_insert.
  - unfold upd. apply Forall_insert; [done|]. by rewrite length_insert.
Qed.

Lemma cell_upd_eq m u v x :
  square n m → node n u → node n v → cell (upd m u v x) u v = x.
Proof.
  intros Hsq Hu Hv. unfold cell, upd.
  rewrite list_lookup_total_insert_eq
    by (destruct Hsq as [-> _]; unfold node in Hu; lia).
  apply list_lookup_total_insert_eq.
  rewrite square_row by done. unfold node in Hv. lia.
Qed.

Lemma cell_upd_ne m u v x a b :
  node n u → node n v → node n a → node n b →
  (a, b) ≠ (u, v) → cell (upd m u v x) a b = cell m a b.
Proof.
  intros Hu Hv Ha Hb Hne. unfold cell, upd, node in *.
  destruct (decide (a = u)) as [->|Hau].
  - destruct (decide (Z.to_nat u < length m)%nat) as [Hlt|Hge].
    + rewrite list_lookup_total_insert_eq by done.
      apply list_lookup_total_insert_ne. intros Heq.
      apply Hne. f_equal. lia.
    + by rewrite list_insert_ge by lia.
  - rewrite list_lookup_total_insert_ne; [done|lia].
Qed.

Lemma cell_upd m u v x a b :
  square n m → node n u → node n v → node n a → node n b →
  cell (upd m u v x) a b = if decide ((a, b) = (u, v)) then x else cell m a b.
Proof.
  intros. case_decide as Heq.
  - injection Heq as -> ->. by apply cell_upd_eq.
  - by apply cell_upd_ne.
Qed.
End Matrix.

(** * The loops do not depend on the fuel they are given *)

Section Fuel.
Context {St : Type} `{!Residual St}.
Variables (n : nat) (source sink : Z).
Implicit Types (fuel k : nat) (residual : St) (parent queue : list Z).

Lemma bfs_while_fuel fuel fuel' residual parent queue :
  (fuel ≤ fuel')%nat →
  Code.bfs_while n sink fuel residual parent queue ≠ OutOfFuel →
  Code.bfs_while n sink fuel' residual parent queue
  = Code.bfs_while n sink fuel residual parent queue.
Proof.
  revert fuel' parent queue.
  induction fuel as [|fuel IH]; intros fuel' parent queue Hle Hterm;
    [done|].
  destruct fuel' as [|fuel']; [lia|]. simpl in *.
  destruct queue as [|u queue]; [done|].
  destruct (Code.bfs_for sink residual u (range n) parent queue)
    as [[parent'|parent' queue']| |]; simpl in *; try done.
  apply IH; [lia|done].
Qed.

Lemma bfs_fuel fuel fuel' residual parent :
  (fuel ≤ fuel')%nat →
  Code.bfs n source sink fuel residual parent ≠ OutOfFuel →
  Code.bfs n source sink fuel' residual parent
  = Code.bfs n source sink fuel residual parent.
Proof.
  unfold Code.bfs. intros Hle Hterm.
  destruct (Code.bfs_reset (range n) parent) as [parent0| |];
    simpl in *; try done.
  destruct (py_set parent0 source source) as [parent1| |];
    simpl in *; try done.
  by apply bfs_while_fuel.
Qed.

Lemma bottleneck_fuel fuel fuel' residual parent v path_flow :
  (fuel ≤ fuel')%nat →
  Code.bottleneck source fuel residual parent v path_flow ≠ OutOfFuel →
  Code.bottleneck source fuel' residual parent v path_flow
  = Code.bottleneck source fuel residual parent v path_flow.
Proof.
  revert fuel' v path_flow.
  induction fuel as [|fuel IH]; intros fuel' v path_flow Hle Hterm;
    [done|].
  destruct fuel' as [|fuel']; [lia|]. simpl in *.
  destruct (v =? source); [done|].
  destruct (py_get parent v) as [u| |]; simpl in *; try done.
  destruct (rd residual u v) as [ruv| |]; simpl in *; try done.
  apply IH; [lia|done].
Qed.

Lemma augment_fuel fuel fuel' residual parent v path_flow :
  (fuel ≤ fuel')%nat →
  Code.augment source fuel residual parent v path_flow ≠ NoFuel →
  Code.augment source fuel' residual parent v path_flow
  = Code.augment source fuel residual parent v path_flow.
Proof.
  revert fuel' residual v.
  induction fuel as [|fuel IH]; intros fuel' residual v Hle Hterm;
    [done|].
  destruct fuel' as [|fuel']; [lia|]. simpl in *.
  destruct (v =? source); [done|].
  destruct (py_get parent v) as [u| |]; simpl in *; try done.
  destruct (Code.push residual u v path_flow) as [residual' []| |];
    try done.
  apply IH; [lia|done].
Qed.

Lemma ek_body_fuel fuel fuel' residual parent max_flow :
  (fuel ≤ fuel')%nat →
  Code.ek_body n source sink fuel residual parent max_flow ≠ NoFuel →
  Code.ek_body n source sink fuel' residual parent max_flow
  = Code.ek_body n source sink fuel residual parent max_flow.
Proof.
  unfold Code.ek_body. intros Hle Hterm.
  rewrite (bfs_fuel fuel fuel') by
    (try done; intros Hb; by rewrite Hb in Hterm).
  destruct (Code.bfs n source sink fuel residual parent)
    as [[[] parent']| |]; simpl in *; try done.
  rewrite (bottleneck_fuel fuel fuel') by
    (try done; intros Hb; by rewrite Hb in Hterm).
  destruct (Code.bottleneck source fuel residual parent' sink Inf)
    as [[pf|]| |]; simpl in *; try done.
  rewrite (augment_fuel fuel fuel') by
    (try done; intros Hb; by rewrite Hb in Hterm).
  done.
Qed.

Lemma ek_while_fuel fuel fuel' k k' residual parent max_flow :
  (fuel ≤ fuel')%nat → (k ≤ k')%nat →
  Code.ek_while n source sink fuel k residual parent max_flow ≠ NoFuel →
  Code.ek_while n source sink fuel' k' residual parent max_flow
  = Code.ek_while n source sink fuel k residual parent max_flow.
Proof.
  intros Hfuel. revert k' residual parent max_flow.
  induction k as [|k IH]; intros k' residual parent max_flow Hle Hterm;
    [done|].
  destruct k' as [|k']; [lia|]. simpl in *.
  rewrite (ek_body_fuel fuel fuel') by
    (try done; intros Hb; by rewrite Hb in Hterm).
  destruct (Code.ek_body n source sink fuel residual parent max_flow)
    as [residual' [[parent' max_flow']|]| |]; try done.
  apply IH; [lia|done].
Qed.
End Fuel.

(** * The bottleneck is an integer as soon as the walk makes a step *)

Section Bottleneck.
Context {St : Type} `{!Residual St}.
Variable source : Z.

Lemma bottleneck_Int fuel (residual : St) parent v a x :
  Code.bottleneck source fuel residual parent v (Int a) = Ok x →
  ∃ z, x = Int z.
Proof.
  revert v a. induction fuel as [|fuel IH]; intros v a; [done|]. simpl.
  destruct (v =? source); [intros [= <-]; eauto|].
  destruct (py_get parent v) as [u| |]; simpl; try done.
  destruct (rd residual u v) as [ruv| |]; simpl; try done.
  apply IH.
Qed.

(** [path_flow] is still [float('inf')] after the first walk only when
    that walk made no step, and then the second walk makes none. *)
Lemma bottleneck_Inf fuel (residual : St) parent v :
  Code.bottleneck source fuel residual parent v Inf = Ok Inf →
  v = source ∧
  ∀ path_flow, Code.augment source fuel residual parent v path_flow
               = Done residual tt.
Proof.
  destruct fuel as [|fuel]; [done|]. simpl.
  destruct (Z.eqb_spec v source) as [->|Hne]; [done|].
  destruct (py_get parent v) as [u| |]; simpl; try done.
  destruct (rd residual u v) as [ruv| |]; simpl; try done.
  by intros [z [=]]%bottleneck_Int.
Qed.
End Bottleneck.

(** * Simulation between two implementations of the cell accesses *)

Section Simulation.
Context {St1 St2 : Type} (R1 : Residual St1) (R2 : Residual St2).
Variable R : St1 → St2 → Prop.
Hypothesis rd_sim : ∀ s1 s2 u v, R s1 s2 → rd s1 u v = rd s2 u v.
Hypothesis wr_sim : ∀ s1 s2 u v x,
  R s1 s2 → outcome_rel R (wr s1 u v x) (wr s2 u v x).
Variables (n : nat) (source sink : Z).

Lemma bfs_for_sim s1 s2 u vs parent queue :
  R s1 s2 →
  Code.bfs_for sink s1 u vs parent queue
  = Code.bfs_for sink s2 u vs parent queue.
Proof.
  intros HR. revert parent queue.
  induction vs as [|v vs IH]; intros parent queue; [done|]. simpl.
  destruct (py_get parent v) as [pv| |]; simpl; try done.
  destruct (pv =? -1); [|done].
  rewrite (rd_sim s1 s2) by done.
  destruct (rd s2 u v) as [ruv| |]; simpl; try done.
  destruct (0 <? ruv); [|done].
  destruct (py_set parent v u) as [parent'| |]; simpl; try done.
  by destruct (v =? sink).
Qed.

Lemma bfs_while_sim fuel s1 s2 parent queue :
  R s1 s2 →
  Code.bfs_while n sink fuel s1 parent queue
  = Code.bfs_while n sink fuel s2 parent queue.
Proof.
  intros HR. revert parent queue.
  induction fuel as [|fuel IH]; intros parent queue; [done|]. simpl.
  destruct queue as [|u queue]; [done|].
  rewrite (bfs_for_sim s1 s2) by done.
  destruct (Code.bfs_for sink s2 u (range n) parent queue)
    as [[parent'|parent' queue']| |]; simpl; done.
Qed.

Lemma bfs_sim fuel s1 s2 parent :
  R s1 s2 →
  Code.bfs n source sink fuel s1 parent
  = Code.bfs n source sink fuel s2 parent.
Proof.
  intros HR. unfold Code.bfs.
  destruct (Code.bfs_reset (range n) parent) as [parent0| |];
    simpl; try done.
  destruct (py_set parent0 source source) as [parent1| |];
    simpl; try done.
  by apply bfs_while_sim.
Qed.

Lemma bottleneck_sim fuel s1 s2 parent v path_flow :
  R s1 s2 →
  Code.bottleneck source fuel s1 parent v path_flow
  = Code.bottleneck source fuel s2 parent v path_flow.
Proof.
  intros HR. revert v path_flow.
  induction fuel as [|fuel IH]; intros v path_flow; [done|]. simpl.
  destruct (v =? source); [done|].
  destruct (py_get parent v) as [u| |]; simpl; try done.
  rewrite (rd_sim s1 s2) by done.
  destruct (rd s2 u v) as [ruv| |]; simpl; done.
Qed.

Lemma push_sim s1 s2 u v path_flow :
  R s1 s2 →
  run_rel R (Code.push s1 u v path_flow) (Code.push s2 u v path_flow).
Proof.
  intros HR. unfold Code.push.
  rewrite (rd_sim s1 s2) by done.
  destruct (rd s2 u v) as [x| |]; simpl; try done.
  pose proof (wr_sim s1 s2 u v (x - path_flow) HR) as Hw.
  destruct (wr s1 u v (x - path_flow)) as [s1'| |],
    (wr s2 u v (x - path_flow)) as [s2'| |]; simpl in *; try done.
  rewrite (rd_sim s1' s2') by done.
  destruct (rd s2' v u) as [y| |]; simpl; try done.
  pose proof (wr_sim s1' s2' v u (y + path_flow) Hw) as Hw'.
  destruct (wr s1' v u (y + path_flow)) as [s1''| |],
    (wr s2' v u (y + path_flow)) as [s2''| |]; simpl in *; done.
Qed.

Lemma augment_sim fuel s1 s2 parent v path_flow :
  R s1 s2 →
  run_rel R (Code.augment source fuel s1 parent v path_flow)
            (Code.augment source fuel s2 parent v path_flow).
Proof.
  revert s1 s2 v.
  induction fuel as [|fuel IH]; intros s1 s2 v HR; [done|]. simpl.
  destruct (v =? source); [done|].
  destruct (py_get parent v) as [u| |]; simpl; try done.
  generalize (push_sim s1 s2 u v path_flow HR).
  destruct (Code.push s1 u v path_flow) as [s1' []|s1' e1|],
    (Code.push s2 u v path_flow) as [s2' []|s2' e2|];
    simpl; try done.
  intros [HR' _]. by apply IH.
Qed.

Lemma ek_body_sim fuel s1 s2 parent max_flow :
  R s1 s2 →
  run_rel R (Code.ek_body n source sink fuel s1 parent max_flow)
            (Code.ek_body n source sink fuel s2 parent max_flow).
Proof.
  intros HR. unfold Code.ek_body.
  rewrite (bfs_sim fuel s1 s2) by done.
  destruct (Code.bfs n source sink fuel s2 parent)
    as [[[] parent']| |]; simpl; try done.
  rewrite (bottleneck_sim fuel s1 s2) by done.
  destruct (Code.bottleneck source fuel s2 parent' sink Inf)
    as [[pf|]| |]; simpl; try done.
  generalize (augment_sim fuel s1 s2 parent' sink pf HR).
  destruct (Code.augment source fuel s1 parent' sink pf)
      as [s1' []|s1' e1|],
    (Code.augment source fuel s2 parent' sink pf)
      as [s2' []|s2' e2|]; simpl; try done.
  intros [HR' _]. by split.
Qed.

Lemma ek_while_sim fuel k s1 s2 parent max_flow :
  R s1 s2 →
  run_rel R (Code.ek_while n source sink fuel k s1 parent max_flow)
            (Code.ek_while n source sink fuel k s2 parent max_flow).
Proof.
  revert s1 s2 parent max_flow.
  induction k as [|k IH]; intros s1 s2 parent max_flow HR; [done|].
  simpl.
  generalize (ek_body_sim fuel s1 s2 parent max_flow HR).
  destruct (Code.ek_body n source sink fuel s1 parent max_flow)
      as [s1' [[p1 m1]|]|s1' e1|],
    (Code.ek_body n source sink fuel s2 parent max_flow)
      as [s2' [[p2 m2]|]|s2' e2|]; simpl; try done;
    intros [HR' Heq]; try done.
  injection Heq as <- <-. by apply IH.
Qed.
End Simulation.

(** * The store and the content of the table [residual] *)

Lemma py_get_Forall2 {A B : Type} (P : A → B → Prop) l1 l2 i :
  Forall2 P l1 l2 → outcome_rel P (py_get l1 i) (py_get l2 i).
Proof.
  intros HP. unfold py_get.
  rewrite <-(Forall2_length _ _ _ HP).
  destruct (py_index (length l1) i) as [k|] eqn:Hk; [|done].
  apply py_index_lt in Hk.
  destruct (lookup_lt_is_Some_2 l1 k Hk) as [x Hx].
  destruct (Forall2_lookup_l _ _ _ _ _ HP Hx) as (y & Hy & Hxy).
  by rewrite Hx, Hy.
Qed.

Lemma table_at_models h t m :
  table_at h t = Some m ↔
  ∃ rows, h !! t = Some (Table rows) ∧
          Forall2 (λ r cells, h !! r = Some (Row cells)) rows m.
Proof.
  unfold table_at. split.
  - destruct (h !! t) as [[cells|rows]|]; try done.
    rewrite mapM_Some. intros HF. exists rows. split; [done|].
    eapply Forall2_impl; [done|]. intros r cells. unfold row_at.
    by destruct (h !! r) as [[?|?]|]; intros [= ->].
  - intros (rows & -> & HF). apply mapM_Some.
    eapply Forall2_impl; [done|]. intros r cells. unfold row_at.
    by intros ->.
Qed.

Lemma models_table_at t h m : models t h m → table_at h t = Some m.
Proof. intros (rows & ? & _ & ?). apply table_at_models. eauto. Qed.

Lemma heap_rd_models t h m u v :
  models t h m → heap_rd t h u v = mat_rd m u v.
Proof.
  intros (rows & Ht & _ & HF). unfold heap_rd, mat_rd, deref.
  rewrite Ht. simpl.
  generalize (py_get_Forall2 _ rows m u HF).
  destruct (py_get rows u) as [r| |], (py_get m u) as [cells| |];
    simpl; try done; [|congruence].
  by intros ->.
Qed.

Lemma heap_wr_models t h m u v x :
  models t h m → outcome_rel (models t) (heap_wr t h u v x) (mat_wr m u v x).
Proof.
  intros (rows & Ht & Hnd & HF). unfold heap_wr, mat_wr, deref.
  rewrite Ht. simpl. unfold py_get.
  rewrite <-(Forall2_length _ _ _ HF).
  destruct (py_index (length rows) u) as [k|] eqn:Hk; [|done].
  pose proof (py_index_lt _ _ _ Hk) as Hlt.
  destruct (lookup_lt_is_Some_2 rows k Hlt) as [r Hr].
  destruct (Forall2_lookup_l _ _ _ _ _ HF Hr) as (cells & Hcells & Hrow).
  rewrite Hr, Hcells. simpl. rewrite Hrow. simpl.
  destruct (py_set cells v x) as [cells'| |] eqn:Hset; simpl; try done.
  unfold py_set. rewrite <-(Forall2_length _ _ _ HF), Hk. simpl.
  pose proof (lookup_lt_Some _ _ _ Hrow) as Hr_lt.
  assert (t ≠ r) as Htr by (intros ->; congruence).
  simpl. exists rows. split_and!; [by rewrite list_lookup_insert_ne| done |].
  apply Forall2_same_length_lookup_2.
  { rewrite length_insert. by eapply Forall2_length. }
  intros j r' cells'' Hr' Hc.
  destruct (decide (j = k)) as [->|Hjk].
  - rewrite list_lookup_insert_eq in Hc
      by (rewrite <-(Forall2_length _ _ _ HF); done).
    replace r' with r by congruence. injection Hc as <-.
    by rewrite list_lookup_insert_eq.
  - rewrite list_lookup_insert_ne in Hc by done.
    rewrite list_lookup_insert_ne.
    + exact (Forall2_lookup_lr _ _ _ j _ _ HF Hr' Hc).
    + intros <-. apply Hjk. by eapply NoDup_lookup.
Qed.

Lemma heap_wr_extends h0 t h u v x h' :
  extends h0 t h → heap_wr t h u v x = Ok h' → extends h0 t h'.
Proof.
  intros (Hold & rows & Ht & Hfresh & Hnd & Hrows).
  unfold heap_wr, deref. rewrite Ht. simpl.
  destruct (py_get rows u) as [r| |] eqn:Hget; simpl; try done.
  assert (r ∈ rows) as Hr.
  { revert Hget. unfold py_get.
    destruct (py_index _ _) as [k|]; [|done].
    destruct (rows !! k) as [r'|] eqn:Hk; intros [= <-].
    by eapply list_elem_of_lookup_2. }
  destruct (h !! r) as [[cells|?]|] eqn:Hrow; simpl; try done.
  destruct (py_set cells v x) as [cells'| |]; simpl; intros [= <-].
  rewrite Forall_forall in Hrows. pose proof (Hrows r Hr) as Hge.
  split.
  - intros l o Hl. pose proof (lookup_lt_Some _ _ _ Hl).
    rewrite list_lookup_insert_ne by lia. by apply Hold.
  - exists rows. split_and!; try done; [|by apply Forall_forall].
    rewrite list_lookup_insert_ne; [done|]. intros <-. congruence.
Qed.

(** The copy of the rows. *)
Lemma copy_rows_spec h rows :
  match copy_rows h rows with
  | Done h1 rows' =>
      ∃ objs, h1 = h ++ objs ∧ length objs = length rows ∧
              rows' = seq (length h) (length rows)
  | Abort h1 e => ∃ objs, h1 = h ++ objs
  | NoFuel => False
  end.
Proof.
  revert h. induction rows as [|r rows IH]; intros h; simpl.
  { exists []. by rewrite app_nil_r. }
  unfold deref. destruct (h !! r) as [o|] eqn:Hr; simpl.
  2:{ exists []. by rewrite app_nil_r. }
  specialize (IH (h ++ [o])).
  destruct (copy_rows (h ++ [o]) rows) as [h1 rows'|h1 e|]; [| |done].
  - destruct IH as (objs & -> & Hlen & ->).
    exists (o :: objs). rewrite <-app_assoc. split_and!; try done.
    + simpl. by rewrite Hlen.
    + rewrite length_app. simpl.
      by replace (length h + 1)%nat with (S (length h)) by lia.
  - destruct IH as (objs & ->). exists (o :: objs). by rewrite <-app_assoc.
Qed.

Lemma copy_rows_valid h rows objs :
  Forall2 (λ r o, h !! r = Some o) rows objs →
  copy_rows h rows = Done (h ++ objs) (seq (length h) (length rows)).
Proof.
  revert h objs. induction rows as [|r rows IH]; intros h objs HF.
  { apply Forall2_nil_inv_l in HF as ->. simpl. by rewrite app_nil_r. }
  apply Forall2_cons_inv_l in HF as (o & objs' & Hr & HF & ->).
  simpl. unfold deref. rewrite Hr. simpl.
  rewrite (IH (h ++ [o]) objs').
  - rewrite <-app_assoc, length_app. simpl.
    by replace (length h + 1)%nat with (S (length h)) by lia.
  - eapply Forall2_impl; [done|]. intros r' o' Hr'.
    by apply lookup_app_l_Some.
Qed.

(** The state in which the loop starts. *)
Lemma ek_init_table h capacity m :
  table_at h capacity = Some m →
  ∃ h2,
    Code.ek_init h capacity
    = Done h2 (length m, (length h + length m)%nat,
               replicate (length m) (-1)) ∧
    models (length h + length m) h2 m ∧
    extends h (length h + length m) h2.
Proof.
  intros (rows & Ht & HF)%table_at_models.
  pose proof (Forall2_length _ _ _ HF) as Hlen.
  assert (Forall2 (λ r o, h !! r = Some o) rows (Row <$> m)) as HF'.
  { by apply Forall2_fmap_r. }
  exists ((h ++ (Row <$> m)) ++ [Table (seq (length h) (length rows))]).
  unfold Code.ek_init, deref. rewrite Ht. simpl.
  rewrite (copy_rows_valid _ _ _ HF'). unfold alloc.
  rewrite length_app, length_fmap, Hlen.
  assert (∀ k cells, m !! k = Some cells →
    ((h ++ (Row <$> m)) ++ [Table (seq (length h) (length m))])
      !! (length h + k)%nat = Some (Row cells)) as Hrows.
  { intros k cells Hk. rewrite lookup_app_l.
    - rewrite lookup_app_r by lia.
      replace (length h + k - length h)%nat with k by lia.
      by rewrite list_lookup_fmap, Hk.
    - rewrite length_app, length_fmap.
      apply lookup_lt_Some in Hk. lia. }
  assert (((h ++ (Row <$> m)) ++ [Table (seq (length h) (length m))])
      !! (length h + length m)%nat
      = Some (Table (seq (length h) (length m)))) as Htable.
  { rewrite lookup_app_r by (rewrite length_app, length_fmap; lia).
    rewrite length_app, length_fmap.
    by replace (length h + length m - (length h + length m))%nat
      with O by lia. }
  split_and!; [done| |].
  - exists (seq (length h) (length m)).
    split_and!; [done|apply NoDup_seq|].
    apply Forall2_same_length_lookup_2; [by rewrite length_seq|].
    intros k r cells Hr Hk. apply lookup_seq in Hr as [-> _].
    by apply Hrows.
  - split.
    + intros l o Hl. rewrite <-app_assoc. by apply lookup_app_l_Some.
    + exists (seq (length h) (length m)).
      split_and!; [done|lia|apply NoDup_seq|].
      apply Forall_forall. intros r Hr%elem_of_seq. lia.
Qed.

(** Without any assumption on the store: what exists stays as it is. *)
Lemma ek_init_extends h capacity :
  match Code.ek_init h capacity with
  | Done h2 (n, residual, parent) => extends h residual h2
  | Abort h1 e => ∀ l o, h !! l = Some o → h1 !! l = Some o
  | NoFuel => False
  end.
Proof.
  unfold Code.ek_init, deref.
  destruct (h !! capacity) as [o'|]; simpl; [|done].
  assert (∃ rows, list_rows o' = Ok rows ∨
                  list_rows o' = Raise TypeError ∧ rows = [])
    as (rows & [->| [-> _]]); simpl; [|idtac|done].
  { destruct o' as [[|c cells]|rows]; eauto. }
  generalize (copy_rows_spec h rows).
  destruct (copy_rows h rows) as [h1 rows'|h1 e|]; [| |done].
  - intros (objs & -> & Hlen & ->). unfold alloc. split.
    + intros l o Hl. rewrite <-app_assoc. by apply lookup_app_l_Some.
    + exists (seq (length h) (length rows)). split_and!.
      * rewrite lookup_app_r by lia. by rewrite Nat.sub_diag.
      * rewrite length_app. lia.
      * apply NoDup_seq.
      * apply Forall_forall. intros r Hr%elem_of_seq. lia.
  - intros (objs & ->) l o Hl. by apply lookup_app_l_Some.
Qed.

(** The solver on the store and the solver on the content of the table
    do the same, step for step. *)
Lemma edmonds_karp_solve fuel h capacity m source sink :
  table_at h capacity = Some m →
  match Code.edmonds_karp fuel h capacity source sink,
        solve fuel m source sink with
  | Done h' (t, max_flow), Done r max_flow' =>
      max_flow = max_flow' ∧ models t h' r ∧ extends h t h'
  | Abort h' e, Abort r e' =>
      e = e' ∧ models (length h + length m) h' r ∧
      ∀ l o, h !! l = Some o → h' !! l = Some o
  | NoFuel, NoFuel => True
  | _, _ => False
  end.
Proof.
  intros (h2 & Hinit & Hm & Hext)%ek_init_table.
  unfold Code.edmonds_karp, solve. rewrite Hinit.
  set (t := (length h + length m)%nat) in *.
  set (R := λ (h' : heap) (r : matrix), models t h' r ∧ extends h t h').
  assert (∀ s1 s2 u v x, R s1 s2 →
    outcome_rel R (heap_wr t s1 u v x) (mat_wr s2 u v x)) as Hwr.
  { intros s1 s2 u v x [HR1 HR2].
    generalize (heap_wr_models t s1 s2 u v x HR1).
    generalize (heap_wr_extends h t s1 u v x).
    destruct (heap_wr t s1 u v x), (mat_wr s2 u v x); simpl; try done.
    intros Hext' Hm'. split; [done|]. by eapply Hext'. }
  generalize (ek_while_sim (heap_residual t) matrix_residual R
    (λ s1 s2 u v HR, heap_rd_models t s1 s2 u v (proj1 HR)) Hwr
    (length m) source sink fuel fuel h2 m
    (replicate (length m) (-1)) (Int 0) (conj Hm Hext)).
  destruct (Code.ek_while (Residual0 := heap_residual t) _ _ _ _ _ h2 _ _)
    as [h' mf|h' e|],
    (Code.ek_while (Residual0 := matrix_residual) _ _ _ _ _ m _ _)
    as [r mf'|r e'|]; simpl; try done.
  - by intros [[? ?] ->].
  - by intros [[? [? _]] ->].
Qed.

(** Without any assumption on the store or the arguments: the objects
    of the caller are left as they are. *)
Lemma edmonds_karp_extends fuel h capacity source sink :
  match Code.edmonds_karp fuel h capacity source sink with
  | Done h' (t, _) => extends h t h'
  | Abort h' _ => ∀ l o, h !! l = Some o → h' !! l = Some o
  | NoFuel => True
  end.
Proof.
  unfold Code.edmonds_karp.
  generalize (ek_init_extends h capacity).
  destruct (Code.ek_init h capacity) as [h2 [[n t] parent]|h1 e|];
    [|done|done].
  intros Hext.
  set (R := λ (h1 h2 : heap), h1 = h2 ∧ extends h t h1).
  assert (∀ s1 s2 u v x, R s1 s2 →
    outcome_rel R (heap_wr t s1 u v x) (heap_wr t s2 u v x)) as Hwr.
  { intros s1 s2 u v x [<- HR].
    generalize (heap_wr_extends h t s1 u v x).
    destruct (heap_wr t s1 u v x); simpl; try done.
    intros Hext'. split; [done|]. by eapply Hext'. }
  generalize (ek_while_sim (heap_residual t) (heap_residual t) R
    (λ s1 s2 u v HR, f_equal (λ s, heap_rd t s u v) (proj1 HR)) Hwr
    n source sink fuel fuel h2 h2 parent (Int 0) (conj eq_refl Hext)).
  destruct (Code.ek_while _ _ _ _ _ h2 _ _) as [h' mf|h' e|];
    simpl; try done.
  - by intros [[_ ?] _].
  - by intros [[_ [? _]] _].
Qed.


(** * The search *)

Lemma undiscovered_replicate k : undiscovered (replicate k (-1)) = k.
Proof.
  unfold undiscovered. induction k as [|k IH]; [done|].
  cbn [replicate]. rewrite filter_cons_True by done. simpl. by rewrite IH.
Qed.

Lemma undiscovered_insert parent k x :
  parent !! k = Some (-1) → x ≠ -1 →
  S (undiscovered (<[k := x]> parent)) = undiscovered parent.
Proof.
  unfold undiscovered. revert k.
  induction parent as [|y parent IH]; intros k Hk Hx; [done|].
  destruct k as [|k]; cbn [lookup list_lookup insert list_insert] in *.
  - injection Hk as ->. rewrite filter_cons_False by done.
    by rewrite filter_cons_True.
  - destruct (decide (y = -1)) as [Hy|Hy].
    + rewrite !filter_cons_True by done. simpl. f_equal. by apply IH.
    + rewrite !filter_cons_False by done. by apply IH.
Qed.

Lemma undiscovered_le parent : (undiscovered parent ≤ length parent)%nat.
Proof. apply length_filter. Qed.

Lemma bfs_reset_app idx1 idx2 parent :
  Code.bfs_reset (idx1 ++ idx2) parent
  = Code.bfs_reset idx1 parent ≫= Code.bfs_reset idx2.
Proof.
  revert parent. induction idx1 as [|i idx1 IH]; intros parent; [done|].
  simpl. destruct (py_set parent i (-1)); simpl; [apply IH|done..].
Qed.

Lemma bfs_reset_range k parent :
  (k ≤ length parent)%nat →
  Code.bfs_reset (range k) parent = Ok (replicate k (-1) ++ drop k parent).
Proof.
  induction k as [|k IH]; intros Hk.
  { by rewrite drop_0. }
  rewrite range_S, bfs_reset_app, IH by lia. simpl.
  rewrite py_set_node.
  2:{ rewrite length_app, length_replicate, length_drop. lia. }
  simpl. f_equal. rewrite Nat2Z.id.
  destruct (lookup_lt_is_Some_2 parent k) as [y Hy]; [lia|].
  rewrite (drop_S _ _ _ Hy), insert_app_r_alt
    by (rewrite length_replicate; lia).
  rewrite length_replicate, Nat.sub_diag. simpl.
  generalize (drop (S k) parent). clear. intros l.
  induction k as [|k IH]; simpl; congruence.
Qed.

Lemma bfs_reset_all parent :
  Code.bfs_reset (range (length parent)) parent
  = Ok (replicate (length parent) (-1)).
Proof.
  rewrite bfs_reset_range by done. by rewrite drop_all, app_nil_r.
Qed.

Lemma parent_path_fun source parent v p p' :
  parent_path source parent v p → parent_path source parent v p' → p = p'.
Proof.
  intros Hp. revert p'.
  induction Hp as [|v u p Hne Hu Hp IH]; intros p' Hp'.
  - by inversion Hp'.
  - inversion Hp' as [|? u' p'' _ Hu' Hp'']; subst; [done|].
    f_equal. apply IH. congruence.
Qed.

Section Search.
Variables (n : nat) (r : matrix) (source sink : Z).
Hypothesis Hsq : square n r.
Hypothesis Hsource : node n source.
Implicit Types (parent queue p : list Z) (u v w : Z).

Lemma chain_node parent v p : chain n r source parent v p → node n v.
Proof. by intros []. Qed.

Lemma chain_nodes parent v p :
  chain n r source parent v p → Forall (node n) p.
Proof.
  induction 1 as [|v u p Hv _ _ _ _ _ IH]; constructor; auto.
Qed.

Lemma chain_NoDup parent v p : chain n r source parent v p → NoDup p.
Proof.
  induction 1; [apply NoDup_singleton|]. by constructor.
Qed.

Lemma chain_discovered parent v p w :
  parent !! Z.to_nat source = Some source →
  chain n r source parent v p → w ∈ p → discovered parent w.
Proof.
  intros Hs. induction 1 as [|v u p Hv Hne Hp Hpos Hnin Hc IH].
  - intros ->%list_elem_of_singleton. exists source. split; [done|].
    unfold node in Hsource. lia.
  - intros [->|Hw]%elem_of_cons; [|by apply IH].
    exists u. split; [done|].
    apply chain_node in Hc. unfold node in Hc. lia.
Qed.

Lemma chain_insert parent v p w x :
  node n w → w ∉ p →
  chain n r source parent v p →
  chain n r source (<[Z.to_nat w := x]> parent) v p.
Proof.
  intros Hw. induction 2 as [|v u p Hv Hne Hp Hpos Hnin Hc IH];
    [constructor|].
  apply not_elem_of_cons in H as [Hwv Hwp].
  apply chain_step with u; try done; [|by apply IH].
  rewrite list_lookup_insert_ne; [done|].
  unfold node in *. lia.
Qed.

Lemma chain_parent_path parent v p :
  chain n r source parent v p → parent_path source parent v p.
Proof.
  induction 1 as [|v u p Hv Hne Hp Hpos Hnin Hc IH]; [constructor|].
  apply path_step with u; try done. apply py_get_lookup; [apply Hv|done].
Qed.

(** One discovery: [parent[v] = u] for a node [v] not reached so far
    and a reached node [u] with [residual[u][v] > 0]. *)
Lemma parent_inv_discover parent u v :
  parent_inv n r source parent →
  node n u → discovered parent u →
  node n v → parent !! Z.to_nat v = Some (-1) → 0 < cell r u v →
  parent_inv n r source (<[Z.to_nat v := u]> parent) ∧
  v ≠ source ∧
  (∀ w, discovered parent w → discovered (<[Z.to_nat v := u]> parent) w) ∧
  discovered (<[Z.to_nat v := u]> parent) v.
Proof.
  intros [Hlen Hs Hch] Hu Hdu Hv Hpv Hpos.
  assert (v ≠ source) as Hvs.
  { intros ->. rewrite Hs in Hpv. unfold node in Hsource.
    injection Hpv as Hpv. lia. }
  assert (∀ w p, chain n r source parent w p → v ∉ p) as Hfresh.
  { intros w p Hc Hin.
    destruct (chain_discovered parent w p v Hs Hc Hin) as (x & Hx & Hne).
    congruence. }
  assert (discovered (<[Z.to_nat v := u]> parent) v) as Hdv.
  { exists u. split.
    - apply list_lookup_insert_eq. rewrite Hlen. unfold node in Hv. lia.
    - unfold node in Hu. lia. }
  split_and!; try done.
  - split.
    + by rewrite length_insert.
    + rewrite list_lookup_insert_ne; [done|]. unfold node in *. lia.
    + intros w Hw Hdw. destruct (decide (w = v)) as [->|Hwv].
      * destruct (Hch u Hu Hdu) as [p Hp]. exists (v :: p).
        apply chain_step with u; try done.
        -- apply list_lookup_insert_eq. rewrite Hlen.
           unfold node in Hv. lia.
        -- by eapply Hfresh.
        -- apply chain_insert; [done|by eapply Hfresh|done].
      * destruct Hdw as (x & Hx & Hne).
        rewrite list_lookup_insert_ne in Hx by (unfold node in *; lia).
        destruct (Hch w Hw) as [p Hp]; [by exists x|].
        exists p. apply chain_insert; [done|by eapply Hfresh|done].
  - intros w (x & Hx & Hne). destruct (decide (w = v)) as [->|Hwv];
      [done|].
    exists x. split; [|done].
    destruct (decide (Z.to_nat v = Z.to_nat w)) as [Heq|Hneq].
    + rewrite <-Heq in Hx. congruence.
    + by rewrite list_lookup_insert_ne.
Qed.

(** The loop [for v in range(n)] for a reached node [u]. *)
Lemma bfs_for_spec u vs parent queue :
  parent_inv n r source parent → queue_ok n parent queue →
  node n u → discovered parent u → Forall (node n) vs →
  ∃ res, Code.bfs_for sink r u vs parent queue = Ok res ∧
    match res with
    | Found parent' =>
        parent_inv n r source parent' ∧
        node n sink ∧ sink ≠ source ∧ discovered parent' sink
    | Next parent' queue' =>
        parent_inv n r source parent' ∧ queue_ok n parent' queue' ∧
        (undiscovered parent' + length queue'
         = undiscovered parent + length queue)%nat
    end.
Proof.
  intros Hinv Hq Hu Hdu Hvs. revert parent queue Hinv Hq Hdu.
  induction Hvs as [|v vs Hv Hvs IH]; intros parent queue Hinv Hq Hdu.
  { by exists (Next parent queue). }
  simpl.
  destruct (py_get_node parent v) as (pv & Hpv & ->).
  { rewrite (pi_length _ _ _ _ Hinv). apply Hv. }
  simpl. destruct (Z.eqb_spec pv (-1)) as [->|Hne]; [|by apply IH].
  rewrite (mat_rd_cell n) by done. simpl.
  destruct (Z.ltb_spec 0 (cell r u v)) as [Hpos|Hle]; [|by apply IH].
  rewrite py_set_node
    by (rewrite (pi_length _ _ _ _ Hinv); apply Hv).
  simpl.
  destruct (parent_inv_discover parent u v)
    as (Hinv' & Hvs' & Hmono & Hdv); try done.
  destruct (Z.eqb_spec v sink) as [<-|Hsink].
  { by exists (Found (<[Z.to_nat v := u]> parent)). }
  destruct (IH (<[Z.to_nat v := u]> parent) (queue ++ [v]))
    as (res & -> & Hres); try done.
  - apply Forall_app. split.
    + eapply Forall_impl; [done|]. intros w [? ?]. auto.
    + by apply Forall_singleton.
  - by apply Hmono.
  - exists res. split; [done|]. destruct res as [|parent' queue']; [done|].
    destruct Hres as (? & ? & Hcount). split_and!; try done.
    rewrite Hcount, length_app. simpl.
    pose proof (undiscovered_insert parent (Z.to_nat v) u Hpv) as Hun.
    unfold node in Hu. lia.
Qed.

(** The loop [while queue]. *)
Lemma bfs_while_spec fuel parent queue :
  parent_inv n r source parent → queue_ok n parent queue →
  (undiscovered parent + length queue < fuel)%nat →
  ∃ b parent', Code.bfs_while n sink fuel r parent queue = Ok (b, parent') ∧
    parent_inv n r source parent' ∧
    (b = true → node n sink ∧ sink ≠ source ∧ discovered parent' sink).
Proof.
  revert parent queue.
  induction fuel as [|fuel IH]; intros parent queue Hinv Hq Hfuel; [lia|].
  simpl. destruct queue as [|u queue].
  { by exists false, parent. }
  apply Forall_cons in Hq as [[Hu Hdu] Hq].
  destruct (bfs_for_spec u (range n) parent queue)
    as (res & -> & Hres); try done.
  { apply Forall_node_range. }
  simpl. destruct res as [parent'|parent' queue'].
  - exists true, parent'. by destruct Hres as (? & ? & ? & ?).
  - destruct Hres as (? & ? & Hcount).
    apply IH; try done. simpl in Hfuel. lia.
Qed.

(** [bfs()]: it always returns; when it returns [True] the sink has a
    path back to the source. *)
Lemma bfs_spec fuel parent :
  length parent = n → (n < fuel)%nat →
  ∃ b parent', Code.bfs n source sink fuel r parent = Ok (b, parent') ∧
    length parent' = n ∧
    (b = true → node n sink ∧ sink ≠ source ∧
                ∃ p, chain n r source parent' sink p).
Proof.
  intros Hlen Hfuel. unfold Code.bfs.
  pose proof (bfs_reset_all parent) as Hreset.
  rewrite Hlen in Hreset. rewrite Hreset. simpl.
  rewrite py_set_node by (by rewrite length_replicate).
  simpl.
  set (parent1 := <[Z.to_nat source := source]> (replicate n (-1))).
  assert (parent1 !! Z.to_nat source = Some source) as Hs.
  { apply list_lookup_insert_eq. rewrite length_replicate.
    unfold node in Hsource. lia. }
  assert (∀ v, node n v → discovered parent1 v → v = source) as Honly.
  { intros v Hv (x & Hx & Hne). destruct (decide (v = source)); [done|].
    unfold parent1 in Hx.
    rewrite list_lookup_insert_ne in Hx by (unfold node in *; lia).
    apply lookup_replicate in Hx as [-> _]. done. }
  destruct (bfs_while_spec fuel parent1 [source])
    as (b & parent' & -> & Hinv & Hb).
  - split; [unfold parent1; by rewrite length_insert, length_replicate
           |done|].
    intros v Hv Hd. rewrite (Honly v Hv Hd). exists [source]. constructor.
  - repeat constructor; [apply Hsource..|].
    exists source. split; [done|]. unfold node in Hsource. lia.
  - pose proof (undiscovered_insert (replicate n (-1)) (Z.to_nat source)
      source) as Hun.
    rewrite undiscovered_replicate in Hun. fold parent1 in Hun.
    simpl. rewrite <-Hun in Hfuel.
    + lia.
    + apply lookup_replicate. unfold node in Hsource. lia.
    + unfold node in Hsource. lia.
  - exists b, parent'. split_and!; [done|apply Hinv|].
    intros Hb'. destruct (Hb Hb') as (? & ? & ?). split_and!; try done.
    by apply (pi_chain _ _ _ _ Hinv).
Qed.
End Search.


(** * Sums over the nodes *)

Lemma sum_over_ext l f g :
  (∀ v, v ∈ l → f v = g v) → sum_over l f = sum_over l g.
Proof.
  induction l as [|x l IH]; intros Hfg; [done|]. simpl.
  rewrite Hfg, IH; [done| |apply elem_of_cons; by left].
  intros v Hv. apply Hfg, elem_of_cons. by right.
Qed.

Lemma sum_over_add l f g :
  sum_over l (λ v, f v + g v) = sum_over l f + sum_over l g.
Proof. induction l as [|x l IH]; simpl; lia. Qed.

Lemma sum_over_scale l c f :
  sum_over l (λ v, c * f v) = c * sum_over l f.
Proof. induction l as [|x l IH]; simpl; lia. Qed.

Lemma sum_over_nonneg l f : (∀ v, v ∈ l → 0 ≤ f v) → 0 ≤ sum_over l f.
Proof.
  induction l as [|x l IH]; intros Hf; simpl; [done|].
  assert (0 ≤ f x) by (apply Hf, elem_of_cons; by left).
  assert (0 ≤ sum_over l f); [|lia].
  apply IH. intros v Hv. apply Hf, elem_of_cons. by right.
Qed.

Lemma sum_over_zero l f : (∀ v, v ∈ l → f v = 0) → sum_over l f = 0.
Proof.
  intros Hf. rewrite (sum_over_ext l f (λ _, 0)) by done. clear Hf.
  induction l as [|x l IH]; simpl; lia.
Qed.

Lemma sum_over_ind l (x : Z) :
  NoDup l → sum_over l (λ v, ind (v = x)) = ind (x ∈ l).
Proof.
  induction 1 as [|y l Hy Hnd IH]; simpl.
  - unfold ind. by rewrite decide_False by apply not_elem_of_nil.
  - rewrite IH. unfold ind.
    destruct (decide (y = x)) as [->|Hne].
    + rewrite (decide_True (P := x ∈ x :: l)) by (apply elem_of_cons; by left).
      by rewrite decide_False.
    + destruct (decide (x ∈ l)) as [Hin|Hnin].
      * by rewrite decide_True by (apply elem_of_cons; by right).
      * rewrite decide_False; [done|].
        intros [->|?]%elem_of_cons; done.
Qed.

Lemma sum_nodes_over n f : sum_nodes n f = sum_over (range n) f.
Proof. done. Qed.

Lemma sum_nodes_ind n x : sum_nodes n (λ v, ind (v = x)) = ind (node n x).
Proof.
  rewrite sum_nodes_over, sum_over_ind by apply NoDup_seqZ.
  unfold ind. destruct (decide (node n x)) as [Hx|Hx].
  - by rewrite decide_True by (by apply elem_of_range).
  - by rewrite decide_False by (by rewrite elem_of_range).
Qed.

Lemma sum_nodes_ext n f g :
  (∀ v, node n v → f v = g v) → sum_nodes n f = sum_nodes n g.
Proof.
  intros Hfg. apply sum_over_ext. intros v Hv. by apply Hfg, elem_of_range.
Qed.

(** * The two walks along [parent] *)

Lemma ind_pair (a b u v : Z) :
  ind ((a, b) = (u, v)) = ind (a = u) * ind (b = v).
Proof.
  unfold ind. destruct (decide (a = u)) as [->|], (decide (b = v)) as [->|];
    try (rewrite decide_False; [done|congruence]).
  by rewrite decide_True.
Qed.

Lemma ind_01 (P : Prop) `{!Decision P} : 0 ≤ ind P ≤ 1.
Proof. unfold ind. destruct (decide P); lia. Qed.

Lemma edges_elem p a b : (a, b) ∈ edges p → a ∈ p ∧ b ∈ p.
Proof.
  induction p as [|v [|u p] IH]; simpl; try by intros ?%elem_of_nil.
  intros [[= -> ->]|Hin]%elem_of_cons.
  - split; [apply elem_of_cons; right|]; apply elem_of_cons; by left.
  - destruct (IH Hin). split; apply elem_of_cons; by right.
Qed.

Lemma net_antisym es a b : net es a b = - net es b a.
Proof.
  induction es as [|[u v] es IH]; simpl; [done|].
  rewrite IH, !ind_pair. lia.
Qed.

(** With pairwise distinct edges, an edge is counted at most once. *)
Lemma net_le es a b : NoDup es → net es a b ≤ ind ((a, b) ∈ es).
Proof.
  induction 1 as [|[u v] es Hnin Hnd IH]; simpl.
  { unfold ind. by rewrite decide_False by apply not_elem_of_nil. }
  unfold ind in *.
  destruct (decide ((a, b) = (u, v))) as [Heq|Hne],
    (decide ((a, b) = (v, u))), (decide ((a, b) ∈ es)) as [Hin|Hnin'],
    (decide ((a, b) ∈ (u, v) :: es)) as [Hin'|Hnin''];
    try lia; exfalso;
    first [ by apply Hnin'', elem_of_cons; left
          | by apply Hnin'', elem_of_cons; right
          | by rewrite Heq in Hin
          | by apply elem_of_cons in Hin' as [?|?] ].
Qed.

Lemma num_min_Int acc x :
  ∃ z, num_min acc x = Int z ∧ z ≤ x ∧
       match acc with Int a => z ≤ a ∧ (z = a ∨ z = x) | Inf => z = x end.
Proof.
  destruct acc as [a|]; simpl.
  - destruct (Z.ltb_spec x a); eexists; split_and!; try done; lia.
  - by exists x.
Qed.

Lemma path_min_cons r e es acc :
  path_min r (e :: es) acc = path_min r es (num_min acc (cell r e.1 e.2)).
Proof. done. Qed.

Lemma path_min_le r es a pf :
  path_min r es (Int a) = Int pf →
  pf ≤ a ∧ Forall (λ e, pf ≤ cell r e.1 e.2) es.
Proof.
  revert a. induction es as [|e es IH]; intros a.
  { intros [= ->]. split; [lia|constructor]. }
  rewrite path_min_cons.
  destruct (num_min_Int (Int a) (cell r e.1 e.2)) as (z & -> & Hle & Hle' & _).
  intros [? ?]%IH. split; [lia|]. constructor; [lia|done].
Qed.

Lemma path_min_pos r es a pf :
  0 < a → Forall (λ e, 0 < cell r e.1 e.2) es →
  path_min r es (Int a) = Int pf → 0 < pf.
Proof.
  revert a. induction es as [|e es IH]; intros a Ha Hes.
  { by intros [= <-]. }
  apply Forall_cons in Hes as [He Hes]. rewrite path_min_cons.
  destruct (num_min_Int (Int a) (cell r e.1 e.2)) as (z & -> & _ & _ & Hor).
  apply IH; [lia|done].
Qed.

Lemma path_min_Int r es a : ∃ pf, path_min r es (Int a) = Int pf.
Proof.
  revert a. induction es as [|e es IH]; intros a; [by exists a|].
  rewrite path_min_cons.
  destruct (num_min_Int (Int a) (cell r e.1 e.2)) as (z & -> & _). apply IH.
Qed.

(** The bottleneck of a non-empty list of positive edges: a positive
    integer that no edge of the list is below. *)
Lemma path_min_spec r e es :
  Forall (λ e, 0 < cell r e.1 e.2) (e :: es) →
  ∃ pf, path_min r (e :: es) Inf = Int pf ∧ 0 < pf ∧
        Forall (λ e, pf ≤ cell r e.1 e.2) (e :: es).
Proof.
  intros [He Hes]%Forall_cons. rewrite path_min_cons. simpl.
  destruct (path_min_Int r es (cell r e.1 e.2)) as [pf Hpf].
  exists pf. split; [done|].
  pose proof (path_min_pos _ _ _ _ He Hes Hpf).
  apply path_min_le in Hpf as [? ?]. split; [done|]. by constructor.
Qed.

Section Walk.
Variables (n : nat) (source : Z).
Hypothesis Hsource : node n source.
Implicit Types (r : matrix) (parent p : list Z) (u v a b pf : Z).

Lemma chain_head r parent v p :
  chain n r source parent v p → ∃ p', p = v :: p'.
Proof. intros []; eauto. Qed.

Lemma chain_edges r parent v u p :
  chain n r source parent u p → edges (v :: p) = (u, v) :: edges p.
Proof. by intros [p' ->]%chain_head. Qed.

Lemma chain_edges_ok r parent v p :
  chain n r source parent v p →
  Forall (λ e, 0 < cell r e.1 e.2 ∧ node n e.1 ∧ node n e.2) (edges p).
Proof.
  induction 1 as [|v u p Hv Hne Hp Hpos Hnin Hc IH]; [constructor|].
  rewrite (chain_edges _ _ _ _ _ Hc). constructor; [|done].
  simpl. split_and!; try done. exact (chain_node n _ source Hsource _ _ _ Hc).
Qed.

Lemma chain_edges_NoDup r parent v p :
  chain n r source parent v p → NoDup (edges p).
Proof.
  induction 1 as [|v u p Hv Hne Hp Hpos Hnin Hc IH]; [constructor|].
  rewrite (chain_edges _ _ _ _ _ Hc). constructor; [|done].
  by intros [_ ?]%edges_elem.
Qed.

(** The flow along a path leaves the source, enters the first node of
    the walk and is conserved in between. *)
Lemma chain_net_sum r parent v p a :
  chain n r source parent v p → node n a →
  sum_nodes n (net (edges p) a) = ind (a = source) - ind (a = v).
Proof.
  intros Hc Ha.
  induction Hc as [|v u p Hv Hne Hp Hpos Hnin Hc IH].
  { simpl. rewrite sum_nodes_over, sum_over_zero by done. lia. }
  rewrite (chain_edges _ _ _ _ _ Hc). simpl.
  pose proof (chain_node n _ source Hsource _ _ _ Hc) as Hu.
  rewrite (sum_nodes_ext n _
    (λ b, (ind (a = u) * ind (b = v) + (- ind (a = v)) * ind (b = u))
          + net (edges p) a b))
    by (intros b _; rewrite !ind_pair; lia).
  rewrite !sum_nodes_over, !sum_over_add, !sum_over_scale.
  rewrite <-!sum_nodes_over, !sum_nodes_ind, IH.
  unfold ind at 2 4. rewrite !decide_True by done. lia.
Qed.

Lemma push_spec r u v pf :
  square n r → node n u → node n v →
  Code.push r u v pf = Done (push_cell pf r (u, v)) tt.
Proof.
  intros Hsq Hu Hv. unfold Code.push, push_cell. simpl.
  rewrite (mat_rd_cell n) by done. simpl.
  rewrite (mat_wr_upd n) by done. simpl.
  assert (square n (upd r u v (cell r u v - pf))) by by apply square_upd.
  rewrite (mat_rd_cell n) by done. simpl.
  by rewrite (mat_wr_upd n).
Qed.

Lemma square_push_cell r u v pf :
  square n r → node n u → node n v → square n (push_cell pf r (u, v)).
Proof. intros. unfold push_cell. by repeat apply square_upd. Qed.

Lemma cell_push_cell r u v pf a b :
  square n r → node n u → node n v → node n a → node n b →
  cell (push_cell pf r (u, v)) a b
  = cell r a b - pf * (ind ((a, b) = (u, v)) - ind ((a, b) = (v, u))).
Proof.
  intros Hsq Hu Hv Ha Hb. unfold push_cell. simpl.
  assert (square n (upd r u v (cell r u v - pf))) by by apply square_upd.
  rewrite !(cell_upd n) by done. unfold ind.
  repeat case_decide; simplify_eq; lia.
Qed.

Lemma square_path_apply r es pf :
  square n r → Forall (λ e, node n e.1 ∧ node n e.2) es →
  square n (path_apply pf r es).
Proof.
  intros Hsq Hes. revert r Hsq.
  induction Hes as [|[u v] es [Hu Hv] Hes IH]; intros r Hsq; [done|].
  simpl. apply IH. by apply square_push_cell.
Qed.

(** Every entry after the update along the edges [es]. *)
Lemma cell_path_apply r es pf a b :
  square n r → Forall (λ e, node n e.1 ∧ node n e.2) es →
  node n a → node n b →
  cell (path_apply pf r es) a b = cell r a b - pf * net es a b.
Proof.
  intros Hsq Hes Ha Hb. revert r Hsq.
  induction Hes as [|[u v] es [Hu Hv] Hes IH]; intros r Hsq.
  { simpl. lia. }
  change (path_apply pf r ((u, v) :: es))
    with (path_apply pf (push_cell pf r (u, v)) es).
  rewrite IH by by apply square_push_cell.
  rewrite cell_push_cell by done. simpl. lia.
Qed.

(** The first walk computes the bottleneck of the path. *)
Lemma bottleneck_spec r0 r parent v p fuel acc :
  chain n r0 source parent v p → square n r →
  (length p ≤ fuel)%nat →
  Code.bottleneck source fuel r parent v acc
  = Ok (path_min r (edges p) acc).
Proof.
  intros Hc Hsq. revert fuel acc.
  induction Hc as [|v u p Hv Hne Hp Hpos Hnin Hc IH];
    intros fuel acc Hfuel; simpl in Hfuel;
    (destruct fuel as [|fuel]; [lia|]).
  { simpl. by rewrite Z.eqb_refl. }
  rewrite (chain_edges _ _ v _ _ Hc), path_min_cons.
  pose proof (chain_node n _ source Hsource _ _ _ Hc) as Hu.
  cbn [Code.bottleneck]. destruct (Z.eqb_spec v source); [done|].
  rewrite (py_get_lookup parent v u) by (try done; apply Hv).
  cbn [mbind outcome_bind]. change (rd r u v) with (mat_rd r u v).
  rewrite (mat_rd_cell n) by done.
  cbn [mbind outcome_bind]. apply IH. lia.
Qed.

(** The second walk updates the table along the path. *)
Lemma augment_spec r0 r parent v p fuel pf :
  chain n r0 source parent v p → square n r →
  (length p ≤ fuel)%nat →
  Code.augment source fuel r parent v pf
  = Done (path_apply pf r (edges p)) tt.
Proof.
  intros Hc. revert fuel r.
  induction Hc as [|v u p Hv Hne Hp Hpos Hnin Hc IH];
    intros fuel r Hsq Hfuel; simpl in Hfuel;
    (destruct fuel as [|fuel]; [lia|]).
  { simpl. by rewrite Z.eqb_refl. }
  rewrite (chain_edges _ _ v _ _ Hc).
  change (path_apply pf r ((u, v) :: edges p))
    with (path_apply pf (push_cell pf r (u, v)) (edges p)).
  pose proof (chain_node n _ source Hsource _ _ _ Hc) as Hu.
  cbn [Code.augment]. destruct (Z.eqb_spec v source); [done|].
  rewrite (py_get_lookup parent v u) by (try done; apply Hv).
  cbn [in_store]. rewrite push_spec by done.
  apply IH; [by apply square_push_cell|lia].
Qed.
End Walk.


(** * The main loop *)

Lemma flow_pushed_antisym hist a b :
  flow_pushed hist a b = - flow_pushed hist b a.
Proof.
  induction hist as [|[p pf] hist IH]; simpl; [done|].
  rewrite IH, (net_antisym _ a b). lia.
Qed.

Section Loop.
Variables (n : nat) (source sink : Z) (cap : matrix).
Hypothesis Hcap : square n cap.
Hypothesis Hsource : node n source.
Implicit Types (r : matrix) (parent p : list Z) (hist : list (list Z * Z)).

Lemma chain_length r parent v p :
  chain n r source parent v p → (length p ≤ n)%nat.
Proof.
  intros Hc.
  pose proof (chain_nodes n r source Hsource _ _ _ Hc) as Hnodes.
  pose proof (chain_NoDup _ _ _ _ _ _ Hc) as Hnd.
  assert (p ⊆+ range n) as Hsub.
  { apply NoDup_submseteq; [done|]. intros x Hx. apply elem_of_range.
    by eapply Forall_forall in Hnodes. }
  apply submseteq_length in Hsub.
  unfold range in Hsub. rewrite length_seqZ in Hsub. lia.
Qed.

Lemma chain_edges_cons r parent v p :
  chain n r source parent v p → v ≠ source → ∃ e es, edges p = e :: es.
Proof.
  intros Hc Hne. destruct Hc as [|v u p _ _ _ _ _ Hc]; [done|].
  rewrite (chain_edges n source _ _ _ _ _ Hc). eauto.
Qed.

(** One evaluation of [while bfs(): ...]: the loop ends, or an
    augmentation along a path of the search is made; its bottleneck is
    positive and no edge of the path is below it. *)
Lemma ek_body_spec fuel r parent max_flow :
  square n r → length parent = n → (n < fuel)%nat →
  Code.ek_body n source sink fuel r parent max_flow = Done r None ∨
  ∃ parent' p pf,
    length parent' = n ∧ node n sink ∧ sink ≠ source ∧
    chain n r source parent' sink p ∧
    0 < pf ∧ Forall (λ e, pf ≤ cell r e.1 e.2) (edges p) ∧
    Code.bottleneck source fuel r parent' sink Inf = Ok (Int pf) ∧
    Code.ek_body n source sink fuel r parent max_flow
    = Done (path_apply pf r (edges p))
           (Some (parent', num_add max_flow (Int pf))).
Proof.
  intros Hsq Hlen Hfuel. unfold Code.ek_body.
  destruct (bfs_spec n r source sink Hsq Hsource fuel parent Hlen Hfuel)
    as (b & parent' & -> & Hlen' & Hb).
  cbn [in_store]. destruct b; [|by left]. right.
  destruct Hb as (Hsink & Hne & p & Hc); [done|].
  pose proof (chain_length _ _ _ _ Hc) as Hp.
  pose proof (chain_edges_ok n source Hsource _ _ _ _ Hc) as Hok.
  destruct (chain_edges_cons _ _ _ _ Hc Hne) as (e & es & Hes).
  destruct (path_min_spec r e es) as (pf & Hpf & Hpos & Hle).
  { rewrite <-Hes. eapply Forall_impl; [done|]. by intros ? [? _]. }
  rewrite <-Hes in Hpf, Hle.
  assert (Code.bottleneck source fuel r parent' sink Inf = Ok (Int pf))
    as Hbn.
  { rewrite (bottleneck_spec n source Hsource r r parent' sink p)
      by (try done; lia).
    by rewrite Hpf. }
  rewrite Hbn. cbn [in_store].
  rewrite (augment_spec n source Hsource r r parent' sink p)
    by (try done; lia).
  by exists parent', p, pf.
Qed.

Lemma ek_inv_start : ek_inv n source sink cap [] cap (Int 0).
Proof.
  split; try done.
  - intros a b _ _. simpl. lia.
  - intros a b _ _. lia.
  - exists 0. split_and!; [done|simpl; lia|].
    intros a _. simpl. rewrite sum_nodes_over, sum_over_zero by done. lia.
Qed.

(** An augmentation along a path of the search preserves the
    invariant. *)
Lemma ek_inv_step hist r max_flow parent p pf :
  ek_inv n source sink cap hist r max_flow →
  chain n r source parent sink p → node n sink →
  0 < pf → Forall (λ e, pf ≤ cell r e.1 e.2) (edges p) →
  ek_inv n source sink cap ((p, pf) :: hist) (path_apply pf r (edges p))
    (num_add max_flow (Int pf)).
Proof.
  intros [Hsq Hcell Hlow (z & -> & Hz & Hsum)] Hc Hsink Hpos Hle.
  pose proof (chain_edges_ok n source Hsource _ _ _ _ Hc) as Hok.
  assert (Forall (λ e, node n e.1 ∧ node n e.2) (edges p)) as Hnodes.
  { eapply Forall_impl; [done|]. by intros ? [_ ?]. }
  split.
  - by apply (square_path_apply n).
  - intros a b Ha Hb. rewrite (cell_path_apply n) by done.
    rewrite Hcell by done. simpl. lia.
  - intros a b Ha Hb. rewrite (cell_path_apply n) by done.
    pose proof (net_le (edges p) a b
      (chain_edges_NoDup n source _ _ _ _ Hc)) as Hnet.
    pose proof (Hlow a b Ha Hb). unfold ind in Hnet.
    destruct (decide ((a, b) ∈ edges p)) as [Hin|Hnin].
    + rewrite Forall_forall in Hle. specialize (Hle _ Hin). simpl in Hle.
      nia.
    + nia.
  - exists (z + pf). split_and!; [done|simpl length; lia|].
    intros a Ha. simpl.
    rewrite sum_nodes_over, sum_over_add, sum_over_scale.
    rewrite <-!sum_nodes_over, Hsum by done.
    rewrite (chain_net_sum n source Hsource _ _ _ _ a Hc) by done. lia.
Qed.

(** The flow value never exceeds what can leave the source. *)
Lemma ek_inv_bound hist r z :
  ek_inv n source sink cap hist r (Int z) → sink ≠ source →
  z ≤ sum_nodes n (λ v, Z.max 0 (cell cap source v)).
Proof.
  intros [Hsq Hcell Hlow (z' & [= <-] & Hz & Hsum)] Hne.
  specialize (Hsum source Hsource). unfold ind in Hsum.
  rewrite decide_True, decide_False in Hsum by done.
  replace z with (sum_nodes n (flow_pushed hist source)) by lia.
  rewrite !sum_nodes_over.
  assert (0 ≤ sum_over (range n)
    (λ v, Z.max 0 (cell cap source v) + -1 * flow_pushed hist source v))
    as Hnn.
  { apply sum_over_nonneg. intros v Hv%elem_of_range.
    pose proof (Hcell source v Hsource Hv).
    pose proof (Hlow source v Hsource Hv). lia. }
  rewrite sum_over_add, sum_over_scale in Hnn. lia.
Qed.

(** The main loop ends when it is given enough iterations. *)
Lemma ek_while_spec fuel k hist r parent z :
  ek_inv n source sink cap hist r (Int z) →
  length parent = n → (n < fuel)%nat →
  z ≤ sum_nodes n (λ v, Z.max 0 (cell cap source v)) →
  sum_nodes n (λ v, Z.max 0 (cell cap source v)) - z < Z.of_nat k →
  ∃ hist' r' z',
    Code.ek_while n source sink fuel k r parent (Int z) = Done r' (Int z') ∧
    ek_inv n source sink cap hist' r' (Int z').
Proof.
  revert hist r parent z.
  induction k as [|k IH]; intros hist r parent z Hinv Hlen Hfuel Hz Hk;
    [lia|].
  simpl.
  destruct (ek_body_spec fuel r parent (Int z) (inv_square _ _ _ _ _ _ _ Hinv)
    Hlen Hfuel) as [->|(parent' & p & pf & Hlen' & Hsink & Hne & Hc & Hpos
      & Hle & _ & ->)].
  { by exists hist, r, z. }
  pose proof (ek_inv_step _ _ _ _ _ _ Hinv Hc Hsink Hpos Hle) as Hinv'.
  simpl in *. pose proof (ek_inv_bound _ _ _ Hinv' Hne).
  apply (IH _ _ _ _ Hinv' Hlen' Hfuel); lia.
Qed.

(** Every state of the loop satisfies the invariant. *)
Lemma solving_inv fuel parent0 hist r parent max_flow :
  length parent0 = n → (n < fuel)%nat →
  solving n source sink fuel cap parent0 hist r parent max_flow →
  ek_inv n source sink cap hist r max_flow ∧ length parent = n.
Proof.
  intros Hlen0 Hfuel.
  induction 1 as [|hist r parent mf r' parent' mf' p pf _ [Hinv Hlen]
    Hbody Hpath Hbn].
  { split; [apply ek_inv_start|done]. }
  destruct (ek_body_spec fuel r parent mf (inv_square _ _ _ _ _ _ _ Hinv)
    Hlen Hfuel) as [Hstop|(parent'' & p' & pf' & Hlen' & Hsink & Hne & Hc
      & Hpos & Hle & Hbn' & Hstep)].
  { rewrite Hstop in Hbody. done. }
  rewrite Hstep in Hbody. injection Hbody as <- <- <-.
  rewrite Hbn' in Hbn. injection Hbn as <-.
  pose proof (chain_parent_path _ _ _ _ _ _ Hc) as Hpath'.
  rewrite (parent_path_fun _ _ _ _ _ Hpath Hpath').
  split; [|done]. by apply ek_inv_step with parent''.
Qed.

(** The run on the content of the table returns, and its result
    satisfies the invariant. *)
Lemma solve_spec fuel :
  n = length cap → (fuel_bound cap source ≤ fuel)%nat →
  ∃ hist r z,
    solve fuel cap source sink = Done r (Int z) ∧
    ek_inv n source sink cap hist r (Int z).
Proof.
  intros Hn Hfuel. unfold solve, fuel_bound in *. rewrite <-Hn in *.
  assert (0 ≤ sum_nodes n (λ v, Z.max 0 (cell cap source v))) as Hnn.
  { apply sum_over_nonneg. intros. lia. }
  apply ek_while_spec with [].
  - apply ek_inv_start.
  - by rewrite length_replicate.
  - lia.
  - lia.
  - lia.
Qed.
End Loop.

(** * From the store to the content of the table *)

Section Trace.
Context {St1 St2 : Type} (R1 : Residual St1) (R2 : Residual St2).
Variable R : St1 → St2 → Prop.
Hypothesis rd_sim : ∀ s1 s2 u v, R s1 s2 → rd s1 u v = rd s2 u v.
Hypothesis wr_sim : ∀ s1 s2 u v x,
  R s1 s2 → outcome_rel R (wr s1 u v x) (wr s2 u v x).
Variables (n : nat) (source sink : Z) (fuel : nat).

Lemma solving_sim s1 s2 parent0 hist s1' parent max_flow :
  R s1 s2 →
  solving n source sink fuel s1 parent0 hist s1' parent max_flow →
  ∃ s2', R s1' s2' ∧
         solving n source sink fuel s2 parent0 hist s2' parent max_flow.
Proof.
  intros HR.
  induction 1 as [|hist r parent mf r' parent' mf' p pf _ (s2' & HR' & IH)
    Hbody Hpath Hbn].
  { exists s2. split; [done|constructor]. }
  generalize (ek_body_sim R1 R2 R rd_sim wr_sim n source sink fuel
    r s2' parent mf HR').
  rewrite Hbody.
  destruct (Code.ek_body n source sink fuel s2' parent mf)
    as [s2'' res| |] eqn:Hbody2; simpl; try done.
  intros [HR'' <-]. exists s2''. split; [done|].
  eapply solving_step; [done..|].
  by rewrite <-(bottleneck_sim R1 R2 R rd_sim source fuel r s2').
Qed.
End Trace.

(** The states of the loop do not depend on the fuel either. *)
Lemma solving_fuel {St : Type} `{!Residual St} n source sink fuel fuel'
    (s0 : St) parent0 hist s parent max_flow :
  (fuel ≤ fuel')%nat →
  solving n source sink fuel s0 parent0 hist s parent max_flow →
  solving n source sink fuel' s0 parent0 hist s parent max_flow.
Proof.
  intros Hle.
  induction 1 as [|hist r parent mf r' parent' mf' p pf _ IH Hbody Hpath Hbn];
    [constructor|].
  eapply solving_step; [done| |done|].
  - rewrite (ek_body_fuel n source sink fuel fuel') by (by rewrite ?Hbody).
    done.
  - rewrite (bottleneck_fuel source fuel fuel') by (by rewrite ?Hbn).
    done.
Qed.

(** * The derivation of the flow on the edges *)

Lemma cell_replicate n x a b :
  node n a → node n b → cell (replicate n (replicate n x)) a b = x.
Proof.
  intros Ha Hb. unfold cell, node in *.
  rewrite !lookup_total_replicate_2 by lia. done.
Qed.

Lemma square_replicate n x : square n (replicate n (replicate n x)).
Proof.
  split; [apply length_replicate|].
  apply Forall_replicate, length_replicate.
Qed.

(** The two nested loops of [compute_forward_flow], for either way [g]
    of deriving the flow of an edge from its capacity and its residual
    entry. *)
Section FlowLoops.
Variables (n : nat) (capacity residual : matrix) (g : Z → Z → Z).
Variable for_v : Z → list Z → matrix → outcome matrix.
Variable for_u : list Z → matrix → outcome matrix.
Hypothesis for_v_nil : ∀ u flow, for_v u [] flow = Ok flow.
Hypothesis for_v_cons : ∀ u v vs flow,
  for_v u (v :: vs) flow =
    c ← mat_rd capacity u v;
    if 0 <? c then
      r ← mat_rd residual u v;
      flow' ← mat_wr flow u v (g c r);
      for_v u vs flow'
    else for_v u vs flow.
Hypothesis for_u_nil : ∀ flow, for_u [] flow = Ok flow.
Hypothesis for_u_cons : ∀ u us flow,
  for_u (u :: us) flow = flow' ← for_v u (range n) flow; for_u us flow'.
Hypothesis Hcap : square n capacity.
Hypothesis Hres : square n residual.

Lemma for_v_spec u vs flow :
  square n flow → node n u → Forall (node n) vs →
  ∃ flow', for_v u vs flow = Ok flow' ∧ square n flow' ∧
    ∀ a b, node n a → node n b →
      cell flow' a b =
        if decide (a = u ∧ b ∈ vs ∧ 0 < cell capacity a b)
        then g (cell capacity a b) (cell residual a b)
        else cell flow a b.
Proof.
  intros Hsq Hu Hvs. revert flow Hsq.
  induction Hvs as [|v vs Hv Hvs IH]; intros flow Hsq.
  { exists flow. rewrite for_v_nil. split; [done|split; [done|]].
    intros a b _ _. rewrite decide_False; [done|].
    intros (_ & ?%elem_of_nil & _). done. }
  rewrite for_v_cons, (mat_rd_cell n capacity) by done.
  cbn [mbind outcome_bind].
  destruct (0 <? cell capacity u v) eqn:Hc;
    [apply Z.ltb_lt in Hc as Hpos|apply Z.ltb_ge in Hc as Hle].
  - rewrite (mat_rd_cell n residual) by done. cbn [mbind outcome_bind].
    rewrite (mat_wr_upd n) by done. cbn [mbind outcome_bind].
    destruct (IH (upd flow u v (g (cell capacity u v) (cell residual u v))))
      as (flow' & -> & Hsq' & Hcell); [by apply square_upd|].
    exists flow'. split; [done|split; [done|]].
    intros a b Ha Hb. rewrite Hcell, (cell_upd n) by done.
    repeat case_decide; simplify_eq; try done; exfalso;
      rewrite elem_of_cons in *; intuition (subst; lia || tauto).
  - destruct (IH flow Hsq) as (flow' & -> & Hsq' & Hcell).
    exists flow'. split; [done|split; [done|]].
    intros a b Ha Hb. rewrite Hcell by done.
    repeat case_decide; try done; exfalso;
      rewrite elem_of_cons in *; intuition (subst; lia || tauto).
Qed.

Lemma for_u_spec us flow :
  square n flow → Forall (node n) us →
  ∃ flow', for_u us flow = Ok flow' ∧ square n flow' ∧
    ∀ a b, node n a → node n b →
      cell flow' a b =
        if decide (a ∈ us ∧ 0 < cell capacity a b)
        then g (cell capacity a b) (cell residual a b)
        else cell flow a b.
Proof.
  intros Hsq Hus. revert flow Hsq.
  induction Hus as [|u us Hu Hus IH]; intros flow Hsq.
  { exists flow. rewrite for_u_nil. split; [done|split; [done|]].
    intros a b _ _. rewrite decide_False; [done|].
    intros (?%elem_of_nil & _). done. }
  rewrite for_u_cons.
  destruct (for_v_spec u (range n) flow Hsq Hu (Forall_node_range n))
    as (flow1 & -> & Hsq1 & Hcell1). cbn [mbind outcome_bind].
  destruct (IH flow1 Hsq1) as (flow' & -> & Hsq' & Hcell).
  exists flow'. split; [done|split; [done|]].
  intros a b Ha Hb. rewrite Hcell, Hcell1 by done.
  pose proof (proj2 (elem_of_range n b) Hb).
  repeat case_decide; try done; exfalso;
    rewrite elem_of_cons in *; intuition (subst; lia || tauto).
Qed.

Lemma flow_loops_spec :
  ∃ flow, for_u (range n) (replicate n (replicate n 0)) = Ok flow ∧
    square n flow ∧
    ∀ a b, node n a → node n b →
      cell flow a b =
        if decide (0 < cell capacity a b)
        then g (cell capacity a b) (cell residual a b)
        else 0.
Proof.
  destruct (for_u_spec (range n) (replicate n (replicate n 0))
    (square_replicate n 0) (Forall_node_range n))
    as (flow & Hflow & Hsq & Hcell).
  exists flow. split; [done|split; [done|]].
  intros a b Ha Hb. rewrite Hcell, cell_replicate by done.
  pose proof (proj2 (elem_of_range n a) Ha).
  repeat case_decide; try done; exfalso; tauto.
Qed.
End FlowLoops.

(** codeNew.py clamps the derived flow at 0. *)
Lemma compute_forward_flow_new capacity residual :
  square (length capacity) capacity → square (length capacity) residual →
  ∃ flow, CodeNew.compute_forward_flow capacity residual = Ok flow ∧
    square (length capacity) flow ∧
    ∀ a b, node (length capacity) a → node (length capacity) b →
      cell flow a b =
        if decide (0 < cell capacity a b)
        then Z.max 0 (cell capacity a b - cell residual a b)
        else 0.
Proof.
  intros Hcap Hres. unfold CodeNew.compute_forward_flow.
  by apply (flow_loops_spec (length capacity) capacity residual
    (λ c r, Z.max 0 (c - r))
    (CodeNew.flow_for_v capacity residual)
    (CodeNew.flow_for_u capacity residual (length capacity))).
Qed.

(** codeFinal.py does not. *)
Lemma compute_forward_flow_final capacity residual :
  square (length capacity) capacity → square (length capacity) residual →
  ∃ flow, CodeFinal.compute_forward_flow capacity residual = Ok flow ∧
    square (length capacity) flow ∧
    ∀ a b, node (length capacity) a → node (length capacity) b →
      cell flow a b =
        if decide (0 < cell capacity a b)
        then cell capacity a b - cell residual a b
        else 0.
Proof.
  intros Hcap Hres. unfold CodeFinal.compute_forward_flow.
  by apply (flow_loops_spec (length capacity) capacity residual
    (λ c r, c - r)
    (CodeFinal.flow_for_v capacity residual)
    (CodeFinal.flow_for_u capacity residual (length capacity))).
Qed.


(** * Runs on a store that holds a square table *)

Lemma nonneg_cell n m a b :
  square n m → nonneg m → node n a → node n b → 0 ≤ cell m a b.
Proof.
  intros Hsq Hnn Ha Hb. unfold cell.
  pose proof (square_lookup n m a Hsq Ha) as Hrow.
  pose proof (square_row n m a Hsq Ha) as Hlen.
  eapply Forall_lookup_1 in Hnn; [|done].
  eapply Forall_lookup_1 in Hnn; [done|].
  apply list_lookup_lookup_total_lt. unfold node in Hb. lia.
Qed.

Lemma cell_nonneg n m :
  square n m → (∀ a b, node n a → node n b → 0 ≤ cell m a b) → nonneg m.
Proof.
  intros [Hlen Hrows] Hcell. apply Forall_lookup_2. intros i row Hi.
  apply Forall_lookup_2. intros j c Hj.
  pose proof (lookup_lt_Some _ _ _ Hi). pose proof (lookup_lt_Some _ _ _ Hj).
  eapply Forall_lookup_1 in Hrows; [|done]. simpl in Hrows.
  specialize (Hcell (Z.of_nat i) (Z.of_nat j)). unfold cell, node in Hcell.
  rewrite !Nat2Z.id in Hcell.
  rewrite (list_lookup_total_correct _ _ _ Hi) in Hcell.
  rewrite (list_lookup_total_correct _ _ _ Hj) in Hcell.
  apply Hcell; lia.
Qed.

Lemma ek_inv_nonneg n source sink cap hist r max_flow :
  square n cap → nonneg cap →
  ek_inv n source sink cap hist r max_flow → nonneg r.
Proof.
  intros Hcap Hnn Hinv. apply (cell_nonneg n); [apply Hinv|].
  intros a b Ha Hb. pose proof (inv_low _ _ _ _ _ _ _ Hinv a b Ha Hb).
  pose proof (nonneg_cell n cap a b Hcap Hnn Ha Hb). lia.
Qed.

Lemma ek_body_stop {St : Type} `{!Residual St} n source sink fuel
    (s s' : St) parent max_flow :
  Code.ek_body n source sink fuel s parent max_flow = Done s' None → s' = s.
Proof.
  unfold Code.ek_body.
  destruct (Code.bfs n source sink fuel s parent) as [[[] parent']| |];
    simpl; try done; [|congruence].
  destruct (Code.bottleneck source fuel s parent' sink Inf) as [[pf|]| |];
    simpl; try done.
  by destruct (Code.augment source fuel s parent' sink pf) as [? []| |].
Qed.

Lemma edmonds_karp_fuel fuel fuel' h capacity source sink :
  (fuel ≤ fuel')%nat →
  Code.edmonds_karp fuel h capacity source sink ≠ NoFuel →
  Code.edmonds_karp fuel' h capacity source sink
  = Code.edmonds_karp fuel h capacity source sink.
Proof.
  unfold Code.edmonds_karp. intros Hle.
  destruct (Code.ek_init h capacity) as [h2 [[n t] parent]|h1 e|]; try done.
  intros Hterm.
  rewrite (ek_while_fuel (Residual0 := heap_residual t)
    n source sink fuel fuel' fuel fuel'); try done.
  intros Heq. by rewrite Heq in Hterm.
Qed.

Lemma solve_fuel fuel fuel' m source sink :
  (fuel ≤ fuel')%nat → solve fuel m source sink ≠ NoFuel →
  solve fuel' m source sink = solve fuel m source sink.
Proof. intros Hle Hterm. by apply ek_while_fuel. Qed.

Section Valid.
Variables (h : heap) (capacity : loc) (m : matrix) (source sink : Z).
Hypothesis Htable : table_at h capacity = Some m.
Hypothesis Hsq : square (length m) m.
Hypothesis Hsource : node (length m) source.

(** The run returns, and the returned table satisfies the invariant
    of the main loop. *)
Lemma edmonds_karp_valid fuel :
  (fuel_bound m source ≤ fuel)%nat →
  ∃ h' t z hist r,
    Code.edmonds_karp fuel h capacity source sink = Done h' (t, Int z) ∧
    table_at h' t = Some r ∧ extends h t h' ∧
    ek_inv (length m) source sink m hist r (Int z).
Proof.
  intros Hfuel.
  destruct (solve_spec (length m) source sink m Hsq Hsource fuel eq_refl
    Hfuel) as (hist & r & z & Hsolve & Hinv).
  generalize (edmonds_karp_solve fuel h capacity m source sink Htable).
  rewrite Hsolve.
  destruct (Code.edmonds_karp fuel h capacity source sink)
    as [h' [t mf]|h' e|]; try done.
  intros (-> & Hm & Hext). exists h', t, z, hist, r.
  split_and!; try done. by apply models_table_at.
Qed.

(** Every state of the loop holds a table that satisfies the
    invariant. *)
Lemma solving_valid fuel h2 n t parent0 hist h' parent max_flow :
  Code.ek_init h capacity = Done h2 (n, t, parent0) →
  solving (Residual0 := heap_residual t)
    n source sink fuel h2 parent0 hist h' parent max_flow →
  ∃ r, models t h' r ∧ n = length m ∧ length parent = n ∧
       ek_inv n source sink m hist r max_flow.
Proof.
  intros Hinit Hsolving.
  destruct (ek_init_table h capacity m Htable) as (h2' & Hinit' & Hm & Hext).
  rewrite Hinit in Hinit'. injection Hinit' as <- -> -> ->.
  apply (solving_fuel _ _ _ fuel (fuel + S (length m))) in Hsolving;
    [|lia].
  destruct (solving_sim (heap_residual _) matrix_residual
    (models (length h + length m)) (heap_rd_models _) (heap_wr_models _)
    _ _ _ _ _ _ _ _ _ _ _ Hm Hsolving) as (r & Hr & Hsolving').
  apply solving_inv in Hsolving' as [Hinv Hlen]; try done.
  - by exists r.
  - by rewrite length_replicate.
  - lia.
Qed.

(** One evaluation of the loop in a state of the run. *)
Lemma ek_body_valid fuel t h' r parent max_flow :
  models t h' r → square (length m) r → length parent = length m →
  (length m < fuel)%nat →
  Code.ek_body (Residual0 := heap_residual t)
    (length m) source sink fuel h' parent max_flow = Done h' None ∨
  ∃ h'' parent' p pf,
    node (length m) sink ∧ sink ≠ source ∧
    parent_path source parent' sink p ∧
    0 < pf ∧ Forall (λ e, pf ≤ cell r e.1 e.2) (edges p) ∧
    Code.bottleneck (Residual0 := heap_residual t)
      source fuel h' parent' sink Inf = Ok (Int pf) ∧
    Code.ek_body (Residual0 := heap_residual t)
      (length m) source sink fuel h' parent max_flow
    = Done h'' (Some (parent', num_add max_flow (Int pf))).
Proof.
  intros Hm Hr Hlen Hfuel.
  generalize (ek_body_sim (heap_residual t) matrix_residual
    (models t) (heap_rd_models t) (heap_wr_models t)
    (length m) source sink fuel h' r parent max_flow Hm).
  destruct (ek_body_spec (length m) source sink Hsource fuel r parent
    max_flow Hr Hlen Hfuel) as [->|(parent' & p & pf & _ & Hsink & Hne & Hc
      & Hpos & Hle & Hbn & ->)].
  - destruct (Code.ek_body _ _ _ _ h' _ _) as [h'' res| |] eqn:Hbody;
      simpl; try done.
    intros [_ ->]. left. by rewrite (ek_body_stop _ _ _ _ _ _ _ _ Hbody).
  - destruct (Code.ek_body _ _ _ _ h' _ _) as [h'' res| |] eqn:Hbody;
      simpl; try done.
    intros [_ ->]. right. exists h'', parent', p, pf.
    split_and!; try done.
    + by eapply chain_parent_path.
    + by rewrite (bottleneck_sim (heap_residual t) matrix_residual
        (models t) (heap_rd_models t) source fuel h' r).
Qed.
End Valid.

(** The table that a run returns is the table of a state of the loop,
    the one in which [bfs()] is false. *)
Lemma edmonds_karp_solving h capacity m source sink fuel h' t max_flow :
  table_at h capacity = Some m →
  square (length m) m → node (length m) source →
  (length m < fuel)%nat →
  Code.edmonds_karp fuel h capacity source sink = Done h' (t, max_flow) →
  ∃ h2 parent0 hist parent,
    Code.ek_init h capacity = Done h2 (length m, t, parent0) ∧
    solving (Residual0 := heap_residual t)
      (length m) source sink fuel h2 parent0 hist h' parent max_flow ∧
    Code.ek_body (Residual0 := heap_residual t)
      (length m) source sink fuel h' parent max_flow = Done h' None.
Proof.
  intros Htable Hsq Hsource Hfuel.
  destruct (ek_init_table h capacity m Htable) as (h2 & Hinit & _).
  unfold Code.edmonds_karp. rewrite Hinit.
  set (t0 := (length h + length m)%nat) in *.
  set (parent0 := replicate (length m) (-1)) in *.
  destruct (Code.ek_while _ _ _ _ _ h2 _ _) as [h3 mf| |] eqn:Hwhile;
    try done.
  intros [= -> <- ->]. exists h2, parent0.
  assert (∀ k hist h1 parent mf,
    solving (Residual0 := heap_residual t0)
      (length m) source sink fuel h2 parent0 hist h1 parent mf →
    Code.ek_while (Residual0 := heap_residual t0)
      (length m) source sink fuel k h1 parent mf = Done h' max_flow →
    ∃ hist' parent',
      solving (Residual0 := heap_residual t0)
        (length m) source sink fuel h2 parent0 hist' h' parent' max_flow ∧
      Code.ek_body (Residual0 := heap_residual t0)
        (length m) source sink fuel h' parent' max_flow = Done h' None)
    as Hloop.
  { induction k as [|k IH]; intros hist h1 parent mf Hsolving; [done|].
    destruct (solving_valid h capacity m source sink Htable Hsq Hsource
      fuel h2 _ t0 parent0 hist h1 parent mf Hinit Hsolving)
      as (r & Hm & _ & Hlen & Hinv).
    simpl.
    destruct (ek_body_valid m source sink Hsource fuel t0 h1 r parent mf Hm
      (inv_square _ _ _ _ _ _ _ Hinv) Hlen Hfuel)
      as [Hstop|(h'' & parent' & p & pf & _ & _ & Hpath & _ & _ & Hbn
        & Hstep)].
    - rewrite Hstop. intros [= -> ->]. by exists hist, parent.
    - rewrite Hstep. apply (IH ((p, pf) :: hist)).
      by eapply solving_step. }
  destruct (Hloop fuel [] h2 parent0 (Int 0)) as (hist & parent & ? & ?);
    [constructor|done|].
  by exists hist, parent.
Qed.

(** * Properties of the specification *)

Lemma valid_network_tiny : valid_network tiny 0 1.
Proof.
  unfold valid_network, square, nonneg, node. simpl.
  split_and!; try lia; try done; repeat constructor; lia.
Qed.

Lemma sum_nodes_max_nonneg n m a :
  square n m → nonneg m → node n a →
  sum_nodes n (λ v, Z.max 0 (cell m a v)) = sum_nodes n (λ v, cell m a v).
Proof.
  intros Hsq Hnn Ha. apply sum_nodes_ext. intros v Hv.
  pose proof (nonneg_cell n m a v Hsq Hnn Ha Hv). lia.
Qed.

Lemma table_at_frame h h' t m :
  (∀ l o, h !! l = Some o → h' !! l = Some o) →
  table_at h t = Some m → table_at h' t = Some m.
Proof.
  intros Hframe (rows & Ht & HF)%table_at_models.
  apply table_at_models. exists rows. split; [by apply Hframe|].
  eapply Forall2_impl; [done|]. intros r cells. apply Hframe.
Qed.

(** A source outside [[-n, n)] makes the first search raise. *)
Lemma solve_source_out fuel m source sink :
  source < - Z.of_nat (length m) ∨ Z.of_nat (length m) ≤ source →
  (0 < fuel)%nat →
  solve fuel m source sink = Abort m IndexError.
Proof.
  intros Hout Hfuel. unfold solve.
  destruct fuel as [|fuel]; [lia|].
  cbn [Code.ek_while]. unfold Code.ek_body, Code.bfs.
  pose proof (bfs_reset_all (replicate (length m) (-1))) as Hreset.
  rewrite length_replicate in Hreset. rewrite Hreset.
  cbn [mbind outcome_bind].
  rewrite py_set_out by (by rewrite length_replicate). done.
Qed.

(** Without a sink that is a node other than the source, the first
    search fails and the copy of the table is returned as it is. *)
Lemma solve_no_sink fuel m source sink :
  square (length m) m → node (length m) source →
  sink = source ∨ ¬ node (length m) sink →
  (length m < fuel)%nat →
  solve fuel m source sink = Done m (Int 0).
Proof.
  intros Hsq Hsource Hsink Hfuel. unfold solve.
  destruct fuel as [|fuel]; [lia|]. cbn [Code.ek_while].
  destruct (ek_body_spec (length m) source sink Hsource (S fuel) m
    (replicate (length m) (-1)) (Int 0) Hsq) as [->|Hstep]; try done.
  - by rewrite length_replicate.
  - destruct Hstep as (_ & _ & _ & _ & ? & ? & _). tauto.
Qed.

(** On a valid network the solver returns a table of non-negative
    entries that differs from the capacities by a flow: antisymmetric,
    and conserved at every node but the source and the sink. *)
Lemma edmonds_karp_flow h capacity m source sink fuel :
  table_at h capacity = Some m → valid_network m source sink →
  (fuel_bound m source ≤ fuel)%nat →
  ∃ h' t z r (f : Z → Z → Z),
    Code.edmonds_karp fuel h capacity source sink = Done h' (t, Int z) ∧
    table_at h' t = Some r ∧ square (length m) r ∧
    ∀ a b, node (length m) a → node (length m) b →
      0 ≤ cell m a b ∧ 0 ≤ cell r a b ∧
      cell r a b = cell m a b - f a b ∧ f a b = - f b a ∧
      (a ≠ source → a ≠ sink → sum_nodes (length m) (f a) = 0).
Proof.
  intros Htable (Hsq & Hnn & Hsource & Hsink & Hne) Hfuel.
  destruct (edmonds_karp_valid h capacity m source sink Htable Hsq Hsource
    fuel Hfuel) as (h' & t & z & hist & r & Hrun & Hr & _ & Hinv).
  exists h', t, z, r, (flow_pushed hist).
  split_and!; [done|done|apply Hinv|].
  intros a b Ha Hb.
  pose proof (ek_inv_nonneg _ _ _ _ _ _ _ Hsq Hnn Hinv) as Hnn'.
  split_and!.
  - by apply (nonneg_cell (length m)).
  - apply (nonneg_cell (length m)); [apply Hinv|done..].
  - by apply Hinv.
  - apply flow_pushed_antisym.
  - intros Has Hat.
    destruct (inv_flow _ _ _ _ _ _ _ Hinv) as (z' & _ & _ & Hsum).
    rewrite Hsum by done. unfold ind. rewrite !decide_False by done. lia.
Qed.

(** C1, as stated: on scenario 1 the solver returns 26, not 23. *)
Lemma scenario1_not_23 :
  ∃ h' t,
    Code.edmonds_karp 10 (store_of scenario1) 5 0 4 = Done h' (t, Int 26) ∧
    Int 26 ≠ Int 23.
Proof.
  eexists _, _. split; [vm_compute; reflexivity|]. discriminate.
Qed.

(** C1, amended: on scenario 1, a valid network, the solver returns the
    flow value 26, whatever fuel it is given from 4 on. *)
Theorem scenario1_max_flow fuel :
  (4 ≤ fuel)%nat →
  valid_network scenario1 0 4 ∧
  ∃ h' t,
    Code.edmonds_karp fuel (store_of scenario1) 5 0 4 = Done h' (t, Int 26) ∧
    table_at h' t = Some [ [0; 3; 0; 0; 0];
                           [13; 0; 9; 0; 0];
                           [13; 5; 0; 0; 0];
                           [0; 12; 9; 0; 8];
                           [0; 0; 14; 12; 0] ].
Proof.
  intros Hfuel. split.
  { unfold valid_network, square, nonneg, node. simpl.
    split_and!; try lia; try done; repeat constructor; lia. }
  rewrite (edmonds_karp_fuel 4 fuel) by (try done; by vm_compute).
  eexists _, _. split; [vm_compute; reflexivity|]. reflexivity.
Qed.

Lemma scenario1_max_flow_witness :
  valid_network scenario1 0 4 ∧
  ∃ h' t,
    Code.edmonds_karp 10 (store_of scenario1) 5 0 4 = Done h' (t, Int 26) ∧
    table_at h' t = Some [ [0; 3; 0; 0; 0];
                           [13; 0; 9; 0; 0];
                           [13; 5; 0; 0; 0];
                           [0; 12; 9; 0; 8];
                           [0; 0; 14; 12; 0] ].
Proof. apply (scenario1_max_flow 10). lia. Defined.

(** C2, as stated: the solver returns a result when the source is the
    sink, when the sink is not a node, and when a capacity is
    negative. *)
Lemma malformed_input_accepted :
  (∃ h' t, Code.edmonds_karp 3 (store_of [[0; 1]; [0; 0]]) 2 0 0
           = Done h' (t, Int 0)) ∧
  (∃ h' t, Code.edmonds_karp 3 (store_of [[0; 1]; [0; 0]]) 2 0 7
           = Done h' (t, Int 0)) ∧
  (∃ h' t, Code.edmonds_karp 3 (store_of [[0; -1]; [0; 0]]) 2 0 1
           = Done h' (t, Int 0)).
Proof. split_and!; eexists _, _; vm_compute; reflexivity. Qed.

(** C2, amended: the solver checks nothing before it starts.  With a
    source outside [[-n, n)] the first search raises [IndexError]:
    nothing is returned, and both the table of the caller and the copy
    made of it hold the capacities.  On a square table with a source
    that is a node the solver returns a result, whatever the sink and
    the sign of the capacities; when the sink is the source or is not a
    node, that result is the flow value 0 with the copy of the table. *)
Theorem input_handling h capacity m source sink fuel :
  table_at h capacity = Some m →
  (source < - Z.of_nat (length m) ∨ Z.of_nat (length m) ≤ source →
   (0 < fuel)%nat →
   ∃ h', Code.edmonds_karp fuel h capacity source sink = Abort h' IndexError ∧
         table_at h' capacity = Some m ∧
         table_at h' (length h + length m) = Some m) ∧
  (square (length m) m → node (length m) source →
   (fuel_bound m source ≤ fuel)%nat →
   ∃ h' t z,
     Code.edmonds_karp fuel h capacity source sink = Done h' (t, Int z) ∧
     (sink = source ∨ ¬ node (length m) sink →
      z = 0 ∧ table_at h' t = Some m)).
Proof.
  intros Htable. split.
  - intros Hout Hfuel.
    generalize (edmonds_karp_solve fuel h capacity m source sink Htable).
    rewrite solve_source_out by done.
    destruct (Code.edmonds_karp fuel h capacity source sink)
      as [h' [t mf]|h' e|]; try done.
    intros (-> & Hm & Hframe). exists h'. split_and!; [done| |].
    + by eapply table_at_frame.
    + by apply models_table_at.
  - intros Hsq Hsource Hfuel.
    destruct (edmonds_karp_valid h capacity m source sink Htable Hsq Hsource
      fuel Hfuel) as (h' & t & z & _ & _ & Hrun & _).
    exists h', t, z. split; [done|]. intros Hsink.
    generalize (edmonds_karp_solve fuel h capacity m source sink Htable).
    rewrite Hrun, solve_no_sink; try done.
    + intros ([= ->] & Hm & _). split; [done|]. by apply models_table_at.
    + unfold fuel_bound in Hfuel. lia.
Qed.

Lemma input_handling_witness :
  (∃ h', Code.edmonds_karp 3 (store_of tiny) 2 2 1 = Abort h' IndexError ∧
         table_at h' 2 = Some tiny ∧
         table_at h' (length (store_of tiny) + length tiny) = Some tiny) ∧
  (∃ h' t z,
     Code.edmonds_karp 5 (store_of tiny) 2 0 0 = Done h' (t, Int z) ∧
     (0 = 0 ∨ ¬ node (length tiny) 0 → z = 0 ∧ table_at h' t = Some tiny)).
Proof.
  split.
  - apply (input_handling (store_of tiny) 2 tiny 2 1 3);
      [reflexivity|right; simpl; lia|lia].
  - destruct valid_network_tiny as (Hsq & _ & Hsource & _).
    apply (input_handling (store_of tiny) 2 tiny 0 0 5);
      [reflexivity|exact Hsq|exact Hsource|vm_compute; lia].
Defined.

(** C3: the flow of an edge lies between 0 and its capacity, and
    codeFinal.py breaks this.  On the valid network [opposite_edges]
    (edges [0→2=5], [2→1=5], [1→3=5] and [1→2=3], source 0, sink 3)
    the solver returns the flow value 5, and for the edge [(1, 2)] of
    capacity 3 [compute_forward_flow] of codeFinal.py derives -5, where
    that of codeNew.py, which clamps at 0 as code.py does, derives 0.
    The table of codeFinal.py is not conserved at node 1 (5 in, 0 out);
    the table of codeNew.py is (5 in, 5 out). *)
Theorem derived_flow_negative :
  valid_network opposite_edges 0 3 ∧
  ∃ h' t r flow forward_flow,
    Code.edmonds_karp 10 (store_of opposite_edges) 4 0 3
      = Done h' (t, Int 5) ∧
    table_at h' t = Some r ∧
    CodeFinal.compute_forward_flow opposite_edges r = Ok flow ∧
    CodeNew.compute_forward_flow opposite_edges r = Ok forward_flow ∧
    0 < cell opposite_edges 1 2 ∧
    cell flow 1 2 = -5 ∧ cell forward_flow 1 2 = 0 ∧
    sum_nodes 4 (λ u, cell flow u 1) = 5 ∧
    sum_nodes 4 (λ v, cell flow 1 v) = 0 ∧
    sum_nodes 4 (λ u, cell forward_flow u 1) = 5 ∧
    sum_nodes 4 (λ v, cell forward_flow 1 v) = 5.
Proof.
  split.
  { unfold valid_network, square, nonneg, node. simpl.
    split_and!; try lia; try done; repeat constructor; lia. }
  eexists _, _, _, _, _.
  split; [vm_compute; reflexivity|].
  split; [vm_compute; reflexivity|].
  split; [vm_compute; reflexivity|].
  split; [vm_compute; reflexivity|].
  split_and!; reflexivity.
Qed.

(** C4: on a valid network, the flow that codeNew.py derives from the
    returned table is conserved: at every node other than the source
    and the sink, the flow on the edges into the node sums to the flow
    on the edges out of it. *)
Theorem flow_conservation h capacity m source sink fuel :
  table_at h capacity = Some m → valid_network m source sink →
  (fuel_bound m source ≤ fuel)%nat →
  ∃ h' t max_flow r forward_flow,
    Code.edmonds_karp fuel h capacity source sink = Done h' (t, max_flow) ∧
    table_at h' t = Some r ∧
    CodeNew.compute_forward_flow m r = Ok forward_flow ∧
    ∀ w, node (length m) w → w ≠ source → w ≠ sink →
      sum_nodes (length m) (λ u, cell forward_flow u w)
      = sum_nodes (length m) (λ v, cell forward_flow w v).
Proof.
  intros Htable Hvalid Hfuel.
  destruct (edmonds_karp_flow h capacity m source sink fuel Htable Hvalid
    Hfuel) as (h' & t & z & r & f & Hrun & Hr & Hsq' & Hcells).
  destruct Hvalid as (Hsq & _).
  destruct (compute_forward_flow_new m r Hsq Hsq')
    as (forward_flow & Hforward & _ & Hcell).
  exists h', t, (Int z), r, forward_flow. split_and!; try done.
  intros w Hw Hws Hwt.
  assert (∀ a b, node (length m) a → node (length m) b →
    cell forward_flow a b = Z.max 0 (f a b)) as Hmax.
  { intros a b Ha Hb. rewrite Hcell by done.
    destruct (Hcells a b Ha Hb) as (? & ? & ? & _).
    case_decide; lia. }
  assert (sum_nodes (length m) (λ v, cell forward_flow w v)
          + -1 * sum_nodes (length m) (λ u, cell forward_flow u w) = 0);
    [|lia].
  rewrite !sum_nodes_over, <-sum_over_scale, <-sum_over_add.
  rewrite <-(proj2 (proj2 (proj2 (proj2 (Hcells w w Hw Hw)))) Hws Hwt).
  rewrite sum_nodes_over. apply sum_over_ext.
  intros v Hv%elem_of_range. rewrite !Hmax by done.
  destruct (Hcells w v Hw Hv) as (_ & _ & _ & ? & _). lia.
Qed.

Lemma flow_conservation_witness :
  ∃ h' t max_flow r forward_flow,
    Code.edmonds_karp 10 (store_of opposite_edges) 4 0 3
      = Done h' (t, max_flow) ∧
    table_at h' t = Some r ∧
    CodeNew.compute_forward_flow opposite_edges r = Ok forward_flow ∧
    ∀ w, node (length opposite_edges) w → w ≠ 0 → w ≠ 3 →
      sum_nodes (length opposite_edges) (λ u, cell forward_flow u w)
      = sum_nodes (length opposite_edges) (λ v, cell forward_flow w v).
Proof.
  apply (flow_conservation (store_of opposite_edges) 4 opposite_edges 0 3 10).
  - reflexivity.
  - unfold valid_network, square, nonneg, node. simpl.
    split_and!; try lia; try done; repeat constructor; lia.
  - vm_compute. lia.
Defined.

(** C5: in every state of the main loop and for all nodes [u] and [v],
    [residual[u][v] + flow_pushed(u, v) = capacity[u][v]] and
    [residual[v][u] = capacity[v][u] + flow_pushed(u, v)], where
    [flow_pushed] is the net flow the augmentations made so far have
    committed to the edge; hence
    [residual[u][v] + residual[v][u] = capacity[u][v] + capacity[v][u]]. *)
Theorem residual_flow_pushed h capacity m source sink fuel h2 n t parent0
    hist h' parent max_flow :
  table_at h capacity = Some m →
  square (length m) m → node (length m) source →
  Code.ek_init h capacity = Done h2 (n, t, parent0) →
  solving (Residual0 := heap_residual t)
    n source sink fuel h2 parent0 hist h' parent max_flow →
  ∃ r, table_at h' t = Some r ∧
    ∀ u v, node n u → node n v →
      cell r u v + flow_pushed hist u v = cell m u v ∧
      cell r v u = cell m v u + flow_pushed hist u v ∧
      cell r u v + cell r v u = cell m u v + cell m v u.
Proof.
  intros Htable Hsq Hsource Hinit Hsolving.
  destruct (solving_valid h capacity m source sink Htable Hsq Hsource
    fuel h2 n t parent0 hist h' parent max_flow Hinit Hsolving)
    as (r & Hm & -> & Hlen & Hinv).
  exists r. split; [by apply models_table_at|].
  intros u v Hu Hv.
  pose proof (inv_cell _ _ _ _ _ _ _ Hinv u v Hu Hv).
  pose proof (inv_cell _ _ _ _ _ _ _ Hinv v u Hv Hu).
  pose proof (flow_pushed_antisym hist u v). lia.
Qed.

Lemma residual_flow_pushed_witness :
  ∃ r, table_at [Row [0; 2]; Row [0; 0]; Table [0; 1]%nat;
                 Row [0; 0]; Row [2; 0]; Table [3; 4]%nat] 5 = Some r ∧
    ∀ u v, node 2 u → node 2 v →
      cell r u v + flow_pushed [([1; 0], 2)] u v = cell tiny u v ∧
      cell r v u = cell tiny v u + flow_pushed [([1; 0], 2)] u v ∧
      cell r u v + cell r v u = cell tiny u v + cell tiny v u.
Proof.
  destruct valid_network_tiny as (Hsq & Hnn & Hsource & _).
  apply (residual_flow_pushed (store_of tiny) 2 tiny 0 1 3
    [Row [0; 2]; Row [0; 0]; Table [0; 1]%nat;
     Row [0; 2]; Row [0; 0]; Table [3; 4]%nat]
    2 5%nat [-1; -1] [([1; 0], 2)] _ [0; 0] (Int 2)).
  - reflexivity.
  - exact Hsq.
  - exact Hsource.
  - reflexivity.
  - eapply solving_step.
    + apply solving_start.
    + reflexivity.
    + apply path_step with 0; [lia|reflexivity|apply path_source].
    + reflexivity.
Defined.

(** C6: on a valid network the solver returns.  In every state of the
    main loop, [bfs()] is false and the loop stops, or an augmenting
    path is found whose bottleneck is positive and is added to
    [max_flow]; the number of augmentations made so far is at most
    [max_flow], which is at most the capacity that leaves the source. *)
Theorem solver_terminates h capacity m source sink :
  table_at h capacity = Some m → valid_network m source sink →
  (∀ fuel, (fuel_bound m source ≤ fuel)%nat →
     ∃ h' t z,
       Code.edmonds_karp fuel h capacity source sink = Done h' (t, Int z)) ∧
  (∀ fuel h2 n t parent0 hist h' parent max_flow,
     (length m < fuel)%nat →
     Code.ek_init h capacity = Done h2 (n, t, parent0) →
     solving (Residual0 := heap_residual t)
       n source sink fuel h2 parent0 hist h' parent max_flow →
     (∃ z, max_flow = Int z ∧
           Z.of_nat (length hist) ≤ z ≤ sum_nodes n (λ v, cell m source v)) ∧
     (Code.ek_body (Residual0 := heap_residual t)
        n source sink fuel h' parent max_flow = Done h' None ∨
      ∃ h'' parent' pf,
        0 < pf ∧
        Code.bottleneck (Residual0 := heap_residual t)
          source fuel h' parent' sink Inf = Ok (Int pf) ∧
        Code.ek_body (Residual0 := heap_residual t)
          n source sink fuel h' parent max_flow
        = Done h'' (Some (parent', num_add max_flow (Int pf))))).
Proof.
  intros Htable (Hsq & Hnn & Hsource & Hsink & Hne). split.
  - intros fuel Hfuel.
    destruct (edmonds_karp_valid h capacity m source sink Htable Hsq Hsource
      fuel Hfuel) as (h' & t & z & _ & _ & Hrun & _).
    by exists h', t, z.
  - intros fuel h2 n t parent0 hist h' parent max_flow Hfuel Hinit Hsolving.
    destruct (solving_valid h capacity m source sink Htable Hsq Hsource
      fuel h2 n t parent0 hist h' parent max_flow Hinit Hsolving)
      as (r & Hm & -> & Hlen & Hinv).
    split.
    + destruct (inv_flow _ _ _ _ _ _ _ Hinv) as (z & -> & Hz & _).
      exists z. split; [done|]. split; [done|].
      rewrite <-(sum_nodes_max_nonneg _ m source) by done.
      eapply ek_inv_bound; [done..|]. congruence.
    + destruct (ek_body_valid m source sink Hsource fuel t h' r parent
        max_flow Hm (inv_square _ _ _ _ _ _ _ Hinv) Hlen Hfuel)
        as [Hstop|(h'' & parent' & p & pf & _ & _ & _ & Hpos & _ & Hbn
          & Hstep)]; [by left|].
      right. by exists h'', parent', pf.
Qed.

Lemma solver_terminates_witness :
  (∀ fuel, (fuel_bound tiny 0 ≤ fuel)%nat →
     ∃ h' t z,
       Code.edmonds_karp fuel (store_of tiny) 2 0 1 = Done h' (t, Int z)) ∧
  (∀ fuel h2 n t parent0 hist h' parent max_flow,
     (length tiny < fuel)%nat →
     Code.ek_init (store_of tiny) 2 = Done h2 (n, t, parent0) →
     solving (Residual0 := heap_residual t)
       n 0 1 fuel h2 parent0 hist h' parent max_flow →
     (∃ z, max_flow = Int z ∧
           Z.of_nat (length hist) ≤ z ≤ sum_nodes n (λ v, cell tiny 0 v)) ∧
     (Code.ek_body (Residual0 := heap_residual t)
        n 0 1 fuel h' parent max_flow = Done h' None ∨
      ∃ h'' parent' pf,
        0 < pf ∧
        Code.bottleneck (Residual0 := heap_residual t)
          0 fuel h' parent' 1 Inf = Ok (Int pf) ∧
        Code.ek_body (Residual0 := heap_residual t)
          n 0 1 fuel h' parent max_flow
        = Done h'' (Some (parent', num_add max_flow (Int pf))))).
Proof.
  apply (solver_terminates (store_of tiny) 2 tiny 0 1).
  - reflexivity.
  - exact valid_network_tiny.
Defined.

(** C7: whatever the arguments, a call that returns or raises leaves
    every object of the caller as it was, in particular the table
    [capacity] and its rows; the returned [residual] is a table object
    that did not exist before, and so are its rows, which are pairwise
    distinct. *)
Theorem capacity_not_mutated fuel h capacity source sink :
  match Code.edmonds_karp fuel h capacity source sink with
  | Done h' (t, _) =>
      (∀ l o, h !! l = Some o → h' !! l = Some o) ∧
      (∀ m, table_at h capacity = Some m → table_at h' capacity = Some m) ∧
      (length h ≤ t)%nat ∧
      ∃ rows, h' !! t = Some (Table rows) ∧ NoDup rows ∧
              Forall (λ r, (length h ≤ r)%nat) rows
  | Abort h' _ =>
      (∀ l o, h !! l = Some o → h' !! l = Some o) ∧
      (∀ m, table_at h capacity = Some m → table_at h' capacity = Some m)
  | NoFuel => True
  end.
Proof.
  generalize (edmonds_karp_extends fuel h capacity source sink).
  destruct (Code.edmonds_karp fuel h capacity source sink)
    as [h' [t mf]|h' e|]; [| |done].
  - intros (Hframe & rows & Ht & Hfresh & Hnd & Hrows).
    split_and!; try done.
    + intros m. by apply table_at_frame.
    + by exists rows.
  - intros Hframe. split; [done|]. intros m. by apply table_at_frame.
Qed.

Lemma capacity_not_mutated_witness :
  (∀ l o, store_of tiny !! l = Some o →
     [Row [0; 2]; Row [0; 0]; Table [0; 1]%nat;
      Row [0; 0]; Row [2; 0]; Table [3; 4]%nat] !! l = Some o) ∧
  (∀ m, table_at (store_of tiny) 2 = Some m →
     table_at [Row [0; 2]; Row [0; 0]; Table [0; 1]%nat;
               Row [0; 0]; Row [2; 0]; Table [3; 4]%nat] 2 = Some m) ∧
  (length (store_of tiny) ≤ 5)%nat ∧
  ∃ rows, [Row [0; 2]; Row [0; 0]; Table [0; 1]%nat;
           Row [0; 0]; Row [2; 0]; Table [3; 4]%nat] !! 5%nat
          = Some (Table rows) ∧ NoDup rows ∧
          Forall (λ r, (length (store_of tiny) ≤ r)%nat) rows.
Proof. exact (capacity_not_mutated 3 (store_of tiny) 2 0 1). Defined.

(** C8: the solver is deterministic.  Two calls with the same arguments
    in the same store have the same outcome, whatever these are.  Two
    calls on tables with the same content, in whatever stores and with
    the same source and sink, return the same flow value and tables
    with the same content, or raise the same exception. *)
Theorem solver_deterministic fuel1 fuel2 h1 h2 capacity1 capacity2 source sink :
  Code.edmonds_karp fuel1 h1 capacity1 source sink ≠ NoFuel →
  Code.edmonds_karp fuel2 h2 capacity2 source sink ≠ NoFuel →
  (h1 = h2 → capacity1 = capacity2 →
   Code.edmonds_karp fuel1 h1 capacity1 source sink
   = Code.edmonds_karp fuel2 h2 capacity2 source sink) ∧
  (∀ m, table_at h1 capacity1 = Some m → table_at h2 capacity2 = Some m →
   match Code.edmonds_karp fuel1 h1 capacity1 source sink,
         Code.edmonds_karp fuel2 h2 capacity2 source sink with
   | Done h1' (t1, max_flow1), Done h2' (t2, max_flow2) =>
       max_flow1 = max_flow2 ∧
       ∃ r, table_at h1' t1 = Some r ∧ table_at h2' t2 = Some r
   | Abort _ e1, Abort _ e2 => e1 = e2
   | _, _ => False
   end).
Proof.
  intros Hterm1 Hterm2. split.
  { intros <- <-.
    rewrite <-(edmonds_karp_fuel fuel1 (fuel1 `max` fuel2)),
            <-(edmonds_karp_fuel fuel2 (fuel1 `max` fuel2)); try done; lia. }
  intros m Htable1 Htable2.
  generalize (edmonds_karp_solve fuel1 h1 capacity1 m source sink Htable1).
  generalize (edmonds_karp_solve fuel2 h2 capacity2 m source sink Htable2).
  assert (solve fuel1 m source sink = solve fuel2 m source sink) as Heq.
  { rewrite <-(solve_fuel fuel1 (fuel1 `max` fuel2)),
            <-(solve_fuel fuel2 (fuel1 `max` fuel2)); try done; try lia.
    - intros Hs. generalize (edmonds_karp_solve fuel2 h2 capacity2 m source
        sink Htable2). rewrite Hs.
      by destruct (Code.edmonds_karp fuel2 h2 capacity2 source sink)
        as [? []| |].
    - intros Hs. generalize (edmonds_karp_solve fuel1 h1 capacity1 m source
        sink Htable1). rewrite Hs.
      by destruct (Code.edmonds_karp fuel1 h1 capacity1 source sink)
        as [? []| |]. }
  rewrite Heq.
  destruct (Code.edmonds_karp fuel1 h1 capacity1 source sink)
      as [h1' [t1 mf1]|h1' e1|],
    (Code.edmonds_karp fuel2 h2 capacity2 source sink)
      as [h2' [t2 mf2]|h2' e2|],
    (solve fuel2 m source sink) as [r mf|r e|]; try done.
  - intros (-> & Hm2 & _) (-> & Hm1 & _). split; [done|].
    exists r. split; by apply models_table_at.
  - by intros (-> & _) (-> & _).
Qed.

Lemma solver_deterministic_witness :
  Code.edmonds_karp 3 (store_of tiny) 2 0 1
  = Code.edmonds_karp 4 (store_of tiny) 2 0 1 ∧
  match Code.edmonds_karp 3 (store_of tiny) 2 0 1,
        Code.edmonds_karp 5
          [Row [0; 2]; Row [0; 0]; Table [0; 1]%nat;
           Row [0; 0]; Row [2; 0]; Table [3; 4]%nat] 2 0 1 with
  | Done h1' (t1, max_flow1), Done h2' (t2, max_flow2) =>
      max_flow1 = max_flow2 ∧
      ∃ r, table_at h1' t1 = Some r ∧ table_at h2' t2 = Some r
  | Abort _ e1, Abort _ e2 => e1 = e2
  | _, _ => False
  end.
Proof.
  split.
  - apply (solver_deterministic 3 4 (store_of tiny) (store_of tiny) 2 2 0 1);
      [vm_compute; discriminate|vm_compute; discriminate
      |reflexivity|reflexivity].
  - apply (solver_deterministic 3 5 (store_of tiny)
      [Row [0; 2]; Row [0; 0]; Table [0; 1]%nat;
       Row [0; 0]; Row [2; 0]; Table [3; 4]%nat] 2 2 0 1) with tiny;
      [vm_compute; discriminate|vm_compute; discriminate
      |reflexivity|reflexivity].
Defined.

(** C9: the three definitions of [edmonds_karp] return the same for all
    arguments. *)
Theorem variants_agree fuel h capacity source sink :
  CodeNew.edmonds_karp fuel h capacity source sink
  = Code.edmonds_karp fuel h capacity source sink ∧
  CodeFinal.edmonds_karp fuel h capacity source sink
  = Code.edmonds_karp fuel h capacity source sink.
Proof. split; reflexivity. Qed.

(** C10: on a square table of non-negative capacities and for a source
    that is a node, the table [residual] has no negative entry in any
    state of the main loop nor in the returned result; the amount an
    augmentation subtracts is positive and at most the entry of every
    edge of its path. *)
Theorem residual_nonneg h capacity m source sink fuel h2 n t parent0
    hist h' parent max_flow :
  table_at h capacity = Some m →
  square (length m) m → nonneg m → node (length m) source →
  Code.ek_init h capacity = Done h2 (n, t, parent0) →
  solving (Residual0 := heap_residual t)
    n source sink fuel h2 parent0 hist h' parent max_flow →
  ∃ r, table_at h' t = Some r ∧ nonneg r ∧
    (∀ h'' parent' max_flow' p pf,
       Code.ek_body (Residual0 := heap_residual t)
         n source sink fuel h' parent max_flow
         = Done h'' (Some (parent', max_flow')) →
       parent_path source parent' sink p →
       Code.bottleneck (Residual0 := heap_residual t)
         source fuel h' parent' sink Inf = Ok (Int pf) →
       0 < pf ∧ Forall (λ e, pf ≤ cell r e.1 e.2) (edges p)) ∧
    (∀ h3 t' max_flow',
       Code.edmonds_karp fuel h capacity source sink
         = Done h3 (t', max_flow') →
       ∃ r', table_at h3 t' = Some r' ∧ nonneg r').
Proof.
  intros Htable Hsq Hnn Hsource Hinit Hsolving.
  destruct (solving_valid h capacity m source sink Htable Hsq Hsource
    fuel h2 n t parent0 hist h' parent max_flow Hinit Hsolving)
    as (r & Hm & -> & Hlen & Hinv).
  exists r. split_and!.
  - by apply models_table_at.
  - by eapply ek_inv_nonneg.
  - intros h'' parent' max_flow' p pf Hbody Hpath Hbn.
    set (fuel' := (fuel + S (length m))%nat).
    destruct (ek_body_valid m source sink Hsource fuel' t h' r parent
      max_flow Hm (inv_square _ _ _ _ _ _ _ Hinv) Hlen)
      as [Hstop|(h3 & parent'' & p' & pf' & _ & _ & Hpath' & Hpos & Hle
        & Hbn' & Hstep)]; [unfold fuel'; lia| |].
    + rewrite (ek_body_fuel _ _ _ fuel fuel') in Hstop
        by (unfold fuel'; try lia; by rewrite Hbody).
      rewrite Hbody in Hstop. done.
    + rewrite (ek_body_fuel _ _ _ fuel fuel') in Hstep
        by (unfold fuel'; try lia; by rewrite Hbody).
      rewrite Hbody in Hstep. injection Hstep as -> -> _.
      rewrite (bottleneck_fuel _ fuel fuel') in Hbn'
        by (unfold fuel'; try lia; by rewrite Hbn).
      rewrite Hbn in Hbn'. injection Hbn' as ->.
      by rewrite (parent_path_fun _ _ _ _ _ Hpath Hpath').
  - intros h3 t' max_flow' Hrun.
    set (fuel' := (fuel + fuel_bound m source)%nat).
    destruct (edmonds_karp_valid h capacity m source sink Htable Hsq Hsource
      fuel') as (h4 & t'' & z & hist' & r' & Hrun' & Hr' & _ & Hinv');
      [unfold fuel'; lia|].
    rewrite (edmonds_karp_fuel fuel fuel') in Hrun'
      by (unfold fuel'; try lia; by rewrite Hrun).
    rewrite Hrun in Hrun'. injection Hrun' as -> -> ->.
    exists r'. split; [done|]. by eapply ek_inv_nonneg.
Qed.

Lemma residual_nonneg_witness :
  ∃ r, table_at [Row [0; 2]; Row [0; 0]; Table [0; 1]%nat;
                 Row [0; 0]; Row [2; 0]; Table [3; 4]%nat] 5 = Some r ∧
       nonneg r ∧
    (∀ h'' parent' max_flow' p pf,
       Code.ek_body (Residual0 := heap_residual 5) 2 0 1 3
         [Row [0; 2]; Row [0; 0]; Table [0; 1]%nat;
          Row [0; 0]; Row [2; 0]; Table [3; 4]%nat] [0; 0] (Int 2)
         = Done h'' (Some (parent', max_flow')) →
       parent_path 0 parent' 1 p →
       Code.bottleneck (Residual0 := heap_residual 5) 0 3
         [Row [0; 2]; Row [0; 0]; Table [0; 1]%nat;
          Row [0; 0]; Row [2; 0]; Table [3; 4]%nat] parent' 1 Inf
         = Ok (Int pf) →
       0 < pf ∧ Forall (λ e, pf ≤ cell r e.1 e.2) (edges p)) ∧
    (∀ h3 t' max_flow',
       Code.edmonds_karp 3 (store_of tiny) 2 0 1 = Done h3 (t', max_flow') →
       ∃ r', table_at h3 t' = Some r' ∧ nonneg r').
Proof.
  destruct valid_network_tiny as (Hsq & Hnn & Hsource & _).
  apply (residual_nonneg (store_of tiny) 2 tiny 0 1 3
    [Row [0; 2]; Row [0; 0]; Table [0; 1]%nat;
     Row [0; 2]; Row [0; 0]; Table [3; 4]%nat]
    2 5%nat [-1; -1] [([1; 0], 2)] _ [0; 0] (Int 2)).
  - reflexivity.
  - exact Hsq.
  - exact Hnn.
  - exact Hsource.
  - reflexivity.
  - eapply solving_step.
    + apply solving_start.
    + reflexivity.
    + apply path_step with 0; [lia|reflexivity|apply path_source].
    + reflexivity.
Defined.

(** * What the search finds and what it misses *)

Section Complete.
Variables (n : nat) (r : matrix) (source sink : Z).
Hypothesis Hsq : square n r.
Hypothesis Hsource : node n source.
Implicit Types (parent queue p : list Z) (u v w : Z).

Lemma chain_reach parent v p :
  chain n r source parent v p → reach n r source v.
Proof.
  induction 1 as [|v u p Hv Hne Hp Hpos Hnin Hc IH]; [by constructor|].
  by apply reach_edge with u.
Qed.

Lemma discovered_insert parent v u w :
  u ≠ -1 → discovered parent w →
  parent !! Z.to_nat v = Some (-1) →
  discovered (<[Z.to_nat v := u]> parent) w.
Proof.
  intros Hu (x & Hx & Hne) Hv.
  destruct (decide (Z.to_nat v = Z.to_nat w)) as [Heq|Hneq].
  - rewrite Heq in Hv. congruence.
  - exists x. by rewrite list_lookup_insert_ne.
Qed.

Lemma discovered_insert_inv parent v u w :
  node n v → node n w →
  discovered (<[Z.to_nat v := u]> parent) w → discovered parent w ∨ w = v.
Proof.
  intros Hv Hw (x & Hx & Hne).
  destruct (decide (w = v)) as [->|Hwv]; [by right|left].
  rewrite list_lookup_insert_ne in Hx by (unfold node in *; lia).
  by exists x.
Qed.

(** The loop [for v in range(n)] when it runs to its end: the nodes it
    reaches are appended to the queue, the sink is not among them, and
    every edge from [u] to a node of [vs] ends in a reached node. *)
Lemma bfs_for_scan u vs parent queue parent' queue' :
  length parent = n → node n u → Forall (node n) vs →
  Code.bfs_for sink r u vs parent queue = Ok (Next parent' queue') →
  length parent' = n ∧
  (∀ w, discovered parent w → discovered parent' w) ∧
  (∀ v, v ∈ vs → 0 < cell r u v → discovered parent' v) ∧
  (∃ new, queue' = queue ++ new ∧
     ∀ w, node n w → discovered parent' w → discovered parent w ∨ w ∈ new) ∧
  (node n sink → ¬ discovered parent sink → ¬ discovered parent' sink).
Proof.
  intros Hlen Hu Hvs. revert parent queue Hlen.
  induction Hvs as [|v vs Hv Hvs IH]; intros parent queue Hlen.
  { intros [= <- <-]. split_and!; try done.
    - intros v ?%elem_of_nil. done.
    - exists []. rewrite app_nil_r. split; [done|]. by left. }
  simpl.
  destruct (py_get_node parent v) as (pv & Hpv & ->).
  { rewrite Hlen. apply Hv. }
  simpl.
  assert (∀ parent0 queue0,
    length parent0 = n →
    (∀ w, discovered parent w → discovered parent0 w) →
    (0 < cell r u v → discovered parent0 v) →
    (∃ new0, queue0 = queue ++ new0 ∧
       ∀ w, node n w → discovered parent0 w →
            discovered parent w ∨ w ∈ new0) →
    (node n sink → ¬ discovered parent sink → ¬ discovered parent0 sink) →
    Code.bfs_for sink r u vs parent0 queue0 = Ok (Next parent' queue') →
    length parent' = n ∧
    (∀ w, discovered parent w → discovered parent' w) ∧
    (∀ v0, v0 ∈ v :: vs → 0 < cell r u v0 → discovered parent' v0) ∧
    (∃ new, queue' = queue ++ new ∧
       ∀ w, node n w → discovered parent' w → discovered parent w ∨ w ∈ new) ∧
    (node n sink → ¬ discovered parent sink → ¬ discovered parent' sink)) as Hrest.
  { intros parent0 queue0 Hlen0 Hmono0 Hv0 (new0 & -> & Hnew0) Hsink0 Hfor.
    destruct (IH _ _ Hlen0 Hfor)
      as (Hlen' & Hmono & Hscan & (new & -> & Hnew) & Hsink).
    split_and!; try done.
    - auto.
    - intros v0 [->|Hin]%elem_of_cons; auto.
    - exists (new0 ++ new). rewrite app_assoc. split; [done|].
      intros w Hw Hdw. destruct (Hnew w Hw Hdw) as [Hd0|Hin].
      + destruct (Hnew0 w Hw Hd0) as [?|?]; [by left|right].
        apply elem_of_app. by left.
      + right. apply elem_of_app. by right.
    - auto. }
  destruct (Z.eqb_spec pv (-1)) as [->|Hne].
  2:{ apply Hrest; try done.
      - intros _. by exists pv.
      - exists []. rewrite app_nil_r. split; [done|]. by left. }
  rewrite (mat_rd_cell n) by done. simpl.
  destruct (Z.ltb_spec 0 (cell r u v)) as [Hpos|Hle].
  2:{ apply Hrest; try done.
      - lia.
      - exists []. rewrite app_nil_r. split; [done|]. by left. }
  rewrite py_set_node by (rewrite Hlen; apply Hv). simpl.
  destruct (Z.eqb_spec v sink) as [<-|Hsink]; [done|].
  assert (u ≠ -1) as Hu' by (unfold node in Hu; lia).
  apply Hrest.
  - by rewrite length_insert.
  - intros w Hw. by apply discovered_insert.
  - intros _. exists u. split; [|done].
    apply list_lookup_insert_eq. rewrite Hlen. unfold node in Hv. lia.
  - exists [v]. split; [done|]. intros w Hw Hdw.
    destruct (discovered_insert_inv parent v u w Hv Hw Hdw) as [?| ->];
      [by left|right]. by apply list_elem_of_singleton.
  - intros Ht Hns Hds.
    destruct (discovered_insert_inv parent v u sink Hv Ht Hds) as [?|?]; done.
Qed.

Lemma reach_node u v : reach n r u v → node n v.
Proof. by intros []. Qed.

(** Once the search is done with every node it has reached, it has
    reached every node that can be reached. *)
Lemma closed_reach parent v :
  discovered parent source →
  (∀ u, node n u → discovered parent u → closed n r parent u) →
  reach n r source v → discovered parent v.
Proof.
  intros Hs Hclosed. induction 1 as [|v w Hv IH Hw Hpos]; [done|].
  apply (Hclosed v); try done. by eapply reach_node.
Qed.

(** The loop [while queue] when it returns [False]. *)
Lemma bfs_while_closed fuel parent queue parent' :
  parent_inv n r source parent → queue_ok n parent queue →
  (∀ u, node n u → discovered parent u →
        u ∈ queue ∨ closed n r parent u) →
  Code.bfs_while n sink fuel r parent queue = Ok (false, parent') →
  parent_inv n r source parent' ∧
  (∀ u, node n u → discovered parent' u → closed n r parent' u) ∧
  (node n sink → ¬ discovered parent sink → ¬ discovered parent' sink).
Proof.
  revert parent queue.
  induction fuel as [|fuel IH]; intros parent queue Hinv Hq Hclosed; [done|].
  simpl. destruct queue as [|u queue].
  { intros [= <-]. split_and!; try done.
    intros u Hu Hdu. destruct (Hclosed u Hu Hdu) as [?%elem_of_nil|?]; done. }
  apply Forall_cons in Hq as [[Hu Hdu] Hq].
  destruct (bfs_for_spec n r source sink Hsq Hsource u (range n) parent queue
    Hinv Hq Hu Hdu (Forall_node_range n)) as (res & Hfor & Hres).
  rewrite Hfor. simpl. destruct res as [parent1|parent1 queue1]; [done|].
  destruct Hres as (Hinv1 & Hq1 & _).
  destruct (bfs_for_scan u (range n) parent queue parent1 queue1
    (pi_length _ _ _ _ Hinv) Hu (Forall_node_range n) Hfor)
    as (_ & Hmono & Hscan & (new & -> & Hnew) & Hsink).
  intros Hwhile.
  destruct (IH parent1 (queue ++ new) Hinv1 Hq1) as (? & ? & Hsink');
    [|done|].
  - intros w Hw Hdw. destruct (Hnew w Hw Hdw) as [Hd|Hin].
    + destruct (Hclosed w Hw Hd) as [[->|Hin]%elem_of_cons|Hcl].
      * right. intros v Hv Hpos. apply Hscan; [|done].
        by apply elem_of_range.
      * left. apply elem_of_app. by left.
      * right. intros v Hv Hpos. by apply Hmono, Hcl.
    + left. apply elem_of_app. by right.
  - split_and!; try done. auto.
Qed.

(** [bfs()] returns [False] only when it has reached every node that
    can be reached from the source, and the sink is not one of them. *)
Lemma bfs_false fuel parent parent' :
  length parent = n →
  Code.bfs n source sink fuel r parent = Ok (false, parent') →
  length parent' = n ∧
  discovered parent' source ∧
  (∀ u, node n u → discovered parent' u → closed n r parent' u) ∧
  (∀ v, reach n r source v → discovered parent' v) ∧
  (node n sink → sink ≠ source → ¬ discovered parent' sink).
Proof.
  intros Hlen. unfold Code.bfs.
  pose proof (bfs_reset_all parent) as Hreset.
  rewrite Hlen in Hreset. rewrite Hreset. simpl.
  rewrite py_set_node by (by rewrite length_replicate). simpl.
  set (parent1 := <[Z.to_nat source := source]> (replicate n (-1))).
  assert (parent1 !! Z.to_nat source = Some source) as Hs.
  { apply list_lookup_insert_eq. rewrite length_replicate.
    unfold node in Hsource. lia. }
  assert (∀ v, node n v → discovered parent1 v → v = source) as Honly.
  { intros v Hv (x & Hx & Hne). destruct (decide (v = source)); [done|].
    unfold parent1 in Hx.
    rewrite list_lookup_insert_ne in Hx by (unfold node in *; lia).
    apply lookup_replicate in Hx as [-> _]. done. }
  intros Hwhile.
  destruct (bfs_while_closed fuel parent1 [source] parent')
    as (Hinv & Hclosed & Hsink); try done.
  - split; [unfold parent1; by rewrite length_insert, length_replicate
           |done|].
    intros v Hv Hd. rewrite (Honly v Hv Hd). exists [source]. constructor.
  - apply Forall_singleton. split; [done|].
    exists source. split; [done|]. unfold node in Hsource. lia.
  - intros u Hu Hd. left. rewrite (Honly u Hu Hd).
    by apply list_elem_of_singleton.
  - assert (discovered parent' source) as Hds.
    { exists source. split; [apply Hinv|]. unfold node in Hsource. lia. }
    split_and!; try done; [apply Hinv| |].
    + intros v. by apply closed_reach.
    + intros Ht Hne. apply Hsink; [done|].
      intros Hd. by apply Hne, Honly.
Qed.

(** [bfs()] returns [True] exactly when the sink is a node other than
    the source that can be reached from the source; [parent] then holds
    a path from the sink back to the source, through distinct nodes and
    along edges with a positive entry. *)
Lemma bfs_iff fuel parent :
  length parent = n → (n < fuel)%nat →
  ∃ b parent',
    Code.bfs n source sink fuel r parent = Ok (b, parent') ∧
    (b = true ↔ node n sink ∧ sink ≠ source ∧ reach n r source sink) ∧
    (b = true →
     ∃ p, parent_path source parent' sink p ∧ NoDup p ∧
          Forall (node n) p ∧
          Forall (λ e, 0 < cell r e.1 e.2) (edges p)).
Proof.
  intros Hlen Hfuel.
  destruct (bfs_spec n r source sink Hsq Hsource fuel parent Hlen Hfuel)
    as (b & parent' & Hbfs & Hlen' & Hb).
  exists b, parent'. split; [done|]. destruct b.
  - destruct Hb as (Hsink & Hne & p & Hc); [done|]. split.
    + split; [|done]. intros _. split_and!; try done.
      by eapply chain_reach.
    + intros _. exists p. split_and!.
      * by eapply chain_parent_path.
      * by eapply chain_NoDup.
      * exact (chain_nodes n r source Hsource _ _ _ Hc).
      * eapply Forall_impl;
          [exact (chain_edges_ok n source Hsource _ _ _ _ Hc)|].
        by intros e [? _].
  - split; [|done]. split; [done|]. intros (Hsink & Hne & Hreach).
    destruct (bfs_false fuel parent parent' Hlen Hbfs)
      as (_ & _ & _ & Hall & Hnot).
    exfalso. by apply Hnot, Hall.
Qed.
End Complete.

(** * Flows and cuts *)

Lemma sum_over_swap l1 l2 (g : Z → Z → Z) :
  sum_over l1 (λ a, sum_over l2 (λ b, g a b))
  = sum_over l2 (λ b, sum_over l1 (λ a, g a b)).
Proof.
  induction l1 as [|x l1 IH]; simpl.
  - by rewrite sum_over_zero.
  - by rewrite IH, sum_over_add.
Qed.

Lemma sum_over_le l f g :
  (∀ v, v ∈ l → f v ≤ g v) → sum_over l f ≤ sum_over l g.
Proof.
  intros Hfg.
  assert (0 ≤ sum_over l (λ v, g v + -1 * f v)) as Hnn.
  { apply sum_over_nonneg. intros v Hv. specialize (Hfg v Hv). lia. }
  rewrite sum_over_add, sum_over_scale in Hnn. lia.
Qed.

(** An antisymmetric function sums to 0 over all pairs. *)
Lemma sum_over_antisym l (w : Z → Z → Z) :
  (∀ a b, a ∈ l → b ∈ l → w a b = - w b a) →
  sum_over l (λ a, sum_over l (λ b, w a b)) = 0.
Proof.
  intros Hw.
  assert (sum_over l (λ a, sum_over l (λ b, w a b))
          = -1 * sum_over l (λ a, sum_over l (λ b, w a b))); [|lia].
  rewrite sum_over_swap at 1. rewrite <-sum_over_scale.
  apply sum_over_ext. intros a Ha. rewrite <-sum_over_scale.
  apply sum_over_ext. intros b Hb. rewrite (Hw b a) by done. lia.
Qed.

Section Cut.
Variables (n : nat) (source sink : Z) (S : Z → bool).
Hypothesis Hsource : node n source.
Hypothesis HS_source : S source = true.
Hypothesis HS_sink : S sink = false.

(** What an antisymmetric function that is conserved away from the
    source and the sink sends out of the source is what it sends across
    the cut. *)
Lemma across_cut (f : Z → Z → Z) :
  (∀ a b, node n a → node n b → f a b = - f b a) →
  (∀ a, node n a → a ≠ source → a ≠ sink → sum_nodes n (f a) = 0) →
  sum_nodes n (f source)
  = sum_nodes n (λ a,
      sum_nodes n (λ b, if S a && negb (S b) then f a b else 0)).
Proof.
  intros Hanti Hcons.
  assert (sum_nodes n (λ a,
            sum_nodes n (λ b, if S a && S b then f a b else 0)) = 0)
    as Hinner.
  { apply sum_over_antisym. intros a b Ha%elem_of_range Hb%elem_of_range.
    rewrite (andb_comm (S b)). destruct (S a && S b); [by apply Hanti|done]. }
  assert (sum_nodes n (λ a, sum_nodes n (λ b, if S a then f a b else 0))
          = sum_nodes n (f source)) as Hout.
  { rewrite (sum_nodes_ext n _ (λ a, sum_nodes n (f source) * ind (a = source))).
    - rewrite sum_nodes_over, sum_over_scale, <-sum_nodes_over.
      rewrite sum_nodes_ind. unfold ind. rewrite decide_True by done. lia.
    - intros a Ha. unfold ind. destruct (decide (a = source)) as [->|Hne].
      + rewrite HS_source, (sum_nodes_ext n _ (f source)) by done. lia.
      + destruct (S a) eqn:HSa.
        * rewrite (sum_nodes_ext n _ (f a)) by done.
          rewrite (Hcons a); [lia|done..|]. intros ->. congruence.
        * rewrite sum_nodes_over, sum_over_zero by done. lia. }
  rewrite <-Hout.
  assert (∀ g h : Z → Z, sum_nodes n g = sum_nodes n h + 0 →
                         sum_nodes n g = sum_nodes n h) as Hadd by (intros; lia).
  apply Hadd. rewrite <-Hinner at 1.
  rewrite !sum_nodes_over, <-sum_over_add. apply sum_over_ext. intros a _.
  rewrite !sum_nodes_over, <-sum_over_add.
  apply sum_over_ext. intros b _.
  destruct (S a), (S b); simpl; lia.
Qed.

(** Weak duality: no flow is worth more than a cut. *)
Lemma flow_value_le_cut m g :
  feasible_flow n m source sink g →
  flow_value n source g ≤ cut_capacity n m S.
Proof.
  intros [Hcap Hcons]. unfold flow_value, cut_capacity.
  assert (sum_nodes n (g source) - sum_nodes n (λ b, g b source)
          = sum_nodes n (λ b, g source b - g b source)) as ->.
  { rewrite !sum_nodes_over.
    rewrite (sum_over_ext _ (λ b, g source b - g b source)
      (λ b, g source b + -1 * g b source)) by (intros; lia).
    rewrite sum_over_add, sum_over_scale. cbv beta. lia. }
  rewrite (across_cut (λ a b, g a b - g b a)).
  - apply sum_over_le. intros a Ha%elem_of_range.
    apply sum_over_le. intros b Hb%elem_of_range.
    pose proof (Hcap a b Ha Hb). pose proof (Hcap b a Hb Ha).
    destruct (S a && negb (S b)); lia.
  - intros a b _ _. lia.
  - intros a Ha Has Hat. rewrite sum_nodes_over.
    rewrite (sum_over_ext _ _ (λ b, g a b + -1 * g b a)) by (intros; lia).
    rewrite sum_over_add, sum_over_scale, <-!sum_nodes_over.
    rewrite (Hcons a) by done. lia.
Qed.
End Cut.

(** * The state in which the main loop stops *)

Lemma ek_body_None {St : Type} `{!Residual St} n source sink fuel
    (s s' : St) parent max_flow :
  Code.ek_body n source sink fuel s parent max_flow = Done s' None →
  ∃ parent', Code.bfs n source sink fuel s parent = Ok (false, parent').
Proof.
  unfold Code.ek_body.
  destruct (Code.bfs n source sink fuel s parent) as [[[] parent']| |];
    simpl; try done; [|by eauto].
  destruct (Code.bottleneck source fuel s parent' sink Inf) as [[pf|]| |];
    simpl; try done.
  by destruct (Code.augment source fuel s parent' sink pf) as [? []| |].
Qed.

Lemma reached_discovered n parent a :
  length parent = n → node n a →
  reached parent a = true ↔ discovered parent a.
Proof.
  intros Hlen Ha. unfold reached, discovered.
  destruct (lookup_lt_is_Some_2 parent (Z.to_nat a)) as [x Hx].
  { unfold node in Ha. lia. }
  rewrite (list_lookup_total_correct _ _ _ Hx).
  destruct (Z.eqb_spec x (-1)) as [->|Hne]; simpl.
  - split; [done|]. intros (y & Hy & ?). congruence.
  - split; [|done]. intros _. by exists x.
Qed.

Section Final.
Variables (n : nat) (source sink : Z) (cap : matrix).
Hypothesis Hcap : square n cap.
Hypothesis Hsource : node n source.

(** The main loop ends in a state that satisfies the invariant and in
    which [bfs()] is false. *)
Lemma ek_while_final fuel k hist r parent z :
  ek_inv n source sink cap hist r (Int z) →
  length parent = n → (n < fuel)%nat →
  z ≤ sum_nodes n (λ v, Z.max 0 (cell cap source v)) →
  sum_nodes n (λ v, Z.max 0 (cell cap source v)) - z < Z.of_nat k →
  ∃ hist' r' z' parent1 parent2,
    Code.ek_while n source sink fuel k r parent (Int z) = Done r' (Int z') ∧
    ek_inv n source sink cap hist' r' (Int z') ∧
    length parent1 = n ∧
    Code.bfs n source sink fuel r' parent1 = Ok (false, parent2).
Proof.
  revert hist r parent z.
  induction k as [|k IH]; intros hist r parent z Hinv Hlen Hfuel Hz Hk;
    [lia|].
  simpl.
  destruct (ek_body_spec n source sink Hsource fuel r parent (Int z)
    (inv_square _ _ _ _ _ _ _ Hinv) Hlen Hfuel)
    as [Hstop|(parent' & p & pf & Hlen' & Hsink & Hne & Hc & Hpos
      & Hle & _ & ->)].
  { rewrite Hstop. destruct (ek_body_None _ _ _ _ _ _ _ _ Hstop) as [p Hp].
    by exists hist, r, z, parent, p. }
  pose proof (ek_inv_step n source sink cap Hsource _ _ _ _ _ _ Hinv Hc
    Hsink Hpos Hle) as Hinv'.
  simpl in *. pose proof (ek_inv_bound n source sink cap Hsource _ _ _ Hinv'
    Hne).
  apply (IH _ _ _ _ Hinv' Hlen' Hfuel); lia.
Qed.

(** The run on the content of the table: its result, and the set of
    nodes that the last search reached. *)
Lemma solve_final fuel :
  n = length cap → (fuel_bound cap source ≤ fuel)%nat →
  ∃ hist r z parent,
    solve fuel cap source sink = Done r (Int z) ∧
    ek_inv n source sink cap hist r (Int z) ∧
    reached parent source = true ∧
    (node n sink → sink ≠ source → reached parent sink = false) ∧
    (∀ a b, node n a → node n b →
       reached parent a = true → reached parent b = false →
       cell r a b ≤ 0) ∧
    (∀ v, reach n r source v → reached parent v = true).
Proof.
  intros Hn Hfuel. unfold solve, fuel_bound in *. rewrite <-Hn in *.
  assert (0 ≤ sum_nodes n (λ v, Z.max 0 (cell cap source v))) as Hnn.
  { apply sum_over_nonneg. intros. lia. }
  destruct (ek_while_final fuel fuel [] cap (replicate n (-1)) 0)
    as (hist & r & z & parent1 & parent & Hwhile & Hinv & Hlen & Hbfs);
    [apply ek_inv_start; done|by rewrite length_replicate|lia..|].
  destruct (bfs_false n r source sink (inv_square _ _ _ _ _ _ _ Hinv)
    Hsource fuel parent1 parent Hlen Hbfs)
    as (Hlen' & Hds & Hclosed & Hall & Hsink).
  exists hist, r, z, parent. split_and!; try done.
  - by apply (reached_discovered n).
  - intros Ht Hne. apply not_true_is_false.
    intros Hr. apply (reached_discovered n) in Hr; try done.
    by apply Hsink.
  - intros a b Ha Hb Hra Hrb.
    destruct (Z.le_gt_cases (cell r a b) 0) as [?|Hpos]; [done|].
    apply (reached_discovered n) in Hra; try done.
    assert (reached parent b = true); [|congruence].
    apply (reached_discovered n); try done.
    apply (Hclosed a); try done; lia.
  - intros v Hv. apply (reached_discovered n); try done.
    + by eapply reach_node.
    + by apply Hall.
Qed.
End Final.

(** The positive parts of an antisymmetric function: what they send out
    of a node minus what they send into it is what the function sends
    out of it. *)
Lemma sum_nodes_clamp n (f : Z → Z → Z) a :
  node n a → (∀ b, node n b → f a b = - f b a) →
  sum_nodes n (λ b, Z.max 0 (f a b)) - sum_nodes n (λ b, Z.max 0 (f b a))
  = sum_nodes n (f a).
Proof.
  intros Ha Hanti.
  rewrite !sum_nodes_over.
  assert (∀ x y z : Z, x + -1 * y = z → x - y = z) as Hsub by (intros; lia).
  apply Hsub. rewrite <-sum_over_scale, <-sum_over_add.
  apply sum_over_ext. intros b Hb%elem_of_range.
  rewrite (Hanti b Hb). lia.
Qed.

(** The flow of the augmentations, clamped at 0 on every pair, is a flow
    of the network, and its value is [max_flow]. *)
Lemma clamped_flow_feasible n source sink cap hist r z :
  square n cap → nonneg cap → node n source → sink ≠ source →
  ek_inv n source sink cap hist r (Int z) →
  feasible_flow n cap source sink (λ a b, Z.max 0 (flow_pushed hist a b)) ∧
  flow_value n source (λ a b, Z.max 0 (flow_pushed hist a b)) = z.
Proof.
  intros Hcap Hnn Hsource Hne Hinv.
  pose proof (ek_inv_nonneg _ _ _ _ _ _ _ Hcap Hnn Hinv) as Hnn'.
  destruct (inv_flow _ _ _ _ _ _ _ Hinv) as (z' & [= <-] & _ & Hsum).
  split; [split|].
  - intros a b Ha Hb.
    pose proof (inv_cell _ _ _ _ _ _ _ Hinv a b Ha Hb).
    pose proof (nonneg_cell n cap a b Hcap Hnn Ha Hb).
    pose proof (nonneg_cell n r a b (inv_square _ _ _ _ _ _ _ Hinv) Hnn'
      Ha Hb). lia.
  - intros a Ha Has Hat.
    pose proof (sum_nodes_clamp n (flow_pushed hist) a Ha
      (λ b _, flow_pushed_antisym hist a b)) as Hclamp.
    rewrite (Hsum a Ha) in Hclamp. unfold ind in Hclamp.
    rewrite !decide_False in Hclamp by done. cbv beta. lia.
  - unfold flow_value.
    pose proof (sum_nodes_clamp n (flow_pushed hist) source Hsource
      (λ b _, flow_pushed_antisym hist source b)) as Hclamp.
    rewrite (Hsum source Hsource) in Hclamp. unfold ind in Hclamp.
    rewrite decide_True, decide_False in Hclamp by done. cbv beta. lia.
Qed.

(** Across the cut of the nodes that the last search reached, every
    edge is full and nothing flows back: [max_flow] is the capacity of
    that cut. *)
Lemma reached_cut n source sink cap hist r z (S : Z → bool) :
  square n cap → nonneg cap → node n source →
  ek_inv n source sink cap hist r (Int z) →
  S source = true → S sink = false →
  (∀ a b, node n a → node n b → S a = true → S b = false →
          cell r a b ≤ 0) →
  z = cut_capacity n cap S.
Proof.
  intros Hcap Hnn Hsource Hinv HSs HSt Hfull.
  pose proof (ek_inv_nonneg _ _ _ _ _ _ _ Hcap Hnn Hinv) as Hnn'.
  destruct (inv_flow _ _ _ _ _ _ _ Hinv) as (z' & [= <-] & _ & Hsum).
  assert (sink ≠ source) as Hne by (intros ->; congruence).
  assert (z = sum_nodes n (flow_pushed hist source)) as ->.
  { rewrite (Hsum source Hsource). unfold ind.
    rewrite decide_True, decide_False by done. lia. }
  rewrite (across_cut n source sink S Hsource HSs HSt).
  - unfold cut_capacity. apply sum_nodes_ext. intros a Ha.
    apply sum_nodes_ext. intros b Hb.
    destruct (S a) eqn:HSa, (S b) eqn:HSb; simpl; try done.
    pose proof (inv_cell _ _ _ _ _ _ _ Hinv a b Ha Hb).
    pose proof (Hfull a b Ha Hb HSa HSb).
    pose proof (nonneg_cell n r a b (inv_square _ _ _ _ _ _ _ Hinv) Hnn'
      Ha Hb). lia.
  - intros a b _ _. apply flow_pushed_antisym.
  - intros a Ha Has Hat. rewrite (Hsum a Ha). unfold ind.
    rewrite !decide_False by done. lia.
Qed.

(** * The solver computes a maximum flow *)

Lemma square_cell_eq n (r m : matrix) :
  square n r → square n m →
  (∀ a b, node n a → node n b → cell r a b = cell m a b) → r = m.
Proof.
  intros [Hr Hrows] [Hm Hrows'] Hcell.
  apply (list_eq_same_length _ _ n); try done.
  intros i x y Hi Hx Hy.
  pose proof (Forall_lookup_1 _ _ _ _ Hrows Hx) as Hlx.
  pose proof (Forall_lookup_1 _ _ _ _ Hrows' Hy) as Hly.
  apply (list_eq_same_length _ _ n); try done.
  intros j c d Hj Hc Hd.
  specialize (Hcell (Z.of_nat i) (Z.of_nat j)). unfold cell, node in Hcell.
  rewrite !Nat2Z.id in Hcell.
  rewrite (list_lookup_total_correct _ _ _ Hx),
    (list_lookup_total_correct _ _ _ Hy),
    (list_lookup_total_correct _ _ _ Hc),
    (list_lookup_total_correct _ _ _ Hd) in Hcell.
  apply Hcell; lia.
Qed.

Lemma feasible_flow_ext n m source sink (g g' : Z → Z → Z) :
  (∀ a b, node n a → node n b → g' a b = g a b) →
  feasible_flow n m source sink g → feasible_flow n m source sink g'.
Proof.
  intros Hext [Hcap Hcons]. split.
  - intros a b Ha Hb. rewrite Hext by done. by apply Hcap.
  - intros a Ha Has Hat.
    rewrite (sum_nodes_ext n (λ b, g' b a) (λ b, g b a)),
      (sum_nodes_ext n (g' a) (g a)); [by apply Hcons|..];
      intros b Hb; by apply Hext.
Qed.

Lemma flow_value_ext n source (g g' : Z → Z → Z) :
  node n source →
  (∀ a b, node n a → node n b → g' a b = g a b) →
  flow_value n source g' = flow_value n source g.
Proof.
  intros Hsource Hext. unfold flow_value.
  rewrite (sum_nodes_ext n (λ b, g' b source) (λ b, g b source)),
    (sum_nodes_ext n (g' source) (g source)); [done|..];
    intros b Hb; by apply Hext.
Qed.

(** When the search cannot reach the sink, the loop makes no
    iteration. *)
Lemma solve_unreachable fuel r source sink :
  square (length r) r → node (length r) source →
  ¬ (node (length r) sink ∧ sink ≠ source ∧
     reach (length r) r source sink) →
  (length r < fuel)%nat →
  solve fuel r source sink = Done r (Int 0).
Proof.
  intros Hsq Hsource Hsink Hfuel. unfold solve.
  destruct fuel as [|fuel]; [lia|]. cbn [Code.ek_while].
  destruct (ek_body_spec (length r) source sink Hsource (S fuel) r
    (replicate (length r) (-1)) (Int 0) Hsq) as [->|Hstep]; try done.
  - by rewrite length_replicate.
  - destruct Hstep as (? & p & ? & _ & ? & ? & Hc & _).
    destruct Hsink. split_and!; try done. by eapply chain_reach.
Qed.

Section Final.
Variables (h : heap) (capacity : loc) (m : matrix) (source sink : Z).
Hypothesis Htable : table_at h capacity = Some m.
Hypothesis Hsq : square (length m) m.
Hypothesis Hsource : node (length m) source.

(** The run on a square table: what it returns, and the nodes that its
    last search reached. *)
Lemma edmonds_karp_final fuel :
  (fuel_bound m source ≤ fuel)%nat →
  ∃ h' t z hist r parent,
    Code.edmonds_karp fuel h capacity source sink = Done h' (t, Int z) ∧
    solve fuel m source sink = Done r (Int z) ∧
    models t h' r ∧ extends h t h' ∧
    ek_inv (length m) source sink m hist r (Int z) ∧
    reached parent source = true ∧
    (node (length m) sink → sink ≠ source → reached parent sink = false) ∧
    (∀ a b, node (length m) a → node (length m) b →
       reached parent a = true → reached parent b = false →
       cell r a b ≤ 0) ∧
    (∀ v, reach (length m) r source v → reached parent v = true).
Proof.
  intros Hfuel.
  destruct (solve_final (length m) source sink m Hsq Hsource fuel eq_refl
    Hfuel) as (hist & r & z & parent & Hsolve & Hinv & Hs & Ht & Hfull
      & Hall).
  generalize (edmonds_karp_solve fuel h capacity m source sink Htable).
  rewrite Hsolve.
  destruct (Code.edmonds_karp fuel h capacity source sink)
    as [h' [t mf]|h' e|]; try done.
  intros (-> & Hm & Hext). by exists h', t, z, hist, r, parent.
Qed.

(** On a valid network the flow value that the run returns is the
    capacity of a cut. *)
Lemma edmonds_karp_cut fuel :
  nonneg m → node (length m) sink → source ≠ sink →
  (fuel_bound m source ≤ fuel)%nat →
  ∃ h' t z hist r (S : Z → bool),
    Code.edmonds_karp fuel h capacity source sink = Done h' (t, Int z) ∧
    table_at h' t = Some r ∧
    ek_inv (length m) source sink m hist r (Int z) ∧
    S source = true ∧ S sink = false ∧
    z = cut_capacity (length m) m S.
Proof.
  intros Hnn Hsink Hne Hfuel.
  destruct (edmonds_karp_final fuel Hfuel)
    as (h' & t & z & hist & r & parent & Hrun & _ & Hm & _ & Hinv & Hs & Ht
      & Hfull & _).
  assert (reached parent sink = false) as Ht' by (apply Ht; done).
  exists h', t, z, hist, r, (reached parent).
  split_and!; try done; [by apply models_table_at|].
  by apply (reached_cut (length m) source sink m hist r z).
Qed.
End Final.

(** X2: on a valid network the flow value that [edmonds_karp] returns
    is the capacity of a cut between the source and the sink (the total
    capacity of the edges that leave a set of nodes with the source in
    it and the sink outside), and no such cut has a smaller capacity:
    the solver returns the capacity of a minimum cut. *)
Theorem max_flow_min_cut h capacity m source sink fuel :
  table_at h capacity = Some m → valid_network m source sink →
  (fuel_bound m source ≤ fuel)%nat →
  ∃ h' t z (S : Z → bool),
    Code.edmonds_karp fuel h capacity source sink = Done h' (t, Int z) ∧
    S source = true ∧ S sink = false ∧
    z = cut_capacity (length m) m S ∧
    ∀ S' : Z → bool, S' source = true → S' sink = false →
      z ≤ cut_capacity (length m) m S'.
Proof.
  intros Htable (Hsq & Hnn & Hsource & Hsink & Hne) Hfuel.
  destruct (edmonds_karp_cut h capacity m source sink Htable Hsq Hsource
    fuel Hnn Hsink Hne Hfuel)
    as (h' & t & z & hist & r & S & Hrun & _ & Hinv & Hs & Ht & Hcut).
  exists h', t, z, S. split_and!; try done.
  intros S' HS's HS't.
  destruct (clamped_flow_feasible (length m) source sink m hist r z)
    as [Hfeas <-]; try done.
  by apply (flow_value_le_cut (length m) source sink S').
Qed.

Lemma max_flow_min_cut_witness :
  ∃ h' t z (S : Z → bool),
    Code.edmonds_karp 5 (store_of tiny) 2 0 1 = Done h' (t, Int z) ∧
    S 0 = true ∧ S 1 = false ∧
    z = cut_capacity (length tiny) tiny S ∧
    ∀ S' : Z → bool, S' 0 = true → S' 1 = false →
      z ≤ cut_capacity (length tiny) tiny S'.
Proof.
  apply (max_flow_min_cut (store_of tiny) 2 tiny 0 1 5).
  - reflexivity.
  - exact valid_network_tiny.
  - vm_compute. lia.
Defined.

(** X3: on a valid network no flow has a value above the one that
    [edmonds_karp] returns.  A flow gives every pair of nodes an amount
    between 0 and the capacity, with as much into as out of every node
    but the source and the sink; its value is what leaves the source
    minus what enters it. *)
Theorem max_flow_maximal h capacity m source sink fuel :
  table_at h capacity = Some m → valid_network m source sink →
  (fuel_bound m source ≤ fuel)%nat →
  ∃ h' t z,
    Code.edmonds_karp fuel h capacity source sink = Done h' (t, Int z) ∧
    ∀ g, feasible_flow (length m) m source sink g →
         flow_value (length m) source g ≤ z.
Proof.
  intros Htable (Hsq & Hnn & Hsource & Hsink & Hne) Hfuel.
  destruct (edmonds_karp_cut h capacity m source sink Htable Hsq Hsource
    fuel Hnn Hsink Hne Hfuel)
    as (h' & t & z & hist & r & S & Hrun & _ & _ & Hs & Ht & ->).
  exists h', t, (cut_capacity (length m) m S). split; [done|].
  intros g Hg. by apply (flow_value_le_cut (length m) source sink S).
Qed.

Lemma max_flow_maximal_witness :
  ∃ h' t z,
    Code.edmonds_karp 5 (store_of tiny) 2 0 1 = Done h' (t, Int z) ∧
    ∀ g, feasible_flow (length tiny) tiny 0 1 g →
         flow_value (length tiny) 0 g ≤ z.
Proof.
  apply (max_flow_maximal (store_of tiny) 2 tiny 0 1 5).
  - reflexivity.
  - exact valid_network_tiny.
  - vm_compute. lia.
Defined.

(** X4: on a valid network, the table that [compute_forward_flow] of
    codeNew.py derives from the capacities and the returned residual
    table is a flow of the network, and its value is the returned
    [max_flow]. *)
Theorem forward_flow_feasible h capacity m source sink fuel :
  table_at h capacity = Some m → valid_network m source sink →
  (fuel_bound m source ≤ fuel)%nat →
  ∃ h' t z r forward_flow,
    Code.edmonds_karp fuel h capacity source sink = Done h' (t, Int z) ∧
    table_at h' t = Some r ∧
    CodeNew.compute_forward_flow m r = Ok forward_flow ∧
    square (length m) forward_flow ∧
    feasible_flow (length m) m source sink (cell forward_flow) ∧
    flow_value (length m) source (cell forward_flow) = z.
Proof.
  intros Htable (Hsq & Hnn & Hsource & Hsink & Hne) Hfuel.
  destruct (edmonds_karp_valid h capacity m source sink Htable Hsq Hsource
    fuel Hfuel) as (h' & t & z & hist & r & Hrun & Hr & _ & Hinv).
  pose proof (ek_inv_nonneg _ _ _ _ _ _ _ Hsq Hnn Hinv) as Hnn'.
  destruct (compute_forward_flow_new m r Hsq (inv_square _ _ _ _ _ _ _ Hinv))
    as (fl & Hfl & Hsq' & Hcell).
  exists h', t, z, r, fl.
  split_and!; try done.
  all: destruct (clamped_flow_feasible (length m) source sink m hist r z)
    as [Hfeas Hval]; try done.
  all: assert (∀ a b, node (length m) a → node (length m) b →
    cell fl a b = Z.max 0 (flow_pushed hist a b)) as Hext.
  all: try (intros a b Ha Hb; rewrite Hcell by done;
    pose proof (inv_cell _ _ _ _ _ _ _ Hinv a b Ha Hb);
    pose proof (nonneg_cell _ m a b Hsq Hnn Ha Hb);
    pose proof (nonneg_cell _ r a b (inv_square _ _ _ _ _ _ _ Hinv) Hnn'
      Ha Hb);
    case_decide; lia).
  - exact (feasible_flow_ext _ _ _ _ _ _ Hext Hfeas).
  - rewrite <-Hval. by apply flow_value_ext.
Qed.

Lemma forward_flow_feasible_witness :
  ∃ h' t z r forward_flow,
    Code.edmonds_karp 5 (store_of tiny) 2 0 1 = Done h' (t, Int z) ∧
    table_at h' t = Some r ∧
    CodeNew.compute_forward_flow tiny r = Ok forward_flow ∧
    square (length tiny) forward_flow ∧
    feasible_flow (length tiny) tiny 0 1 (cell forward_flow) ∧
    flow_value (length tiny) 0 (cell forward_flow) = z.
Proof.
  apply (forward_flow_feasible (store_of tiny) 2 tiny 0 1 5).
  - reflexivity.
  - exact valid_network_tiny.
  - vm_compute. lia.
Defined.

(** * The two versions of [compute_forward_flow] *)

Lemma py_get_fmap {A B : Type} (f : A → B) (l : list A) i :
  py_get (f <$> l) i = x ← py_get l i; Ok (f x).
Proof.
  unfold py_get. rewrite length_fmap.
  destruct (py_index (length l) i) as [k|]; [|done].
  rewrite list_lookup_fmap. by destruct (l !! k).
Qed.

Lemma py_set_fmap {A B : Type} (f : A → B) (l : list A) i x :
  py_set (f <$> l) i (f x)
  = (l' ← py_set l i x; Ok (f <$> (l' : list A)) : outcome (list B)).
Proof.
  unfold py_set. rewrite length_fmap.
  destruct (py_index (length l) i) as [k|]; [|done]. simpl.
  by rewrite list_fmap_insert.
Qed.

Lemma mat_wr_clamp m u v x :
  mat_wr (clamp_table m) u v (Z.max 0 x)
  = m' ← mat_wr m u v x; Ok (clamp_table m').
Proof.
  unfold mat_wr, clamp_table. rewrite py_get_fmap.
  destruct (py_get m u) as [row| |]; simpl; try done.
  rewrite (py_set_fmap (Z.max 0)).
  destruct (py_set row v x) as [row'| |]; simpl; try done.
  apply (py_set_fmap (λ row : list Z, Z.max 0 <$> row)).
Qed.

Lemma flow_for_v_clamp capacity residual u vs flow :
  CodeNew.flow_for_v capacity residual u vs (clamp_table flow)
  = flow' ← CodeFinal.flow_for_v capacity residual u vs flow;
    Ok (clamp_table flow').
Proof.
  revert flow. induction vs as [|v vs IH]; intros flow; [done|]. simpl.
  destruct (mat_rd capacity u v) as [c| |]; simpl; try done.
  destruct (0 <? c); [|apply IH].
  destruct (mat_rd residual u v) as [x| |]; simpl; try done.
  rewrite mat_wr_clamp.
  destruct (mat_wr flow u v (c - x)) as [flow'| |]; simpl;
    [apply IH|done..].
Qed.

Lemma flow_for_u_clamp capacity residual n us flow :
  CodeNew.flow_for_u capacity residual n us (clamp_table flow)
  = flow' ← CodeFinal.flow_for_u capacity residual n us flow;
    Ok (clamp_table flow').
Proof.
  revert flow. induction us as [|u us IH]; intros flow; [done|]. simpl.
  rewrite flow_for_v_clamp.
  destruct (CodeFinal.flow_for_v capacity residual u (range n) flow)
    as [flow'| |]; simpl; [apply IH|done..].
Qed.

Lemma clamp_table_zero n : clamp_table (replicate n (replicate n 0))
  = replicate n (replicate n 0).
Proof. unfold clamp_table. by rewrite !fmap_replicate. Qed.

(** X5: whatever the two tables, [compute_forward_flow] of codeNew.py
    ends as [compute_forward_flow] of codeFinal.py does: it raises
    where codeFinal.py raises, and where codeFinal.py returns a table
    it returns that table with every negative entry replaced by 0. *)
Theorem forward_flow_clamps capacity residual :
  CodeNew.compute_forward_flow capacity residual
  = flow ← CodeFinal.compute_forward_flow capacity residual;
    Ok (clamp_table flow).
Proof.
  unfold CodeNew.compute_forward_flow, CodeFinal.compute_forward_flow.
  cbv zeta. rewrite <-flow_for_u_clamp. by rewrite clamp_table_zero.
Qed.

(** * Further properties of the solver *)

(** X1: in a store whose table [residual] is square, with a source that
    is a node, [bfs()] returns, and it returns [True] exactly when the
    sink is a node other than the source that can be reached from the
    source along edges with a positive entry in the table; [parent]
    then holds a path from the sink back to the source, through
    distinct nodes and along such edges. *)
Theorem bfs_true_iff_reachable h t r n source sink fuel parent :
  models t h r → square n r → node n source →
  length parent = n → (n < fuel)%nat →
  ∃ b parent',
    Code.bfs (Residual0 := heap_residual t) n source sink fuel h parent
      = Ok (b, parent') ∧
    (b = true ↔ node n sink ∧ sink ≠ source ∧ reach n r source sink) ∧
    (b = true →
     ∃ p, parent_path source parent' sink p ∧ NoDup p ∧
          Forall (node n) p ∧
          Forall (λ e, 0 < cell r e.1 e.2) (edges p)).
Proof.
  intros Hm Hsq Hsource Hlen Hfuel.
  rewrite (bfs_sim (heap_residual t) matrix_residual (models t)
    (heap_rd_models t) n source sink fuel h r parent Hm).
  by apply bfs_iff.
Qed.

Lemma bfs_true_iff_reachable_witness :
  ∃ b parent',
    Code.bfs (Residual0 := heap_residual 2) 2 0 1 3 (store_of tiny) [-1; -1]
      = Ok (b, parent') ∧
    (b = true ↔ node 2 1 ∧ 1 ≠ 0 ∧ reach 2 tiny 0 1) ∧
    (b = true →
     ∃ p, parent_path 0 parent' 1 p ∧ NoDup p ∧
          Forall (node 2) p ∧
          Forall (λ e, 0 < cell tiny e.1 e.2) (edges p)).
Proof.
  apply (bfs_true_iff_reachable (store_of tiny) 2 tiny 2 0 1 3 [-1; -1]).
  - exists [0; 1]%nat. split; [reflexivity|]. split.
    + apply NoDup_cons. split; [|apply NoDup_singleton].
      intros ?%list_elem_of_singleton. lia.
    + repeat constructor.
  - exact (proj1 valid_network_tiny).
  - unfold node. lia.
  - reflexivity.
  - lia.
Defined.

(** X6: on a valid network without opposite edges (no two nodes with a
    positive capacity in both directions), [compute_forward_flow] of
    codeFinal.py and of codeNew.py derive the same table from the
    returned residual table, and that table is a flow of the network
    whose value is the returned [max_flow]. *)
Theorem final_flow_feasible h capacity m source sink fuel :
  table_at h capacity = Some m → valid_network m source sink →
  (∀ u v, node (length m) u → node (length m) v →
          0 < cell m u v → cell m v u = 0) →
  (fuel_bound m source ≤ fuel)%nat →
  ∃ h' t z r flow,
    Code.edmonds_karp fuel h capacity source sink = Done h' (t, Int z) ∧
    table_at h' t = Some r ∧
    CodeFinal.compute_forward_flow m r = Ok flow ∧
    CodeNew.compute_forward_flow m r = Ok flow ∧
    feasible_flow (length m) m source sink (cell flow) ∧
    flow_value (length m) source (cell flow) = z.
Proof.
  intros Htable (Hsq & Hnn & Hsource & Hsink & Hne) Hopp Hfuel.
  destruct (edmonds_karp_valid h capacity m source sink Htable Hsq Hsource
    fuel Hfuel) as (h' & t & z & hist & r & Hrun & Hr & _ & Hinv).
  pose proof (ek_inv_nonneg _ _ _ _ _ _ _ Hsq Hnn Hinv) as Hnn'.
  pose proof (inv_square _ _ _ _ _ _ _ Hinv) as Hsq'.
  destruct (compute_forward_flow_final m r Hsq Hsq')
    as (fl & Hfl & Hsqf & Hcell).
  destruct (compute_forward_flow_new m r Hsq Hsq')
    as (fw & Hfw & Hsqw & Hcell').
  assert (∀ a b, node (length m) a → node (length m) b →
    cell fl a b = Z.max 0 (flow_pushed hist a b)) as Hext.
  { intros a b Ha Hb. rewrite Hcell by done.
    pose proof (inv_cell _ _ _ _ _ _ _ Hinv a b Ha Hb).
    pose proof (inv_cell _ _ _ _ _ _ _ Hinv b a Hb Ha).
    pose proof (flow_pushed_antisym hist a b).
    pose proof (nonneg_cell _ m a b Hsq Hnn Ha Hb).
    pose proof (nonneg_cell _ r a b Hsq' Hnn' Ha Hb).
    pose proof (nonneg_cell _ r b a Hsq' Hnn' Hb Ha).
    pose proof (Hopp a b Ha Hb).
    case_decide; lia. }
  assert (fw = fl) as ->.
  { apply (square_cell_eq (length m)); try done.
    intros a b Ha Hb. rewrite Hext, Hcell' by done.
    pose proof (inv_cell _ _ _ _ _ _ _ Hinv a b Ha Hb).
    pose proof (nonneg_cell _ m a b Hsq Hnn Ha Hb).
    pose proof (nonneg_cell _ r a b Hsq' Hnn' Ha Hb).
    case_decide; lia. }
  destruct (clamped_flow_feasible (length m) source sink m hist r z)
    as [Hfeas Hval]; try done.
  exists h', t, z, r, fl. split_and!; try done.
  - exact (feasible_flow_ext _ _ _ _ _ _ Hext Hfeas).
  - rewrite <-Hval. by apply flow_value_ext.
Qed.

Lemma final_flow_feasible_witness :
  ∃ h' t z r flow,
    Code.edmonds_karp 5 (store_of tiny) 2 0 1 = Done h' (t, Int z) ∧
    table_at h' t = Some r ∧
    CodeFinal.compute_forward_flow tiny r = Ok flow ∧
    CodeNew.compute_forward_flow tiny r = Ok flow ∧
    feasible_flow (length tiny) tiny 0 1 (cell flow) ∧
    flow_value (length tiny) 0 (cell flow) = z.
Proof.
  apply (final_flow_feasible (store_of tiny) 2 tiny 0 1 5).
  - reflexivity.
  - exact valid_network_tiny.
  - intros u v Hu Hv. unfold node in Hu, Hv. simpl in Hu, Hv.
    assert (u = 0 ∨ u = 1) as [-> | ->] by lia;
      assert (v = 0 ∨ v = 1) as [-> | ->] by lia; vm_compute; done.
  - vm_compute. lia.
Defined.

(** X7: the solver finds nothing more to send through the table it
    returns.  Called again with that table as the capacities and the
    same source and sink, it returns the flow value 0 and a new table
    with the same content; the table of the first call keeps its
    content. *)
Theorem solver_idempotent h capacity m source sink fuel :
  table_at h capacity = Some m →
  square (length m) m → node (length m) source →
  (fuel_bound m source ≤ fuel)%nat →
  ∃ h' t z r,
    Code.edmonds_karp fuel h capacity source sink = Done h' (t, Int z) ∧
    table_at h' t = Some r ∧
    ∀ fuel', (length m < fuel')%nat →
      ∃ h'' t',
        Code.edmonds_karp fuel' h' t source sink = Done h'' (t', Int 0) ∧
        table_at h'' t' = Some r ∧ table_at h'' t = Some r ∧ t' ≠ t.
Proof.
  intros Htable Hsq Hsource Hfuel.
  destruct (edmonds_karp_final h capacity m source sink Htable Hsq Hsource
    fuel Hfuel) as (h' & t & z & hist & r & parent & Hrun & _ & Hm & _
      & Hinv & _ & Ht & _ & Hall).
  pose proof (models_table_at _ _ _ Hm) as Hr.
  pose proof (inv_square _ _ _ _ _ _ _ Hinv) as Hsq'.
  assert (length r = length m) as Hlen by apply Hsq'.
  exists h', t, z, r. split_and!; try done.
  intros fuel' Hfuel'.
  generalize (edmonds_karp_solve fuel' h' t r source sink Hr).
  rewrite solve_unreachable; rewrite ?Hlen; try done.
  - destruct (Code.edmonds_karp fuel' h' t source sink)
      as [h'' [t' mf]|h'' e|]; try done.
    intros (-> & Hm' & Hframe & rows & Hrows & Hfresh & _).
    exists h'', t'. split_and!; try done.
    + by apply models_table_at.
    + by eapply table_at_frame.
    + destruct Hm as (rows0 & Ht0 & _).
      apply lookup_lt_Some in Ht0. lia.
  - intros (Hsink & Hne & Hreach%Hall). rewrite Ht in Hreach; done.
Qed.

Lemma solver_idempotent_witness :
  ∃ h' t z r,
    Code.edmonds_karp 5 (store_of tiny) 2 0 1 = Done h' (t, Int z) ∧
    table_at h' t = Some r ∧
    ∀ fuel', (length tiny < fuel')%nat →
      ∃ h'' t',
        Code.edmonds_karp fuel' h' t 0 1 = Done h'' (t', Int 0) ∧
        table_at h'' t' = Some r ∧ table_at h'' t = Some r ∧ t' ≠ t.
Proof.
  apply (solver_idempotent (store_of tiny) 2 tiny 0 1 5).
  - reflexivity.
  - exact (proj1 valid_network_tiny).
  - unfold node. simpl. lia.
  - vm_compute. lia.
Defined.

(** X8: on a square table with a source that is a node and a sink
    other than the source, the returned flow value is never negative,
    and it is 0 exactly when the sink cannot be reached from the source
    along edges of positive capacity; the returned table then has the
    content of the capacity table. *)
Theorem zero_flow_iff_unreachable h capacity m source sink fuel :
  table_at h capacity = Some m →
  square (length m) m → node (length m) source → sink ≠ source →
  (fuel_bound m source ≤ fuel)%nat →
  ∃ h' t z r,
    Code.edmonds_karp fuel h capacity source sink = Done h' (t, Int z) ∧
    table_at h' t = Some r ∧ 0 ≤ z ∧
    (z = 0 ↔ ¬ reach (length m) m source sink) ∧
    (z = 0 → r = m).
Proof.
  intros Htable Hsq Hsource Hne Hfuel.
  destruct (edmonds_karp_final h capacity m source sink Htable Hsq Hsource
    fuel Hfuel) as (h' & t & z & hist & r & parent & Hrun & Hsolve & Hm & _
      & Hinv & _ & Ht & _ & Hall).
  pose proof (inv_square _ _ _ _ _ _ _ Hinv) as Hsq'.
  destruct (inv_flow _ _ _ _ _ _ _ Hinv) as (z' & [= <-] & Hz & _).
  assert (z = 0 → r = m) as Hzero.
  { intros ->. destruct hist; [|simpl in Hz; lia].
    apply (square_cell_eq (length m)); try done.
    intros a b Ha Hb. rewrite (inv_cell _ _ _ _ _ _ _ Hinv a b Ha Hb).
    simpl. lia. }
  exists h', t, z, r.
  split_and!; try done; [by apply models_table_at|lia|].
  split.
  - intros Hz0 Hreach. rewrite (Hzero Hz0) in Hall.
    pose proof (reach_node _ _ _ _ Hreach) as Hsink.
    apply Hall in Hreach. rewrite Ht in Hreach; done.
  - intros Hno. rewrite solve_unreachable in Hsolve; try done.
    + by injection Hsolve as _ <-.
    + tauto.
    + unfold fuel_bound in Hfuel. lia.
Qed.

Lemma zero_flow_iff_unreachable_witness :
  ∃ h' t z r,
    Code.edmonds_karp 5 (store_of tiny) 2 0 1 = Done h' (t, Int z) ∧
    table_at h' t = Some r ∧ 0 ≤ z ∧
    (z = 0 ↔ ¬ reach (length tiny) tiny 0 1) ∧
    (z = 0 → r = tiny).
Proof.
  apply (zero_flow_iff_unreachable (store_of tiny) 2 tiny 0 1 5).
  - reflexivity.
  - exact (proj1 valid_network_tiny).
  - unfold node. simpl. lia.
  - lia.
  - vm_compute. lia.
Defined.

(** * [compute_forward_flow] on tables of any shape *)

Lemma py_get_beyond {A : Type} (l : list A) i :
  0 ≤ i → l !! Z.to_nat i = None → py_get l i = Raise IndexError.
Proof.
  intros Hi Hnone. apply lookup_ge_None in Hnone.
  unfold py_get. rewrite py_index_out; [done|lia].
Qed.

Lemma mat_rd_has_cell m u v :
  0 ≤ u → 0 ≤ v → has_cell m u v → mat_rd m u v = Ok (cell m u v).
Proof.
  intros Hu Hv (row & x & Hrow & Hx). unfold mat_rd, cell.
  rewrite (py_get_lookup m u row) by done. simpl.
  rewrite (list_lookup_total_correct _ _ _ Hrow),
    (list_lookup_total_correct _ _ _ Hx).
  by apply py_get_lookup.
Qed.

Lemma mat_rd_no_cell m u v :
  0 ≤ u → 0 ≤ v → ¬ has_cell m u v → mat_rd m u v = Raise IndexError.
Proof.
  intros Hu Hv Hno. unfold mat_rd.
  destruct (m !! Z.to_nat u) as [row|] eqn:Hrow.
  - rewrite (py_get_lookup m u row) by done. simpl.
    destruct (row !! Z.to_nat v) as [x|] eqn:Hx.
    + destruct Hno. by exists row, x.
    + by apply py_get_beyond.
  - by rewrite py_get_beyond.
Qed.

Lemma has_cell_dec m u v : has_cell m u v ∨ ¬ has_cell m u v.
Proof.
  unfold has_cell. destruct (m !! Z.to_nat u) as [row|] eqn:Hrow.
  - destruct (row !! Z.to_nat v) as [x|] eqn:Hx.
    + left. by exists row, x.
    + right. intros (row' & x & [= <-] & Hx'). congruence.
  - right. by intros (row & x & ? & _).
Qed.

Section FlowOutcome.
Variables (n : nat) (capacity residual : matrix) (g : Z → Z → Z).
Variable for_v : Z → list Z → matrix → outcome matrix.
Variable for_u : list Z → matrix → outcome matrix.
Hypothesis for_v_nil : ∀ u flow, for_v u [] flow = Ok flow.
Hypothesis for_v_cons : ∀ u v vs flow,
  for_v u (v :: vs) flow =
    c ← mat_rd capacity u v;
    if 0 <? c then
      r ← mat_rd residual u v;
      flow' ← mat_wr flow u v (g c r);
      for_v u vs flow'
    else for_v u vs flow.
Hypothesis for_u_nil : ∀ flow, for_u [] flow = Ok flow.
Hypothesis for_u_cons : ∀ u us flow,
  for_u (u :: us) flow = flow' ← for_v u (range n) flow; for_u us flow'.

(** The inner loop returns when every entry it reads exists, and
    raises [IndexError] at the first one that does not. *)
Lemma for_v_outcome u vs flow :
  square n flow → node n u → Forall (node n) vs →
  (Forall (flow_reads capacity residual u) vs ∧
   ∃ flow', for_v u vs flow = Ok flow' ∧ square n flow' ∧
     ∀ a b, node n a → node n b →
       cell flow' a b =
         if decide (a = u ∧ b ∈ vs ∧ 0 < cell capacity a b)
         then g (cell capacity a b) (cell residual a b)
         else cell flow a b) ∨
  (Exists (λ v, ¬ flow_reads capacity residual u v) vs ∧
   for_v u vs flow = Raise IndexError).
Proof.
  intros Hsq Hu Hvs. revert flow Hsq.
  induction Hvs as [|v vs Hv Hvs IH]; intros flow Hsq.
  { left. split; [done|]. exists flow. rewrite for_v_nil.
    split; [done|split; [done|]].
    intros a b _ _. rewrite decide_False; [done|].
    intros (_ & ?%elem_of_nil & _). done. }
  rewrite for_v_cons.
  assert (0 ≤ u ∧ 0 ≤ v) as [Hu0 Hv0] by (unfold node in *; lia).
  destruct (has_cell_dec capacity u v) as [Hc|Hc].
  2:{ right. rewrite (mat_rd_no_cell capacity) by done.
      split; [|done]. apply Exists_cons_hd. by intros [? _]. }
  rewrite (mat_rd_has_cell capacity) by done. cbn [mbind outcome_bind].
  destruct (0 <? cell capacity u v) eqn:Hpos;
    [apply Z.ltb_lt in Hpos|apply Z.ltb_ge in Hpos].
  - destruct (has_cell_dec residual u v) as [Hr|Hr].
    2:{ right. rewrite (mat_rd_no_cell residual) by done.
        split; [|done]. apply Exists_cons_hd. intros [_ ?]. tauto. }
    rewrite (mat_rd_has_cell residual) by done. cbn [mbind outcome_bind].
    rewrite (mat_wr_upd n) by done. cbn [mbind outcome_bind].
    destruct (IH (upd flow u v (g (cell capacity u v) (cell residual u v))))
      as [(Hall & flow' & -> & Hsq' & Hcell)|[Hex ->]];
      [by apply square_upd| |].
    + left. split; [by constructor|].
      exists flow'. split; [done|split; [done|]].
      intros a b Ha Hb. rewrite Hcell, (cell_upd n) by done.
      repeat case_decide; simplify_eq; try done; exfalso;
        rewrite elem_of_cons in *; intuition (subst; lia || tauto).
    + right. split; [by apply Exists_cons_tl|done].
  - destruct (IH flow Hsq) as [(Hall & flow' & -> & Hsq' & Hcell)|[Hex ->]].
    + left. split; [constructor; [split; [done|lia]|done]|].
      exists flow'. split; [done|split; [done|]].
      intros a b Ha Hb. rewrite Hcell by done.
      repeat case_decide; try done; exfalso;
        rewrite elem_of_cons in *; intuition (subst; lia || tauto).
    + right. split; [by apply Exists_cons_tl|done].
Qed.

Lemma for_u_outcome us flow :
  square n flow → Forall (node n) us →
  (Forall (λ u, Forall (flow_reads capacity residual u) (range n)) us ∧
   ∃ flow', for_u us flow = Ok flow' ∧ square n flow' ∧
     ∀ a b, node n a → node n b →
       cell flow' a b =
         if decide (a ∈ us ∧ 0 < cell capacity a b)
         then g (cell capacity a b) (cell residual a b)
         else cell flow a b) ∨
  (Exists (λ u, Exists (λ v, ¬ flow_reads capacity residual u v) (range n))
     us ∧
   for_u us flow = Raise IndexError).
Proof.
  intros Hsq Hus. revert flow Hsq.
  induction Hus as [|u us Hu Hus IH]; intros flow Hsq.
  { left. split; [done|]. exists flow. rewrite for_u_nil.
    split; [done|split; [done|]].
    intros a b _ _. rewrite decide_False; [done|].
    intros (?%elem_of_nil & _). done. }
  rewrite for_u_cons.
  destruct (for_v_outcome u (range n) flow Hsq Hu (Forall_node_range n))
    as [(Hall1 & flow1 & -> & Hsq1 & Hcell1)|[Hex ->]];
    cbn [mbind outcome_bind].
  2:{ right. split; [by apply Exists_cons_hd|done]. }
  destruct (IH flow1 Hsq1) as [(Hall & flow' & -> & Hsq' & Hcell)|[Hex ->]].
  - left. split; [by constructor|].
    exists flow'. split; [done|split; [done|]].
    intros a b Ha Hb. rewrite Hcell, Hcell1 by done.
    pose proof (proj2 (elem_of_range n b) Hb).
    repeat case_decide; try done; exfalso;
      rewrite elem_of_cons in *; intuition (subst; lia || tauto).
  - right. split; [by apply Exists_cons_tl|done].
Qed.

Lemma flow_loops_outcome :
  ((∀ u v, node n u → node n v → flow_reads capacity residual u v) ∧
   ∃ flow, for_u (range n) (replicate n (replicate n 0)) = Ok flow ∧
     square n flow ∧
     ∀ a b, node n a → node n b →
       cell flow a b =
         if decide (0 < cell capacity a b)
         then g (cell capacity a b) (cell residual a b)
         else 0) ∨
  ((∃ u v, node n u ∧ node n v ∧ ¬ flow_reads capacity residual u v) ∧
   for_u (range n) (replicate n (replicate n 0)) = Raise IndexError).
Proof.
  destruct (for_u_outcome (range n) (replicate n (replicate n 0))
    (square_replicate n 0) (Forall_node_range n))
    as [(Hall & flow & Hflow & Hsq & Hcell)|[Hex Hflow]].
  - left. split.
    + intros u v Hu%elem_of_range Hv%elem_of_range.
      rewrite Forall_forall in Hall. specialize (Hall u Hu).
      rewrite Forall_forall in Hall. by apply Hall.
    + exists flow. split; [done|split; [done|]].
      intros a b Ha Hb. rewrite Hcell, cell_replicate by done.
      pose proof (proj2 (elem_of_range n a) Ha).
      repeat case_decide; try done; exfalso; tauto.
  - right. split; [|done].
    apply Exists_exists in Hex as (u & Hu%elem_of_range & Hex).
    apply Exists_exists in Hex as (v & Hv%elem_of_range & Hno).
    by exists u, v.
Qed.
End FlowOutcome.

(** X9: [compute_forward_flow] checks the shape of neither table.  With
    [n = len(capacity)], it reads [capacity[u][v]] for all [u] and [v]
    below [n], and [residual[u][v]] where that capacity is positive.
    When all of these entries exist, both versions return a table of
    [n] rows of [n] entries: 0 where the capacity is not positive, and
    elsewhere [capacity[u][v] - residual[u][v]], clamped at 0 in
    codeNew.py; entries of the two tables beyond these are ignored.
    When one of them is missing, both versions raise [IndexError]. *)
Theorem compute_forward_flow_outcome capacity residual :
  ((∀ u v, node (length capacity) u → node (length capacity) v →
      flow_reads capacity residual u v) ∧
   ∃ flow forward_flow,
     CodeFinal.compute_forward_flow capacity residual = Ok flow ∧
     CodeNew.compute_forward_flow capacity residual = Ok forward_flow ∧
     square (length capacity) flow ∧
     square (length capacity) forward_flow ∧
     ∀ u v, node (length capacity) u → node (length capacity) v →
       cell flow u v =
         (if decide (0 < cell capacity u v)
          then cell capacity u v - cell residual u v else 0) ∧
       cell forward_flow u v =
         (if decide (0 < cell capacity u v)
          then Z.max 0 (cell capacity u v - cell residual u v) else 0)) ∨
  ((∃ u v, node (length capacity) u ∧ node (length capacity) v ∧
      ¬ flow_reads capacity residual u v) ∧
   CodeFinal.compute_forward_flow capacity residual = Raise IndexError ∧
   CodeNew.compute_forward_flow capacity residual = Raise IndexError).
Proof.
  unfold CodeFinal.compute_forward_flow, CodeNew.compute_forward_flow.
  cbv zeta.
  destruct (flow_loops_outcome (length capacity) capacity residual
    (λ c r, c - r)
    (CodeFinal.flow_for_v capacity residual)
    (CodeFinal.flow_for_u capacity residual (length capacity)))
    as [(Hall & flow & Hflow & Hsq & Hcell)|[Hex Hflow]]; try done;
  destruct (flow_loops_outcome (length capacity) capacity residual
    (λ c r, Z.max 0 (c - r))
    (CodeNew.flow_for_v capacity residual)
    (CodeNew.flow_for_u capacity residual (length capacity)))
    as [(Hall' & fwd & Hfwd & Hsq' & Hcell')|[Hex' Hfwd]]; try done.
  - left. split; [done|]. exists flow, fwd.
    split_and!; try done. intros u v Hu Hv. by rewrite Hcell, Hcell'.
  - destruct Hex' as (u & v & Hu & Hv & Hno). destruct Hno. by apply Hall.
  - destruct Hex as (u & v & Hu & Hv & Hno). destruct Hno. by apply Hall'.
  - by right.
Qed.

(** * The search finds a shortest path *)

Section Shortest.
Variables (n : nat) (r : matrix) (source sink : Z).
Hypothesis Hsq : square n r.
Hypothesis Hsource : node n source.
Implicit Types (parent queue p new : list Z) (u v w : Z).

(** What one run of the loop [for v in range(n)] does to [parent] and
    to the queue: the nodes [new] that it reaches get the parent [u]
    and are appended to the queue. *)
Lemma bfs_for_effect u vs parent queue res :
  length parent = n → node n u → Forall (node n) vs →
  Code.bfs_for sink r u vs parent queue = Ok res →
  ∃ new parent',
    Forall (λ w, node n w ∧ parent !! Z.to_nat w = Some (-1) ∧
                 0 < cell r u w) new ∧
    length parent' = n ∧
    (∀ w, node n w →
       parent' !! Z.to_nat w
       = if decide (w ∈ new) then Some u else parent !! Z.to_nat w) ∧
    match res with
    | Next parent'' queue' =>
        parent'' = parent' ∧ queue' = queue ++ new ∧
        ∀ v, v ∈ vs → 0 < cell r u v → discovered parent' v
    | Found parent'' => parent'' = parent' ∧ sink ∈ new
    end.
Proof.
  intros Hlen Hu Hvs. revert parent queue Hlen.
  induction Hvs as [|v vs Hv Hvs IH]; intros parent queue Hlen.
  { intros [= <-]. exists [], parent. split_and!; try done.
    - by rewrite app_nil_r.
    - intros v ?%elem_of_nil. done. }
  simpl.
  destruct (py_get_node parent v) as (pv & Hpv & ->).
  { rewrite Hlen. apply Hv. }
  simpl.
  assert (u ≠ -1) as Hu' by (unfold node in Hu; lia).
  assert (Code.bfs_for sink r u vs parent queue = Ok res →
    (0 < cell r u v → pv ≠ -1) →
    ∃ new parent',
      Forall (λ w, node n w ∧ parent !! Z.to_nat w = Some (-1) ∧
                   0 < cell r u w) new ∧
      length parent' = n ∧
      (∀ w, node n w →
         parent' !! Z.to_nat w
         = if decide (w ∈ new) then Some u else parent !! Z.to_nat w) ∧
      match res with
      | Next parent'' queue' =>
          parent'' = parent' ∧ queue' = queue ++ new ∧
          ∀ v0, v0 ∈ v :: vs → 0 < cell r u v0 → discovered parent' v0
      | Found parent'' => parent'' = parent' ∧ sink ∈ new
      end) as Hskip.
  { intros Hfor Hv0.
    destruct (IH _ _ Hlen Hfor) as (new & parent' & Hnew & Hlen' & Hp & Hres).
    exists new, parent'. split_and!; try done.
    destruct res as [|parent'' queue']; [done|].
    destruct Hres as (-> & -> & Hscan). split_and!; try done.
    intros v0 [->|Hin]%elem_of_cons; [|by auto].
    intros Hpos. exists pv. rewrite Hp by done.
    case_decide as Hin; [|by auto].
    rewrite Forall_forall in Hnew. destruct (Hnew _ Hin) as (_ & Hv1 & _).
    rewrite Hpv in Hv1. injection Hv1 as ->. by destruct Hv0. }
  destruct (Z.eqb_spec pv (-1)) as [->|Hne]; [|by auto].
  rewrite (mat_rd_cell n) by done. simpl.
  destruct (Z.ltb_spec 0 (cell r u v)) as [Hpos|Hle];
    [|intros; apply Hskip; [done|lia]].
  rewrite py_set_node by (rewrite Hlen; apply Hv). simpl.
  assert (∀ w, node n w →
    <[Z.to_nat v := u]> parent !! Z.to_nat w
    = if decide (w = v) then Some u else parent !! Z.to_nat w) as Hins.
  { intros w Hw. case_decide as Hwv.
    - subst w. apply list_lookup_insert_eq. rewrite Hlen.
      unfold node in Hv. lia.
    - apply list_lookup_insert_ne. unfold node in *. lia. }
  destruct (Z.eqb_spec v sink) as [<-|Hsink].
  { intros [= <-]. exists [v], (<[Z.to_nat v := u]> parent).
    split_and!; try done.
    - by apply Forall_singleton.
    - by rewrite length_insert.
    - intros w Hw. rewrite Hins by done.
      repeat case_decide; try done; exfalso;
        rewrite list_elem_of_singleton in *; tauto.
    - by apply list_elem_of_singleton. }
  intros Hfor.
  destruct (IH (<[Z.to_nat v := u]> parent) (queue ++ [v]))
    as (new & parent' & Hnew & Hlen' & Hp & Hres); try done.
  { by rewrite length_insert. }
  assert (v ∉ new) as Hvn.
  { intros Hin. rewrite Forall_forall in Hnew.
    destruct (Hnew _ Hin) as (_ & Hv1 & _).
    rewrite Hins, decide_True in Hv1 by done. congruence. }
  exists (v :: new), parent'. split_and!; try done.
  - constructor; [done|]. eapply Forall_impl; [done|].
    intros w (Hw & Hw1 & Hw2). split_and!; try done.
    rewrite Hins in Hw1 by done. case_decide; [congruence|done].
  - intros w Hw. rewrite Hp, Hins by done.
    repeat case_decide; try done; exfalso;
      rewrite elem_of_cons in *; tauto.
  - destruct res as [parent''|parent'' queue'].
    + destruct Hres as [-> Hin]. split; [done|].
      apply elem_of_cons. by right.
    + destruct Hres as (-> & -> & Hscan).
      split_and!; try done; [by rewrite <-app_assoc|].
      intros v0 [->|Hin]%elem_of_cons; [|by auto].
      intros _. exists u. split; [|done].
      rewrite Hp, decide_False, Hins, decide_True by done. done.
Qed.

Lemma chain_fun parent v p p' :
  chain n r source parent v p → chain n r source parent v p' → p = p'.
Proof.
  intros H1%chain_parent_path H2%chain_parent_path.
  by eapply parent_path_fun.
Qed.

Lemma level_fun parent v d d' :
  level n r source parent v d → level n r source parent v d' → d = d'.
Proof.
  intros (p & Hp & Hd) (p' & Hp' & Hd').
  rewrite (chain_fun _ _ _ _ Hp Hp') in Hd. lia.
Qed.

Lemma level_source parent : level n r source parent source 0.
Proof. exists [source]. split; [constructor|done]. Qed.

Lemma level_discovered parent v d :
  parent !! Z.to_nat source = Some source →
  level n r source parent v d → node n v ∧ discovered parent v.
Proof.
  intros Hs (p & Hp & Hd). split.
  - eapply chain_node; [exact Hsource|done].
  - apply (chain_discovered n r source Hsource parent v p v Hs Hp).
    destruct Hp; apply elem_of_cons; by left.
Qed.

(** The rest is about one run of the loop [for v in range(n)]: it gives
    the nodes [new], which [parent] has not reached, the parent [u]. *)
Section Effect.
Variables (parent parent' new : list Z) (u : Z) (d : nat).
Hypothesis Hinv : parent_inv n r source parent.
Hypothesis Hlu : level n r source parent u d.
Hypothesis Hnew :
  Forall (λ w, node n w ∧ parent !! Z.to_nat w = Some (-1) ∧
               0 < cell r u w) new.
Hypothesis Hlen' : length parent' = n.
Hypothesis Hp : ∀ w, node n w →
  parent' !! Z.to_nat w
  = if decide (w ∈ new) then Some u else parent !! Z.to_nat w.

Lemma effect_new w :
  w ∈ new → node n w ∧ parent !! Z.to_nat w = Some (-1) ∧ 0 < cell r u w.
Proof using All. intros Hin. rewrite Forall_forall in Hnew. by apply Hnew. Qed.

Lemma effect_old w :
  node n w → discovered parent w →
  (w ∉ new) ∧ parent' !! Z.to_nat w = parent !! Z.to_nat w.
Proof using All.
  intros Hw (x & Hx & Hne).
  assert (w ∉ new) as Hnin.
  { intros (_ & Hw1 & _)%effect_new. congruence. }
  split; [done|]. by rewrite Hp, decide_False.
Qed.

Lemma effect_source : parent' !! Z.to_nat source = Some source.
Proof using All.
  destruct (effect_old source Hsource) as [_ ->]; [|apply Hinv].
  exists source. split; [apply Hinv|]. unfold node in Hsource. lia.
Qed.

Lemma effect_chain w p :
  chain n r source parent w p → chain n r source parent' w p.
Proof using All.
  induction 1 as [|v u0 p Hv Hne Hu0 Hpos Hnin Hc IH]; [constructor|].
  apply chain_step with u0; try done.
  destruct (effect_old v Hv) as [_ ->]; [|done].
  exists u0. split; [done|].
  pose proof (chain_node n r source Hsource _ _ _ Hc) as Hn.
  unfold node in Hn. lia.
Qed.

Lemma effect_level w dw :
  level n r source parent w dw → level n r source parent' w dw.
Proof using All. intros (p & Hc & Hd). exists p. split; [by apply effect_chain|done]. Qed.

Lemma effect_new_level w : w ∈ new → level n r source parent' w (S d).
Proof using All.
  intros Hin. destruct (effect_new w Hin) as (Hw & Hw1 & Hpos).
  destruct Hlu as (pu & Hc & Hd).
  exists (w :: pu). split; [|simpl; lia].
  apply chain_step with u; try done.
  - intros ->. rewrite (pi_source _ _ _ _ Hinv) in Hw1.
    unfold node in Hsource. injection Hw1 as Hw1. lia.
  - by rewrite Hp, decide_True.
  - intros Hin'.
    destruct (chain_discovered n r source Hsource parent u pu w
      (pi_source _ _ _ _ Hinv) Hc Hin') as (x & Hx & Hne). congruence.
  - by apply effect_chain.
Qed.

Lemma effect_discovered w :
  node n w → discovered parent' w → discovered parent w ∨ w ∈ new.
Proof using All.
  intros Hw (x & Hx & Hne). rewrite Hp in Hx by done.
  case_decide; [by right|left]. by exists x.
Qed.

Lemma effect_level_inv w dw :
  level n r source parent' w dw →
  level n r source parent w dw ∨ (w ∈ new ∧ dw = S d).
Proof using All.
  intros Hl.
  destruct (level_discovered parent' w dw effect_source Hl) as [Hw Hd].
  destruct (effect_discovered w Hw Hd) as [Hold|Hin].
  - left. destruct (pi_chain _ _ _ _ Hinv w Hw Hold) as [p Hc].
    destruct Hl as (p' & Hc' & Hlen).
    exists p. split; [done|].
    by rewrite (chain_fun _ _ _ _ (effect_chain _ _ Hc) Hc').
  - right. split; [done|].
    exact (level_fun _ _ _ _ Hl (effect_new_level w Hin)).
Qed.

Lemma effect_parent_inv : parent_inv n r source parent'.
Proof using All.
  split; [done|apply effect_source|].
  intros v Hv Hd. destruct (effect_discovered v Hv Hd) as [Hold|Hin].
  - destruct (pi_chain _ _ _ _ Hinv v Hv Hold) as [p Hc].
    exists p. by apply effect_chain.
  - destruct (effect_new_level v Hin) as (p & Hc & _). by exists p.
Qed.

Lemma effect_mono w : node n w → discovered parent w → discovered parent' w.
Proof using All.
  intros Hw Hd. destruct (effect_old w Hw Hd) as [_ Heq].
  destruct Hd as (x & Hx & Hne). exists x. by rewrite Heq.
Qed.
End Effect.

(** A walk from the source ends in a node that the search has reached,
    at a level that is at most the length of the walk, or the queue
    holds a node of a smaller level. *)
Lemma walk_covered parent queue w k :
  bfs_inv n r source parent queue → walk n r source w k →
  (∃ dw, level n r source parent w dw ∧ (dw ≤ k)%nat) ∨
  (∃ q dq, q ∈ queue ∧ level n r source parent q dq ∧ (dq < k)%nat).
Proof.
  intros [Hinv Hq Hclosed Hlay].
  induction 1 as [|v w k Hwalk IH Hw Hpos].
  { left. exists 0%nat. split; [apply level_source|done]. }
  destruct IH as [(dv & Hdv & Hle)|(q & dq & Hin & Hdq & Hlt)].
  - destruct (level_discovered parent v dv (pi_source _ _ _ _ Hinv) Hdv)
      as [Hv Hd].
    destruct (Hclosed v Hv Hd) as [Hin|Hout].
    + right. exists v, dv. split_and!; try done. lia.
    + destruct (Hout w Hw Hpos) as (da & db & Hda & Hdb & Hle').
      rewrite (level_fun _ _ _ _ Hda Hdv) in Hle'.
      left. exists db. split; [done|lia].
  - right. exists q, dq. split_and!; try done. lia.
Qed.

(** One round of the loop [while queue] that does not reach the
    sink. *)
Lemma bfs_inv_step parent parent' u rest new :
  bfs_inv n r source parent (u :: rest) →
  Forall (λ w, node n w ∧ parent !! Z.to_nat w = Some (-1) ∧
               0 < cell r u w) new →
  length parent' = n →
  (∀ w, node n w →
     parent' !! Z.to_nat w
     = if decide (w ∈ new) then Some u else parent !! Z.to_nat w) →
  (∀ v, node n v → 0 < cell r u v → discovered parent' v) →
  bfs_inv n r source parent' (rest ++ new).
Proof.
  intros [Hinv Hq Hclosed (d & l1 & l2 & Hqueue & Hl1 & Hl2 & Hbound & Hne)]
    Hnew Hlen' Hp Hscan.
  destruct l1 as [|u' l1]; [by rewrite (Hne eq_refl) in Hqueue|].
  injection Hqueue as <- ->. apply Forall_cons in Hl1 as [Hlu Hl1].
  apply Forall_cons in Hq as [[Hu Hdu] Hq].
  pose proof (effect_parent_inv parent parent' new u d Hinv Hlu Hnew Hlen' Hp)
    as Hinv'.
  pose proof (effect_level parent parent' new u d Hinv Hlu Hnew Hlen' Hp)
    as Hlev.
  pose proof (effect_new_level parent parent' new u d Hinv Hlu Hnew Hlen' Hp)
    as Hnl.
  pose proof (effect_level_inv parent parent' new u d Hinv Hlu Hnew Hlen' Hp)
    as Hli.
  pose proof (effect_discovered parent parent' new u d Hinv Hlu Hnew Hlen' Hp)
    as Hdisc.
  pose proof (effect_mono parent parent' new u d Hinv Hlu Hnew Hlen' Hp)
    as Hmono.
  assert (∀ w dw, level n r source parent' w dw → (dw ≤ S d)%nat) as Hbound'.
  { intros w dw [Hold|[_ ->]]%Hli; [by eapply Hbound|done]. }
  assert (Forall (λ a, level n r source parent' a (S d)) (l2 ++ new)) as Hl2'.
  { apply Forall_app. split.
    - eapply Forall_impl; [exact Hl2|]. intros w. apply Hlev.
    - apply Forall_forall. intros w. apply Hnl. }
  split; [done| | |].
  - apply Forall_app. split.
    + eapply Forall_impl; [exact Hq|]. intros w [Hw Hd]. split; [done|].
      by apply Hmono.
    + apply Forall_forall. intros w Hin.
      by apply (level_discovered parent' w (S d) (pi_source _ _ _ _ Hinv')),
        Hnl.
  - intros a Ha Hda.
    destruct (Hdisc a Ha Hda) as [Hold|Hin];
      [|left; apply elem_of_app; by right].
    destruct (Hclosed a Ha Hold) as [[->|Hin]%elem_of_cons|Hout].
    + right. intros b Hb Hpos.
      destruct (pi_chain _ _ _ _ Hinv' b Hb (Hscan b Hb Hpos)) as [p Hc].
      destruct p as [|x p]; [by inversion Hc|].
      exists d, (length p). split_and!.
      * by apply Hlev.
      * by exists (x :: p).
      * apply (Hbound' b). by exists (x :: p).
    + left. apply elem_of_app. by left.
    + right. intros b Hb Hpos.
      destruct (Hout b Hb Hpos) as (da & db & Hla & Hlb & Hle).
      exists da, db. split_and!; try done; by apply Hlev.
  - destruct l1 as [|a l1].
    + exists (S d), (l2 ++ new), []. split_and!; try done.
      * by rewrite app_nil_r.
      * intros w dw Hw. specialize (Hbound' w dw Hw). lia.
    + exists d, (a :: l1), (l2 ++ new). split_and!; try done.
      * by rewrite <-app_assoc.
      * eapply Forall_impl; [exact Hl1|]. intros w. apply Hlev.
Qed.

(** The round of the loop that reaches the sink: no walk from the
    source to the sink has fewer edges than the path in [parent]. *)
Lemma bfs_found_shortest parent parent' u rest new :
  bfs_inv n r source parent (u :: rest) →
  Forall (λ w, node n w ∧ parent !! Z.to_nat w = Some (-1) ∧
               0 < cell r u w) new →
  length parent' = n →
  (∀ w, node n w →
     parent' !! Z.to_nat w
     = if decide (w ∈ new) then Some u else parent !! Z.to_nat w) →
  sink ∈ new →
  ∃ p, chain n r source parent' sink p ∧
       ∀ k, walk n r source sink k → (length p ≤ S k)%nat.
Proof.
  intros Hbfs Hnew Hlen' Hp Hsink.
  pose proof (λ k, walk_covered _ _ sink k Hbfs) as Hcov.
  destruct Hbfs
    as [Hinv Hq Hclosed (d & l1 & l2 & Hqueue & Hl1 & Hl2 & Hbound & Hne)].
  destruct l1 as [|u' l1]; [by rewrite (Hne eq_refl) in Hqueue|].
  injection Hqueue as <- ->. apply Forall_cons in Hl1 as [Hlu Hl1].
  destruct (effect_new_level parent parent' new u d Hinv Hlu Hnew Hlen' Hp
    sink Hsink) as (p & Hc & Hlen).
  exists p. split; [done|]. rewrite Hlen. intros k Hwalk.
  destruct (Hcov k Hwalk) as [(dw & Hdw & Hle)|(q & dq & Hin & Hdq & Hlt)].
  - destruct (level_discovered parent sink dw (pi_source _ _ _ _ Hinv) Hdw)
      as [_ (x & Hx & Hnx)].
    destruct (effect_new parent parent' new u d Hinv Hlu Hnew Hlen' Hp sink
      Hsink) as (_ & Hs1 & _).
    congruence.
  - assert (d ≤ dq)%nat; [|lia].
    apply elem_of_cons in Hin as [->|[Hin|Hin]%elem_of_app].
    + by rewrite (level_fun _ _ _ _ Hdq Hlu).
    + rewrite Forall_forall in Hl1.
      by rewrite (level_fun _ _ _ _ Hdq (Hl1 _ Hin)).
    + rewrite Forall_forall in Hl2.
      rewrite (level_fun _ _ _ _ Hdq (Hl2 _ Hin)). lia.
Qed.

Lemma bfs_while_shortest fuel parent queue parent' :
  bfs_inv n r source parent queue →
  Code.bfs_while n sink fuel r parent queue = Ok (true, parent') →
  ∃ p, chain n r source parent' sink p ∧
       ∀ k, walk n r source sink k → (length p ≤ S k)%nat.
Proof.
  revert parent queue.
  induction fuel as [|fuel IH]; intros parent queue Hbfs; [done|]. simpl.
  destruct queue as [|u rest]; [done|].
  destruct (Code.bfs_for sink r u (range n) parent rest) as [res| |] eqn:Hfor;
    simpl; try done.
  pose proof (bi_queue _ _ _ _ _ Hbfs) as [[Hu _] _]%Forall_cons.
  destruct (bfs_for_effect u (range n) parent rest res
    (pi_length _ _ _ _ (bi_parent _ _ _ _ _ Hbfs)) Hu (Forall_node_range n)
    Hfor) as (new & parent1 & Hnew & Hlen1 & Hp & Hres).
  destruct res as [parent2|parent2 queue2].
  - destruct Hres as [-> Hsink]. intros [= <-].
    by apply (bfs_found_shortest parent parent1 u rest new).
  - destruct Hres as (-> & -> & Hscan). apply IH.
    apply (bfs_inv_step parent parent1 u rest new); try done.
    intros v Hv. apply Hscan. by apply elem_of_range.
Qed.

(** [bfs()] returns [True] with a shortest path in [parent]. *)
Lemma bfs_shortest fuel parent parent' :
  length parent = n →
  Code.bfs n source sink fuel r parent = Ok (true, parent') →
  ∃ p, chain n r source parent' sink p ∧
       ∀ k, walk n r source sink k → (length p ≤ S k)%nat.
Proof.
  intros Hlen. unfold Code.bfs.
  pose proof (bfs_reset_all parent) as Hreset.
  rewrite Hlen in Hreset. rewrite Hreset. simpl.
  rewrite py_set_node by (by rewrite length_replicate). simpl.
  set (parent1 := <[Z.to_nat source := source]> (replicate n (-1))).
  assert (parent1 !! Z.to_nat source = Some source) as Hs.
  { apply list_lookup_insert_eq. rewrite length_replicate.
    unfold node in Hsource. lia. }
  assert (∀ v, node n v → discovered parent1 v → v = source) as Honly.
  { intros v Hv (x & Hx & Hne). destruct (decide (v = source)); [done|].
    unfold parent1 in Hx.
    rewrite list_lookup_insert_ne in Hx by (unfold node in *; lia).
    apply lookup_replicate in Hx as [-> _]. done. }
  apply bfs_while_shortest. split.
  - split; [unfold parent1; by rewrite length_insert, length_replicate
           |done|].
    intros v Hv Hd. rewrite (Honly v Hv Hd). exists [source]. constructor.
  - apply Forall_singleton. split; [done|].
    exists source. split; [done|]. unfold node in Hsource. lia.
  - intros a Ha Hd. left. rewrite (Honly a Ha Hd).
    by apply list_elem_of_singleton.
  - exists 0%nat, [source], []. split_and!; try done.
    + apply Forall_singleton, level_source.
    + intros w dw Hw.
      destruct (level_discovered parent1 w dw Hs Hw) as [Hn Hd].
      rewrite (Honly w Hn Hd) in Hw.
      rewrite (level_fun _ _ _ _ Hw (level_source parent1)). lia.
Qed.

(** A list of nodes from [v] back to the source, along edges with a
    positive entry, is a walk from the source to [v]. *)
Lemma walk_of_list q v :
  head q = Some v → last q = Some source →
  Forall (node n) q → Forall (λ e, 0 < cell r e.1 e.2) (edges q) →
  walk n r source v (length q - 1).
Proof.
  revert v. induction q as [|x q IH]; intros v; [done|].
  intros [= ->] Hlast Hnodes Hedges.
  destruct q as [|y q].
  { injection Hlast as ->. simpl. by constructor. }
  apply Forall_cons in Hnodes as [Hx Hnodes].
  cbn [edges] in Hedges. apply Forall_cons in Hedges as [Hpos Hedges].
  replace (length (v :: y :: q) - 1)%nat with (S (length (y :: q) - 1))
    by (simpl; lia).
  apply walk_edge with y; try done.
  by apply IH.
Qed.
End Shortest.

(** X10: [bfs()] finds a shortest augmenting path.  When it returns
    [True], the path that [parent] holds from the sink back to the
    source runs between nodes along edges with a positive entry in
    [residual], and no list of nodes from the sink back to the source
    along such edges is shorter. *)
Theorem bfs_shortest_path h t r n source sink fuel parent parent' :
  models t h r → square n r → node n source → length parent = n →
  Code.bfs (Residual0 := heap_residual t) n source sink fuel h parent
    = Ok (true, parent') →
  ∃ p, parent_path source parent' sink p ∧
    Forall (node n) p ∧ Forall (λ e, 0 < cell r e.1 e.2) (edges p) ∧
    ∀ q, head q = Some sink → last q = Some source →
      Forall (node n) q → Forall (λ e, 0 < cell r e.1 e.2) (edges q) →
      (length p ≤ length q)%nat.
Proof.
  intros Hm Hsq Hsource Hlen.
  rewrite (bfs_sim (heap_residual t) matrix_residual (models t)
    (heap_rd_models t) n source sink fuel h r parent Hm).
  intros Hbfs.
  destruct (bfs_shortest n r source sink Hsq Hsource fuel parent parent' Hlen
    Hbfs) as (p & Hc & Hmin).
  exists p. split_and!.
  - by eapply chain_parent_path.
  - exact (chain_nodes n r source Hsource _ _ _ Hc).
  - eapply Forall_impl;
      [exact (chain_edges_ok n source Hsource _ _ _ _ Hc)|].
    by intros e [? _].
  - intros q Hhead Hlast Hnodes Hedges.
    pose proof (walk_of_list n r source Hsource q sink Hhead Hlast Hnodes
      Hedges) as Hwalk.
    specialize (Hmin _ Hwalk). destruct q; [done|]. simpl in *. lia.
Qed.

Lemma bfs_shortest_path_witness :
  ∃ p, parent_path 0 [0; 0] 1 p ∧
    Forall (node 2) p ∧ Forall (λ e, 0 < cell tiny e.1 e.2) (edges p) ∧
    ∀ q, head q = Some 1 → last q = Some 0 →
      Forall (node 2) q → Forall (λ e, 0 < cell tiny e.1 e.2) (edges q) →
      (length p ≤ length q)%nat.
Proof.
  apply (bfs_shortest_path (store_of tiny) 2 tiny 2 0 1 3 [-1; -1] [0; 0]).
  - exists [0; 1]%nat. split; [reflexivity|]. split.
    + apply NoDup_cons. split; [|apply NoDup_singleton].
      intros ?%list_elem_of_singleton. lia.
    + repeat constructor.
  - exact (proj1 valid_network_tiny).
  - unfold node. lia.
  - reflexivity.
  - vm_compute. reflexivity.
Defined.

(** * One augmentation *)

(** The bottleneck of a list of edges is the entry of one of them. *)
Lemma path_min_attained r es a pf :
  path_min r es (Int a) = Int pf →
  pf = a ∨ Exists (λ e, cell r e.1 e.2 = pf) es.
Proof.
  revert a. induction es as [|e es IH]; intros a.
  { intros [= ->]. by left. }
  rewrite path_min_cons.
  destruct (num_min_Int (Int a) (cell r e.1 e.2))
    as (z & -> & _ & _ & [->| ->]).
  - intros [->|Hex]%IH; [by left|right]. by apply Exists_cons_tl.
  - intros [->|Hex]%IH; right; [by apply Exists_cons_hd|].
    by apply Exists_cons_tl.
Qed.

Lemma path_min_attained_Inf r e es pf :
  path_min r (e :: es) Inf = Int pf →
  Exists (λ e, cell r e.1 e.2 = pf) (e :: es).
Proof.
  rewrite path_min_cons. simpl.
  intros [->|Hex]%path_min_attained;
    [by apply Exists_cons_hd|by apply Exists_cons_tl].
Qed.

(** Edges that [es] does not hold in either direction carry nothing. *)
Lemma net_notin es a b : (a, b) ∉ es → (b, a) ∉ es → net es a b = 0.
Proof.
  induction es as [|[u v] es IH]; [done|].
  intros [Hne Hnin]%not_elem_of_cons [Hne' Hnin']%not_elem_of_cons.
  simpl. rewrite IH by done. unfold ind.
  rewrite !decide_False; [lia| |done].
  intros [= -> ->]. done.
Qed.

(** An edge of a path of the search is counted once. *)
Lemma chain_net_edge n r source parent v p a b :
  node n source →
  chain n r source parent v p → (a, b) ∈ edges p → net (edges p) a b = 1.
Proof.
  intros Hsource.
  induction 1 as [|v u p Hv Hne Hp Hpos Hnin Hc IH];
    [by intros ?%elem_of_nil|].
  rewrite (chain_edges n source r parent v u p Hc).
  assert (u ∈ p) as Hu.
  { destruct (chain_head n source r parent u p Hc) as [p' ->].
    apply elem_of_cons. by left. }
  assert (u ≠ v) as Huv by (intros ->; done).
  intros [[= -> ->]|Hin]%elem_of_cons; simpl; unfold ind.
  - rewrite decide_True, decide_False by congruence.
    rewrite net_notin; [lia| |].
    + by intros [_ ?]%edges_elem.
    + by intros [? _]%edges_elem.
  - destruct (edges_elem _ _ _ Hin) as [Ha Hb].
    rewrite IH by done.
    rewrite !decide_False; [lia| |]; intros [= -> ->]; done.
Qed.

(** A round of the main loop that finds a path: what it pushes is the
    bottleneck of the path, and the table is updated along it. *)
Lemma ek_body_augment n source sink fuel r parent max_flow r' parent'
    max_flow' :
  node n source → square n r → length parent = n → (n < fuel)%nat →
  Code.ek_body n source sink fuel r parent max_flow
    = Done r' (Some (parent', max_flow')) →
  ∃ p pf,
    chain n r source parent' sink p ∧ sink ≠ source ∧ 0 < pf ∧
    max_flow' = num_add max_flow (Int pf) ∧
    r' = path_apply pf r (edges p) ∧
    path_min r (edges p) Inf = Int pf.
Proof.
  intros Hsource Hsq Hlen Hfuel Hbody.
  destruct (ek_body_spec n source sink Hsource fuel r parent max_flow Hsq
    Hlen Hfuel) as [Hstop|(parent'' & p & pf & _ & _ & Hne & Hc & Hpos & _
      & Hbn & Hstep)].
  { rewrite Hstop in Hbody. done. }
  rewrite Hstep in Hbody. injection Hbody as <- <- <-.
  exists p, pf. split_and!; try done.
  pose proof (chain_length n source Hsource _ _ _ _ Hc) as Hp.
  rewrite (bottleneck_spec n source Hsource r r parent'' sink p fuel Inf)
    in Hbn; [|done..|lia].
  by injection Hbn.
Qed.

(** X11: one round of the main loop that finds a path, in a store whose
    table [residual] is square and with a source that is a node.  The
    amount added to [max_flow] is positive and is the smallest entry of
    [residual] along the path that [parent] holds.  Along that path the
    round lowers every entry by that amount and raises the entry of the
    opposite direction by it, so that the entry of at least one edge
    of the path becomes 0; every other entry keeps its value. *)
Theorem augmentation_saturates h t r n source sink fuel parent max_flow
    h'' parent' max_flow' :
  models t h r → square n r → node n source →
  length parent = n → (n < fuel)%nat →
  Code.ek_body (Residual0 := heap_residual t)
    n source sink fuel h parent max_flow
    = Done h'' (Some (parent', max_flow')) →
  ∃ p pf r',
    parent_path source parent' sink p ∧ 0 < pf ∧
    max_flow' = num_add max_flow (Int pf) ∧
    table_at h'' t = Some r' ∧
    Forall (λ e, pf ≤ cell r e.1 e.2 ∧
                 cell r' e.1 e.2 = cell r e.1 e.2 - pf ∧
                 cell r' e.2 e.1 = cell r e.2 e.1 + pf) (edges p) ∧
    Exists (λ e, cell r' e.1 e.2 = 0) (edges p) ∧
    ∀ a b, node n a → node n b →
      (a, b) ∉ edges p → (b, a) ∉ edges p → cell r' a b = cell r a b.
Proof.
  intros Hm Hsq Hsource Hlen Hfuel Hbody.
  generalize (ek_body_sim (heap_residual t) matrix_residual
    (models t) (heap_rd_models t) (heap_wr_models t)
    n source sink fuel h r parent max_flow Hm).
  rewrite Hbody.
  destruct (Code.ek_body _ _ _ _ r _ _) as [r' res| |] eqn:Hbody';
    simpl; try done.
  intros [Hm' <-].
  destruct (ek_body_augment _ _ _ _ _ _ _ _ _ _ Hsource Hsq Hlen Hfuel
    Hbody') as (p & pf & Hc & Hne & Hpos & -> & -> & Hmin).
  pose proof (chain_edges_ok n source Hsource _ _ _ _ Hc) as Hok.
  assert (Forall (λ e : Z * Z, node n e.1 ∧ node n e.2) (edges p)) as Hnodes.
  { eapply Forall_impl; [exact Hok|]. by intros e (_ & ? & ?). }
  assert (∀ a b, (a, b) ∈ edges p →
    pf ≤ cell r a b ∧
    cell (path_apply pf r (edges p)) a b = cell r a b - pf ∧
    cell (path_apply pf r (edges p)) b a = cell r b a + pf) as Hedge.
  { intros a b Hin. rewrite Forall_forall in Hok.
    destruct (Hok _ Hin) as (_ & Ha & Hb). simpl in Ha, Hb.
    rewrite !(cell_path_apply n) by done.
    rewrite (net_antisym _ b a),
      (chain_net_edge n r source parent' sink p a b Hsource Hc Hin).
    split; [|lia].
    destruct (chain_edges_cons n source _ _ _ _ Hc Hne)
      as (e & es & Hes).
    rewrite Hes in Hmin, Hin. rewrite path_min_cons in Hmin. simpl in Hmin.
    apply path_min_le in Hmin as [Hle Hall].
    apply elem_of_cons in Hin as [<-|Hin]; [done|].
    rewrite Forall_forall in Hall. exact (Hall _ Hin). }
  exists p, pf, (path_apply pf r (edges p)). split_and!; try done.
  - by eapply chain_parent_path.
  - by apply models_table_at.
  - apply Forall_forall. intros [a b] Hin. by apply Hedge.
  - destruct (chain_edges_cons n source _ _ _ _ Hc Hne)
      as (e & es & Hes).
    rewrite Hes in Hmin. apply path_min_attained_Inf in Hmin.
    rewrite <-Hes in Hmin.
    apply Exists_exists in Hmin as ([a b] & Hin & Heq).
    apply Exists_exists. exists (a, b). split; [done|].
    destruct (Hedge a b Hin) as (_ & Hab & _). simpl in *. lia.
  - intros a b Ha Hb Hnin Hnin'.
    rewrite (cell_path_apply n), net_notin by done. lia.
Qed.

Lemma augmentation_saturates_witness :
  ∃ p pf r',
    parent_path 0 [0; 0] 1 p ∧ 0 < pf ∧
    Int 2 = num_add (Int 0) (Int pf) ∧
    table_at [Row [0; 0]; Row [2; 0]; Table [0; 1]%nat] 2 = Some r' ∧
    Forall (λ e, pf ≤ cell tiny e.1 e.2 ∧
                 cell r' e.1 e.2 = cell tiny e.1 e.2 - pf ∧
                 cell r' e.2 e.1 = cell tiny e.2 e.1 + pf) (edges p) ∧
    Exists (λ e, cell r' e.1 e.2 = 0) (edges p) ∧
    ∀ a b, node 2 a → node 2 b →
      (a, b) ∉ edges p → (b, a) ∉ edges p → cell r' a b = cell tiny a b.
Proof.
  apply (augmentation_saturates (store_of tiny) 2 tiny 2 0 1 3 [-1; -1]
    (Int 0) [Row [0; 0]; Row [2; 0]; Table [0; 1]%nat] [0; 0] (Int 2)).
  - exists [0; 1]%nat. split; [reflexivity|]. split.
    + apply NoDup_cons. split; [|apply NoDup_singleton].
      intros ?%list_elem_of_singleton. lia.
    + repeat constructor.
  - exact (proj1 valid_network_tiny).
  - unfold node. lia.
  - reflexivity.
  - lia.
  - vm_compute. reflexivity.
Defined.
